(** * sysutil: searching rotated log files

    A shallow embedding of [search_log.go]: the severity and log-line
    parsers, the backward chunk scanner [readLastLines], the file
    resolver [resolveFiles] and the filtering iterator [logIterator.next],
    followed by the properties proved about them.

    Go strings are byte sequences and are modelled as [list ascii];
    [int], [int64] values are modelled in [Z].  File handles, buffered
    readers and the cancellation context are explicit values that are
    threaded through the functions that use them. *)

From Stdlib Require Import ZArith List Bool Ascii String Lia.
From Stdlib Require Import Permutation Sorted.
Import ListNotations.
Local Open Scope Z_scope.
Local Open Scope list_scope.

(** ** Bytes and the [strings] package *)

Definition bytes := list ascii.

Definition str (s : string) : bytes := list_ascii_of_string s.

Definition LF : ascii := "010"%char.
Definition CR : ascii := "013"%char.
Definition NUL : ascii := "000"%char.

Definition len (s : bytes) : Z := Z.of_nat (List.length s).

(** [s[lo:hi]] and [s[lo:]] *)
Definition slice (lo hi : Z) (s : bytes) : bytes :=
  firstn (Z.to_nat (hi - lo)) (skipn (Z.to_nat lo) s).

Definition slice_from (lo : Z) (s : bytes) : bytes :=
  skipn (Z.to_nat lo) s.

Fixpoint bytes_eqb (a b : bytes) : bool :=
  match a, b with
  | [], [] => true
  | x :: a', y :: b' => Ascii.eqb x y && bytes_eqb a' b'
  | _, _ => false
  end.

(** [strings.Index(s, sep)] for a one-byte separator. *)
Fixpoint IndexByte (c : ascii) (s : bytes) : Z :=
  match s with
  | [] => -1
  | x :: r =>
      if Ascii.eqb x c then 0
      else let i := IndexByte c r in
           if i <? 0 then -1 else i + 1
  end.

Fixpoint HasPrefix (s prefix : bytes) : bool :=
  match prefix, s with
  | [], _ => true
  | p :: prefix', x :: s' => Ascii.eqb x p && HasPrefix s' prefix'
  | _ :: _, [] => false
  end.

Definition HasSuffix (s suffix : bytes) : bool :=
  HasPrefix (rev s) (rev suffix).

(** [strings.ReplaceAll(s, "\r\n", "\n")] *)
Fixpoint ReplaceAll_crlf (s : bytes) : bytes :=
  match s with
  | [] => []
  | c :: r =>
      match r with
      | d :: r' =>
          if Ascii.eqb c CR && Ascii.eqb d LF then LF :: ReplaceAll_crlf r'
          else c :: ReplaceAll_crlf r
      | [] => [c]
      end
  end.

(** [strings.Split(s, "\n")]: always at least one element. *)
Fixpoint Split_lf (s : bytes) : list bytes :=
  match s with
  | [] => [[]]
  | c :: r =>
      if Ascii.eqb c LF then [] :: Split_lf r
      else match Split_lf r with
           | l :: ls => (c :: l) :: ls
           | [] => [[c]]
           end
  end.

(** ** Errors, cancellation *)

Inductive error :=
| io_EOF
| context_Canceled
| context_DeadlineExceeded
| time_ParseError
| errorString (msg : bytes)
| os_Error (code : Z).

Inductive Context := ctxActive | ctxCanceled | ctxDeadlineExceeded.

Definition ctx_Err (ctx : Context) : option error :=
  match ctx with
  | ctxActive => None
  | ctxCanceled => Some context_Canceled
  | ctxDeadlineExceeded => Some context_DeadlineExceeded
  end.

Definition isCtxDone (ctx : Context) : bool :=
  match ctx with
  | ctxActive => false
  | _ => true
  end.

(** ** Library functions taken as parameters

    [strings.TrimSpace] (Unicode aware) and [time.Parse] belong to the Go
    standard library.  The development is parametric in them; a reference
    instance for ASCII input and the unified layout is given further
    down and is used for the concrete runs. *)

Class GoLib := {
  (** [strings.TrimSpace] *)
  TrimSpace : bytes -> bytes;
  (** [time.Parse(layout, s)]: the instant in nanoseconds since the Unix
      epoch, or [None] for a parse error. *)
  time_Parse : bytes -> bytes -> option Z
}.

(** ** Severity and log messages (kvproto [diagnosticspb]) *)

Inductive LogLevel :=
| LogLevel_UNKNOWN
| LogLevel_Debug
| LogLevel_Info
| LogLevel_Warn
| LogLevel_Trace
| LogLevel_Critical
| LogLevel_Error.

Definition LogLevel_value (l : LogLevel) : Z :=
  match l with
  | LogLevel_UNKNOWN => 0
  | LogLevel_Debug => 1
  | LogLevel_Info => 2
  | LogLevel_Warn => 3
  | LogLevel_Trace => 4
  | LogLevel_Critical => 5
  | LogLevel_Error => 6
  end.

Record LogMessage := mkLogMessage {
  Time : Z;
  Level : LogLevel;
  Message : bytes
}.

(** The [switch] compares [s] with each case in turn. *)
Definition ParseLogLevel (s : bytes) : LogLevel :=
  if bytes_eqb s (str "debug") || bytes_eqb s (str "DEBUG") then LogLevel_Debug
  else if bytes_eqb s (str "info") || bytes_eqb s (str "INFO") then LogLevel_Info
  else if bytes_eqb s (str "warn") || bytes_eqb s (str "WARN") then LogLevel_Warn
  else if bytes_eqb s (str "trace") || bytes_eqb s (str "TRACE") then LogLevel_Trace
  else if bytes_eqb s (str "critical") || bytes_eqb s (str "CRITICAL")
  then LogLevel_Critical
  else if bytes_eqb s (str "error") || bytes_eqb s (str "ERROR") then LogLevel_Error
  else LogLevel_UNKNOWN.

Definition TimeStampLayout : bytes := str "2006/01/02 15:04:05.000 -07:00".
Definition timeStampLayoutLen : Z := len TimeStampLayout.

(** two's complement wrap-around of an [int64] *)
Definition wrap64 (z : Z) : Z :=
  (z + 2 ^ 63) mod 2 ^ 64 - 2 ^ 63.

(** What one pass through the body of a loop does. *)
Inductive control (A : Type) :=
| Continue
| Return (a : A)
| Panic.
Arguments Continue {A}.
Arguments Return {A} a.
Arguments Panic {A}.

(** The result of a call whose loop is bounded by fuel; [Diverges] when
    the fuel does not reach a [return]. *)
Inductive outcome (A : Type) :=
| Returns (a : A)
| Panics
| Diverges.
Arguments Returns {A} a.
Arguments Panics {A}.
Arguments Diverges {A}.

Section SearchLog.
Context `{GoLib}.

(** [t.UnixNano() / int64(time.Millisecond)] *)
Definition parseTimeStamp (s : bytes) : Z + error :=
  match time_Parse TimeStampLayout s with
  | None => inr time_ParseError
  | Some t => inl (Z.quot (wrap64 t) 1000000)
  end.

Definition invalidLogString (s : bytes) : error :=
  errorString (str "invalid log string: " ++ s).

Definition parseLogItem (s : bytes) : LogMessage + error :=
  let timeLeftBound := IndexByte "[" s in
  let timeRightBound := IndexByte "]" s in
  if (timeLeftBound =? -1) || (timeRightBound =? -1)
     || (timeLeftBound >? timeRightBound)
  then inr (invalidLogString s)
  else
    match parseTimeStamp (slice (timeLeftBound + 1) timeRightBound s) with
    | inr err => inr err
    | inl time =>
        let levelLeftBound := IndexByte "[" (slice_from (timeRightBound + 1) s) in
        let levelRightBound := IndexByte "]" (slice_from (timeRightBound + 1) s) in
        if (levelLeftBound =? -1) || (levelRightBound =? -1)
           || (levelLeftBound >? levelRightBound)
        then inr (invalidLogString s)
        else
          let level :=
            ParseLogLevel
              (slice (timeRightBound + 1 + levelLeftBound + 1)
                     (timeRightBound + 1 + levelRightBound) s) in
          inl {| Time := time;
                 Level := level;
                 Message :=
                   TrimSpace (slice_from (timeRightBound + levelRightBound + 2) s) |}
    end.


(** ** Files and buffered readers

    An [*os.File] is a value carrying the bytes on disk, the current
    offset, a schedule of I/O faults (one flag per [Seek]/[Read] call,
    [true] meaning that the call fails) and the history of the calls made
    on the handle.  [f_gunzip] is what [gzip.NewReader] yields on the
    handle. *)

Record Reader := mkReader {
  r_src : bytes;            (* bytes not yet delivered *)
  r_err : option error      (* error after them; [None] is [io.EOF] *)
}.

(** a call on the handle and whether it succeeded *)
Inductive io_op := OpSeek (off : Z) (ok : bool) | OpRead (n : Z) (ok : bool).

Record osFile := mkFile {
  f_id : Z;
  f_data : bytes;
  f_gunzip : Reader + error;
  f_off : Z;
  f_faults : list bool;
  f_ops : list io_op
}.

Definition next_fault (f : osFile) : bool * list bool :=
  match f_faults f with
  | [] => (false, [])
  | b :: rest => (b, rest)
  end.

(** [file.Seek(off, io.SeekStart)] *)
Definition file_Seek (f : osFile) (off : Z) : osFile * option error :=
  let (bad, rest) := next_fault f in
  if bad || (off <? 0)
  then (mkFile (f_id f) (f_data f) (f_gunzip f) (f_off f) rest
          (f_ops f ++ [OpSeek off false]),
        Some (os_Error 22))
  else (mkFile (f_id f) (f_data f) (f_gunzip f) off rest
          (f_ops f ++ [OpSeek off true]),
        None).

(** [file.Read(chars)] with [len(chars) = n]; the second component is
    [chars] after the call (zero bytes where nothing was stored). *)
Definition file_Read (f : osFile) (n : Z) : osFile * bytes * option error :=
  let (bad, rest) := next_fault f in
  let avail := firstn (Z.to_nat n) (skipn (Z.to_nat (f_off f)) (f_data f)) in
  let same ok :=
    mkFile (f_id f) (f_data f) (f_gunzip f) (f_off f) rest
      (f_ops f ++ [OpRead n ok]) in
  if bad then (same false, repeat NUL (Z.to_nat n), Some (os_Error 5))
  else if n <=? 0 then (same true, [], None)
  else
    match avail with
    | [] => (same false, repeat NUL (Z.to_nat n), Some io_EOF)
    | _ =>
        (mkFile (f_id f) (f_data f) (f_gunzip f) (f_off f + len avail) rest
           (f_ops f ++ [OpRead n true]),
         avail ++ repeat NUL (Z.to_nat n - List.length avail),
         None)
    end.

(** [stat.Size()] *)
Definition file_Size (f : osFile) : Z := len (f_data f).

(** [bufio.NewReader(file)]: the bytes from the current offset on.  The
    reads the buffered reader makes on the handle are not recorded in
    its history and take no fault from its schedule. *)
Definition NewReader (f : osFile) : Reader :=
  mkReader (skipn (Z.to_nat (f_off f)) (f_data f)) None.

Definition defaultBufSize : nat := 4096.

(** bytes before the first line feed, and the bytes after it *)
Fixpoint break_lf (s : bytes) : bytes * option bytes :=
  match s with
  | [] => ([], None)
  | c :: r =>
      if Ascii.eqb c LF then ([], Some r)
      else let (a, b) := break_lf r in (c :: a, b)
  end.

Definition ends_with_cr (l : bytes) : bool :=
  match rev l with
  | c :: _ => Ascii.eqb c CR
  | [] => false
  end.

Definition drop_cr (l : bytes) : bytes :=
  if ends_with_cr l then removelast l else l.

Definition src_err (r : Reader) : error :=
  match r_err r with
  | None => io_EOF
  | Some e => e
  end.

(** [bufio.Reader.ReadLine]: [(line, isPrefix, err)].  A line longer
    than the buffer is delivered in pieces with [isPrefix] set; a
    carriage return that ends a full buffer is kept for the next call.
    The end of the source shows only in the read after its last byte, so
    a full buffer without line feed is a prefix even when nothing
    follows it. *)
Definition ReadLine (r : Reader) : (bytes * bool * option error) * Reader :=
  let window := firstn defaultBufSize (r_src r) in
  match break_lf window with
  | (l, Some _) =>
      ((drop_cr l, false, None),
       mkReader (skipn (S (List.length l)) (r_src r)) (r_err r))
  | (l, None) =>
      if (List.length window <? defaultBufSize)%nat then
        match l with
        | [] => (([], false, Some (src_err r)), r)
        | _ => ((l, false, None), mkReader [] (r_err r))
        end
      else if ends_with_cr l then
        ((removelast l, true, None),
         mkReader (skipn (defaultBufSize - 1) (r_src r)) (r_err r))
      else
        ((l, true, None), mkReader (skipn defaultBufSize (r_src r)) (r_err r))
  end.

Fixpoint readLine_loop (fuel : nat) (line : bytes) (reader : Reader)
  : (bytes * option error) * Reader :=
  match fuel with
  | O => (([], Some io_EOF), reader)
  | S fuel' =>
      let '((b, isPrefix, err), reader) := ReadLine reader in
      let line := line ++ b in
      match err with
      | Some e => (([], Some e), reader)
      | None =>
          if isPrefix then readLine_loop fuel' line reader
          else ((line, None), reader)
      end
  end.

(** Read a line from a reader. *)
Definition readLine (reader : Reader) : (bytes * option error) * Reader :=
  readLine_loop (S (List.length (r_src reader))) [] reader.

(** ** Backward chunk scanner *)

Definition maxReadCacheSize : Z := 1024 * 1024 * 16.

Definition isNewline (c : ascii) : bool :=
  Ascii.eqb c LF || Ascii.eqb c CR.

(** The inner [for] of [readLastLines]; [chars] is [chars[i:]]. *)
Fixpoint scanBoundary (i : Z) (chars : bytes) (linesLen : Z)
  (firstNonNewlinePos : Z) : Z :=
  match chars with
  | c :: ((d :: _) as rest) =>
      if i >=? linesLen - 1 then firstNonNewlinePos
      else if isNewline c && negb (isNewline d) then i + 1
      else scanBoundary (i + 1) rest linesLen firstNonNewlinePos
  | _ => firstNonNewlinePos
  end.

Inductive scanExit :=
| ScanIOError
| ScanCancelled
| ScanDone (lines : bytes) (firstNonNewlinePos : Z).

Fixpoint readLastLines_loop (fuel : nat) (ctx : Context) (file : osFile)
  (lines : bytes) (firstNonNewlinePos cursor size : Z) : osFile * scanExit :=
  match fuel with
  | O => (file, ScanDone lines firstNonNewlinePos)
  | S fuel' =>
      if cursor <=? 0 then (file, ScanDone lines firstNonNewlinePos)
      else
        let size := size * 2 in
        let size := if size >? maxReadCacheSize then maxReadCacheSize else size in
        let size := if cursor <? size then cursor else size in
        let cursor := cursor - size in
        let (file, err) := file_Seek file cursor in
        match err with
        | Some _ => (file, ScanIOError)
        | None =>
            let '(file, chars, err) := file_Read file size in
            match err with
            | Some _ => (file, ScanIOError)
            | None =>
                let lines := chars ++ lines in
                let firstNonNewlinePos :=
                  scanBoundary 0 chars (len lines) firstNonNewlinePos in
                if firstNonNewlinePos >? 0
                then (file, ScanDone lines firstNonNewlinePos)
                else if isCtxDone ctx then (file, ScanCancelled)
                else readLastLines_loop fuel' ctx file lines
                       firstNonNewlinePos cursor size
            end
        end
  end.

(** Read lines from the end of a file; [endCursor] initial value should
    be the file size.  Every round moves [cursor] down by at least one
    byte, so [endCursor + 1] rounds are never exhausted. *)
Definition readLastLines (ctx : Context) (file : osFile) (endCursor : Z)
  : osFile * (list bytes * Z * option error) :=
  match readLastLines_loop (S (Z.to_nat endCursor)) ctx file [] 0 endCursor 256 with
  | (file, ScanIOError) => (file, ([], 0, ctx_Err ctx))
  | (file, ScanCancelled) => (file, ([], 0, ctx_Err ctx))
  | (file, ScanDone lines firstNonNewlinePos) =>
      let finalStr := slice_from firstNonNewlinePos lines in
      (file, (Split_lf (ReplaceAll_crlf finalStr), len finalStr, None))
  end.

(** ** Probing the first and the last valid entry *)

Definition notValidLogFile : error := errorString (str "not a valid log file").

Fixpoint readFirstValidLog_loop (fuel : nat) (ctx : Context) (reader : Reader)
  (tryLines tried : Z) : (option LogMessage * option error) * Reader :=
  match fuel with
  | O => ((None, Some notValidLogFile), reader)
  | S fuel' =>
      let '((line, err), reader) := readLine reader in
      match err with
      | Some e => ((None, Some e), reader)
      | None =>
          match parseLogItem line with
          | inl item => ((Some item, None), reader)
          | inr _ =>
              let tried := tried + 1 in
              if tried >=? tryLines then ((None, Some notValidLogFile), reader)
              else if isCtxDone ctx then ((None, ctx_Err ctx), reader)
              else readFirstValidLog_loop fuel' ctx reader tryLines tried
          end
      end
  end.

Definition readFirstValidLog (ctx : Context) (reader : Reader) (tryLines : Z)
  : (option LogMessage * option error) * Reader :=
  readFirstValidLog_loop (Z.to_nat (Z.max 1 tryLines)) ctx reader tryLines 0.

(** [for i := len(lines) - 1; i >= 0; i--]: the last line that parses *)
Definition lastParsable (lines : list bytes) : option LogMessage :=
  fold_left
    (fun found line =>
       match found with
       | Some item => Some item
       | None => match parseLogItem line with
                 | inl item => Some item
                 | inr _ => None
                 end
       end)
    (rev lines) None.

Fixpoint readLastValidLog_loop (fuel : nat) (ctx : Context) (file : osFile)
  (tryLines tried endCursor : Z) : osFile * (option LogMessage * option error) :=
  match fuel with
  | O => (file, (None, Some notValidLogFile))
  | S fuel' =>
      let '(file, (lines, readBytes, err)) := readLastLines ctx file endCursor in
      match err with
      | Some e => (file, (None, Some e))
      | None =>
          if readBytes =? 0 then (file, (None, Some notValidLogFile))
          else
            let endCursor := endCursor - readBytes in
            match lastParsable lines with
            | Some item => (file, (Some item, None))
            | None =>
                let tried := tried + Z.of_nat (List.length lines) in
                if tried >=? tryLines then (file, (None, Some notValidLogFile))
                else readLastValidLog_loop fuel' ctx file tryLines tried endCursor
            end
      end
  end.

Definition readLastValidLog (ctx : Context) (file : osFile) (tryLines : Z)
  : osFile * (option LogMessage * option error) :=
  readLastValidLog_loop (Z.to_nat (Z.max 1 tryLines)) ctx file tryLines 0
    (file_Size file).

(** ** File resolver *)

Record logFile := mkLogFile {
  file : osFile;        (* The opened file handle *)
  begin : Z;            (* timestamp in millisecond of the first line *)
  end_ : Z;             (* [end] in the source *)
  compressed : bool
}.

Definition BeginTime (l : logFile) : Z := begin l.
Definition EndTime (l : logFile) : Z := end_ l.

Definition compressSuffix : bytes := str ".gz".
Definition MaxInt64 : Z := 2 ^ 63 - 1.

(** One entry of [os.ReadDir(logDir)]: [de_path] is
    [filepath.Join(logDir, file.Name())] and [de_open] is what
    [os.OpenFile] yields on that path. *)
Record DirEntry := mkDirEntry {
  de_path : bytes;
  de_isDir : bool;
  de_open : osFile + error
}.

(** [filepath.Ext]: the suffix beginning at the final dot of the final
    path element. *)
Fixpoint ext_scan (rpath acc : bytes) : bytes :=
  match rpath with
  | [] => []
  | c :: r =>
      if Ascii.eqb c "/" then []
      else if Ascii.eqb c "." then c :: acc
      else ext_scan r (c :: acc)
  end.

Definition filepath_Ext (path : bytes) : bytes := ext_scan (rev path) [].

(** What [walkFn] learns about one directory entry before the window
    test (lines 66-131). *)
Inductive probeResult :=
| NotCandidate
| Aborted (err : option error)
| OpenFailed (err : error)
| GzipFailed
| Unusable (f : osFile)
| Probed (f : osFile) (firstItemTime lastItemTime : Z) (compressed : bool).

Definition probe (ctx : Context) (filePrefix ext : bytes) (info : DirEntry)
  : probeResult :=
  let path := de_path info in
  if de_isDir info then NotCandidate
  else if negb (HasPrefix path filePrefix) then NotCandidate
  else
    let compressed := HasSuffix path compressSuffix in
    let path :=
      if compressed then slice 0 (len path - len compressSuffix) path else path in
    if negb (HasSuffix path ext) then NotCandidate
    else if isCtxDone ctx then Aborted (ctx_Err ctx)
    else
      match de_open info with
      | inr err => OpenFailed err
      | inl file =>
          match (if compressed then f_gunzip file else inl (NewReader file)) with
          | inr _ => GzipFailed
          | inl reader =>
              match readFirstValidLog ctx reader 10 with
              | ((_, Some _), _) => Unusable file
              | ((None, None), _) => Unusable file
              | ((Some firstItem, None), _) =>
                  let firstItemTime := Time firstItem in
                  let '(file, last) :=
                    if compressed then (file, (Some MaxInt64, None))
                    else
                      match readLastValidLog ctx file 10 with
                      | (file, (Some lastItem, None)) =>
                          (file, (Some (Time lastItem), None))
                      | (file, (_, Some err)) => (file, (None, Some err))
                      | (file, (None, None)) => (file, (None, Some notValidLogFile))
                      end in
                  match last with
                  | (Some lastItemTime, None) =>
                      (* Reset position to the start *)
                      match file_Seek file 0 with
                      | (file, Some _) => Unusable file
                      | (file, None) =>
                          Probed file firstItemTime lastItemTime compressed
                      end
                  | _ => Unusable file
                  end
              end
          end
      end.

Record resolveState := mkResolveState {
  logFiles : list logFile;
  skipFiles : list osFile;
  err_ : option error     (* the [err] of [resolveFiles], assigned by [walkFn] *)
}.

Definition walkFn (ctx : Context) (beginTime endTime : Z)
  (filePrefix ext : bytes) (st : resolveState) (info : DirEntry)
  : resolveState * option error :=
  match probe ctx filePrefix ext info with
  | NotCandidate => (st, None)
  | Aborted err => (st, err)
  | OpenFailed err => (mkResolveState (logFiles st) (skipFiles st) (Some err), None)
  | GzipFailed => (mkResolveState (logFiles st) (skipFiles st) None, None)
  | Unusable f =>
      (mkResolveState (logFiles st) (skipFiles st ++ [f]) None, None)
  | Probed f firstItemTime lastItemTime compressed =>
      if (beginTime >? lastItemTime) || (endTime <? firstItemTime)
      then (mkResolveState (logFiles st) (skipFiles st ++ [f]) None, None)
      else
        (mkResolveState
           (logFiles st ++ [mkLogFile f firstItemTime lastItemTime compressed])
           (skipFiles st) None,
         None)
  end.

Fixpoint walk (ctx : Context) (beginTime endTime : Z) (filePrefix ext : bytes)
  (st : resolveState) (files : list DirEntry) : resolveState * option error :=
  match files with
  | [] => (st, None)
  | info :: rest =>
      match walkFn ctx beginTime endTime filePrefix ext st info with
      | (st, Some err) => (st, Some err)
      | (st, None) => walk ctx beginTime endTime filePrefix ext st rest
      end
  end.

(** [sort.Slice(logFiles, func(i, j) { return logFiles[i].begin <
    logFiles[j].begin })], as an insertion sort.  [sort.Slice] is not
    stable; when the begin times are distinct every sort gives the same
    list ([sort_Slice_any_sort] below). *)
Fixpoint insert_by_begin (x : logFile) (l : list logFile) : list logFile :=
  match l with
  | [] => [x]
  | y :: r =>
      if begin y <? begin x then y :: insert_by_begin x r else x :: y :: r
  end.

Definition sort_Slice (l : list logFile) : list logFile :=
  fold_right insert_by_begin [] l.

(** The pruning loop; [prev] is [logFiles[i-1]] and [rest] is
    [logFiles[i:]]. *)
Fixpoint prune_loop (i : Z) (prev : logFile) (rest : list logFile)
  (beginTime idx : Z) (skip : list osFile) : Z * list osFile :=
  match rest with
  | [] => (idx, skip)
  | f :: rest' =>
      if begin f <? beginTime
      then prune_loop (i + 1) f rest' beginTime i (skip ++ [file prev])
      else (idx, skip)
  end.

Definition prune (logFiles : list logFile) (beginTime : Z)
  (skip : list osFile) : Z * list osFile :=
  match logFiles with
  | [] => (0, skip)
  | f0 :: rest => prune_loop 1 f0 rest beginTime 0 skip
  end.

(** The result pair of [resolveFiles] and the handles closed on the way
    out. *)
Record resolveResult := mkResolveResult {
  rr_files : list logFile;
  rr_err : option error;
  rr_closed : list osFile
}.

Definition resolveFiles (ctx : Context) (readDir : list DirEntry + error)
  (logFilePath : bytes) (beginTime endTime : Z) : resolveResult :=
  match logFilePath with
  | [] =>
      mkResolveResult []
        (Some (errorString (str "empty log file location configuration"))) []
  | _ =>
      let ext := filepath_Ext logFilePath in
      let filePrefix := slice 0 (len logFilePath - len ext) logFilePath in
      match readDir with
      | inr err => mkResolveResult [] (Some err) []
      | inl files =>
          match walk ctx beginTime endTime filePrefix ext
                  (mkResolveState [] [] None) files with
          | (_, Some err) => mkResolveResult [] (Some err) []
          | (st, None) =>
              let sorted := sort_Slice (logFiles st) in
              let (idx, skip) := prune sorted beginTime (skipFiles st) in
              mkResolveResult (skipn (Z.to_nat idx) sorted) (err_ st) skip
          end
      end
  end.

(** ** Log iterator *)

Record logIterator := mkLogIterator {
  it_begin : Z;
  it_end : Z;
  levelFlag : Z;
  patterns : list (bytes -> bool);   (* [MatchString] of each regexp *)
  fileIndex : Z;
  reader : option Reader;
  pending : list logFile;
  preLog : option LogMessage
}.

Definition set_reader (iter : logIterator) (r : option Reader) : logIterator :=
  mkLogIterator (it_begin iter) (it_end iter) (levelFlag iter) (patterns iter)
    (fileIndex iter) r (pending iter) (preLog iter).

Definition set_fileIndex (iter : logIterator) (i : Z) : logIterator :=
  mkLogIterator (it_begin iter) (it_end iter) (levelFlag iter) (patterns iter)
    i (reader iter) (pending iter) (preLog iter).

Definition set_preLog (iter : logIterator) (p : option LogMessage) : logIterator :=
  mkLogIterator (it_begin iter) (it_end iter) (levelFlag iter) (patterns iter)
    (fileIndex iter) (reader iter) (pending iter) p.

Definition nextValue : Type := (option LogMessage * option error)%type.

(** [Panic] is the index-out-of-range panic of [iter.pending[iter.fileIndex]]. *)
Definition updateToNextReader (iter : logIterator)
  : logIterator * control (option error) :=
  if fileIndex iter <? 0 then (iter, Panic)
  else
    match nth_error (pending iter) (Z.to_nat (fileIndex iter)) with
    | None => (iter, Panic)
    | Some lf =>
        if negb (compressed lf)
        then (set_reader iter (Some (NewReader (file lf))), Return None)
        else
          match f_gunzip (file lf) with
          | inr err => (iter, Return (Some err))
          | inl gr => (set_reader iter (Some gr), Return None)
          end
    end.

(** Lines 449-467: the entry made from a trimmed line, and the new
    [preLog]; [None] when the line is dropped. *)
Definition decodeLine (preLog : option LogMessage) (line : bytes)
  : option (LogMessage * option LogMessage) :=
  if match preLog with None => true | Some _ => false end
     && (len line <? timeStampLayoutLen)
  then None
  else
    match parseLogItem line with
    | inr _ =>
        match preLog with
        | None => None
        | Some pre =>
            (* make whole line as log message with pre time and pre log_level *)
            Some ({| Time := Time pre; Level := Level pre; Message := line |},
                  preLog)
        end
    | inl item => Some (item, Some item)
    end.

(** always keep unknown log_level *)
Definition levelExcluded (levelFlag : Z) (item : LogMessage) : bool :=
  (LogLevel_value (Level item) >? LogLevel_value LogLevel_UNKNOWN)
  && negb (levelFlag =? 0)
  && (Z.land levelFlag (Z.shiftl 1 (LogLevel_value (Level item))) =? 0).

(** Lines 468-486. *)
Definition applyFilters (iter : logIterator) (item : LogMessage)
  : control nextValue :=
  if Time item >? it_end iter then Return (None, Some io_EOF)
  else if Time item <? it_begin iter then Continue
  else if levelExcluded (levelFlag iter) item then Continue
  else if negb (forallb (fun p => p (Message item)) (patterns iter)) then Continue
  else Return (Some item, None).

(** One pass through the [nextLine] loop. *)
Definition nextLine (ctx : Context) (iter : logIterator)
  : logIterator * control nextValue :=
  if isCtxDone ctx then (iter, Return (None, ctx_Err ctx))
  else
    match reader iter with
    | None => (iter, Panic)
    | Some rd =>
        let '((line, err), rd) := readLine rd in
        let iter := set_reader iter (Some rd) in
        match err with
        | Some io_EOF =>
            (* Switch to next log file *)
            let iter := set_fileIndex iter (fileIndex iter + 1) in
            if fileIndex iter >=? Z.of_nat (List.length (pending iter))
            then (iter, Return (None, Some io_EOF))
            else
              match updateToNextReader iter with
              | (iter, Return (Some err)) => (iter, Return (None, Some err))
              | (iter, Return None) => (iter, Continue)
              | (iter, _) => (iter, Panic)
              end
        | _ =>
            let line := TrimSpace line in
            match decodeLine (preLog iter) line with
            | None => (iter, Continue)
            | Some (item, pre) =>
                let iter := set_preLog iter pre in
                (iter, applyFilters iter item)
            end
        end
    end.

Fixpoint next_loop (fuel : nat) (ctx : Context) (iter : logIterator)
  : logIterator * outcome nextValue :=
  match fuel with
  | O => (iter, Diverges)
  | S fuel' =>
      match nextLine ctx iter with
      | (iter, Continue) => next_loop fuel' ctx iter
      | (iter, Return v) => (iter, Returns v)
      | (iter, Panic) => (iter, Panics)
      end
  end.

Definition next (fuel : nat) (ctx : Context) (iter : logIterator)
  : logIterator * outcome nextValue :=
  match reader iter with
  | None =>
      (* initial state *)
      match pending iter with
      | [] => (iter, Returns (None, Some io_EOF))
      | _ =>
          match updateToNextReader iter with
          | (iter, Return (Some err)) => (iter, Returns (None, Some err))
          | (iter, Return None) => next_loop fuel ctx iter
          | (iter, _) => (iter, Panics)
          end
      end
  | Some _ => next_loop fuel ctx iter
  end.

End SearchLog.

(** ** A reference instance of the library functions

    [TrimSpace_ascii] is [strings.TrimSpace] on input whose bytes are all
    below 0x80; [Parse_unified] is [time.Parse] for [TimeStampLayout] on
    timestamps written with digits only.  The theorems below hold for
    every instance; this one runs the code on concrete files. *)

Definition asciiSpace (c : ascii) : bool :=
  match c with
  | "009"%char | "010"%char | "011"%char | "012"%char | "013"%char
  | " "%char => true
  | _ => false
  end.

Fixpoint trimLeft (s : bytes) : bytes :=
  match s with
  | c :: r => if asciiSpace c then trimLeft r else s
  | [] => []
  end.

Definition TrimSpace_ascii (s : bytes) : bytes :=
  rev (trimLeft (rev (trimLeft s))).

Definition digitVal (c : ascii) : option Z :=
  let n := Z.of_N (N_of_ascii c) in
  if (48 <=? n) && (n <=? 57) then Some (n - 48) else None.

(** [getnum(value, true)]: exactly two digits *)
Definition getnum2 (s : bytes) : option (Z * bytes) :=
  match s with
  | a :: b :: r =>
      match digitVal a, digitVal b with
      | Some x, Some y => Some (10 * x + y, r)
      | _, _ => None
      end
  | _ => None
  end.

(** [getnum(value, false)]: one or two digits *)
Definition getnum12 (s : bytes) : option (Z * bytes) :=
  match s with
  | a :: r =>
      match digitVal a with
      | None => None
      | Some x =>
          match r with
          | b :: r' =>
              match digitVal b with
              | Some y => Some (10 * x + y, r')
              | None => Some (x, r)
              end
          | [] => Some (x, r)
          end
      end
  | [] => None
  end.

Definition expect (c : ascii) (s : bytes) : option bytes :=
  match s with
  | x :: r => if Ascii.eqb x c then Some r else None
  | [] => None
  end.

Definition isLeap (year : Z) : bool :=
  (year mod 4 =? 0) && (negb (year mod 100 =? 0) || (year mod 400 =? 0)).

Definition daysIn (month year : Z) : Z :=
  if month =? 2 then (if isLeap year then 29 else 28)
  else if (month =? 4) || (month =? 6) || (month =? 9) || (month =? 11) then 30
  else 31.

(** days from 1970-01-01 to the given civil date *)
Definition daysFromCivil (year month day : Z) : Z :=
  let y := if month <=? 2 then year - 1 else year in
  let era := y / 400 in
  let yoe := y - era * 400 in
  let mp := if month >? 2 then month - 3 else month + 9 in
  let doy := (153 * mp + 2) / 5 + day - 1 in
  let doe := yoe * 365 + yoe / 4 - yoe / 100 + doy in
  era * 146097 + doe - 719468.

Definition bind {A B : Type} (o : option A) (k : A -> option B) : option B :=
  match o with
  | Some a => k a
  | None => None
  end.

Notation "x <- e ;; k" := (bind e (fun x => k))
  (at level 61, e at next level, right associativity).
Notation "' p <- e ;; k" := (bind e (fun x => let p := x in k))
  (at level 61, p pattern, e at next level, right associativity).

Definition guard (b : bool) : option unit := if b then Some tt else None.

Definition Parse_unified (s : bytes) : option Z :=
  '(y1, s) <- getnum2 s ;;
  '(y2, s) <- getnum2 s ;;
  let year := 100 * y1 + y2 in
  s <- expect "/" s ;;
  '(month, s) <- getnum2 s ;;
  _ <- guard ((1 <=? month) && (month <=? 12)) ;;
  s <- expect "/" s ;;
  '(day, s) <- getnum2 s ;;
  s <- expect " " s ;;
  '(hour, s) <- getnum12 s ;;
  _ <- guard (hour <? 24) ;;
  s <- expect ":" s ;;
  '(min, s) <- getnum2 s ;;
  _ <- guard (min <? 60) ;;
  s <- expect ":" s ;;
  '(sec, s) <- getnum2 s ;;
  _ <- guard (sec <? 60) ;;
  s <- expect "." s ;;
  '(f1, _) <- getnum12 (firstn 1 s) ;;
  '(f23, s) <- getnum2 (skipn 1 s) ;;
  let msec := 100 * f1 + f23 in
  s <- expect " " s ;;
  sign <- match s with
          | "+"%char :: _ => Some 1
          | "-"%char :: _ => Some (-1)
          | _ => None
          end ;;
  '(zh, s) <- getnum2 (tl s) ;;
  s <- expect ":" s ;;
  '(zm, s) <- getnum2 s ;;
  _ <- guard ((zh <=? 24) && (zm <=? 60)) ;;
  _ <- guard (match s with [] => true | _ => false end) ;;
  _ <- guard ((1 <=? day) && (day <=? daysIn month year)) ;;
  let zoneOffset := sign * ((zh * 60 + zm) * 60) in
  let unix :=
    daysFromCivil year month day * 86400 + hour * 3600 + min * 60 + sec
    - zoneOffset in
  Some (unix * 1000000000 + msec * 1000000).

Definition refLib : GoLib := {|
  TrimSpace := TrimSpace_ascii;
  time_Parse := fun layout s =>
    if bytes_eqb layout TimeStampLayout then Parse_unified s else None
|}.

(** ** Concrete files *)

Definition ex_line1 : bytes :=
  str "[2019/08/26 06:19:13.011 -04:00] [INFO] [x.go:1] hello".
Definition ex_line2 : bytes := str "stack trace continuation".
Definition ex_line3 : bytes :=
  str "[2019/08/26 06:19:14.000 -04:00] [WARN] [x.go:2] bye".

(** The three lines of the example, each ended by a line feed. *)
Definition ex_data : bytes :=
  ex_line1 ++ LF :: ex_line2 ++ LF :: ex_line3 ++ [LF].

(** Two lines, both of which parse. *)
Definition ex_data2 : bytes := ex_line1 ++ LF :: ex_line3 ++ [LF].

(** Older rotated files. *)
Definition ex_old1 : bytes :=
  str "[2019/08/26 05:00:00.000 -04:00] [INFO] [x.go:1] a" ++ LF
  :: str "[2019/08/26 05:30:00.000 -04:00] [INFO] [x.go:1] b" ++ [LF].
Definition ex_old2 : bytes :=
  str "[2019/08/26 06:00:00.000 -04:00] [INFO] [x.go:1] c" ++ LF
  :: str "[2019/08/26 06:19:13.000 -04:00] [ERROR] [x.go:1] d" ++ [LF].

Definition ex_file (id : Z) (data : bytes) (faults : list bool) : osFile :=
  mkFile id data (inr (errorString (str "gzip: invalid header"))) 0 faults [].

Definition ex_entry (path : string) (id : Z) (data : bytes) (faults : list bool)
  : DirEntry :=
  mkDirEntry (str path) false (inl (ex_file id data faults)).

Definition ex_dir : list DirEntry :=
  [ ex_entry "/log/tidb-1.log" 3 ex_old1 [];
    ex_entry "/log/tidb-2.log" 4 ex_old2 [];
    ex_entry "/log/tidb.log" 5 ex_data [] ].

Definition ex_msg1 : LogMessage :=
  {| Time := 1566814753011; Level := LogLevel_Info;
     Message := str "[x.go:1] hello" |}.

Definition ex_msg3 : LogMessage :=
  {| Time := 1566814754000; Level := LogLevel_Warn;
     Message := str "[x.go:2] bye" |}.

Definition ex_cont : LogMessage :=
  {| Time := 1566814753011; Level := LogLevel_Info; Message := ex_line2 |}.

Definition ex_path : bytes := str "/log/tidb.log".

(** A line whose message holds a carriage return, and a file whose last
    line is as long as the buffer of the reader and has no line feed. *)
Definition ex_line_cr : bytes :=
  str "[2019/08/26 06:19:13.011 -04:00] [INFO] a" ++ CR :: str "b".
Definition ex_data_cr : bytes := ex_line_cr ++ [LF].
Definition ex_data_long : bytes :=
  ex_line1 ++ LF :: repeat "x"%char defaultBufSize.

(** An iterator on the example file, before the first call. *)
Definition ex_iter (beginTime endTime : Z) (files : list logFile) : logIterator :=
  mkLogIterator beginTime endTime 0 [] 0 None files None.

Definition ex_logFile : logFile :=
  mkLogFile (ex_file 5 ex_data []) 1566814753011 1566814754000 false.

(** The same iterator after the first line has been returned. *)
Definition ex_iter1 (beginTime endTime : Z) : logIterator :=
  mkLogIterator beginTime endTime 0 [] 0
    (Some (mkReader (ex_line2 ++ LF :: ex_line3 ++ [LF]) None))
    [ex_logFile] (Some ex_msg1).

(** ** Notions used by the statements *)

(** The severity names of the [switch] in [ParseLogLevel]. *)
Definition levelNames : list (bytes * LogLevel) :=
  [ (str "debug", LogLevel_Debug); (str "info", LogLevel_Info);
    (str "warn", LogLevel_Warn); (str "trace", LogLevel_Trace);
    (str "critical", LogLevel_Critical); (str "error", LogLevel_Error) ].

Definition upperByte (c : ascii) : ascii :=
  let n := N_of_ascii c in
  if ((97 <=? n) && (n <=? 122))%N then ascii_of_N (n - 32) else c.

Definition lowerByte (c : ascii) : ascii :=
  let n := N_of_ascii c in
  if ((65 <=? n) && (n <=? 90))%N then ascii_of_N (n + 32) else c.

Definition ToUpper (s : bytes) : bytes := map upperByte s.
Definition ToLower (s : bytes) : bytes := map lowerByte s.

Definition opFailed (op : io_op) : bool :=
  match op with
  | OpSeek _ ok => negb ok
  | OpRead _ ok => negb ok
  end.

(** The size of the chunk of round [k] (counted from 1) of
    [readLastLines] when [cursor] bytes remain before offset 0. *)
Definition chunkSize (k cursor : Z) : Z :=
  Z.min (Z.min (256 * 2 ^ k) maxReadCacheSize) cursor.

(** The calls made on the handle from round [k] on: each round seeks to
    [cursor - chunkSize k cursor] and reads [chunkSize k cursor] bytes
    there; the calls end after a round, or after the seek of a round. *)
Inductive chunkRounds : Z -> Z -> list io_op -> Prop :=
| rounds_done k cursor : chunkRounds k cursor []
| rounds_seek k cursor ok :
    chunkRounds k cursor [OpSeek (cursor - chunkSize k cursor) ok]
| rounds_read k cursor ok ok' rest :
    chunkRounds (k + 1) (cursor - chunkSize k cursor) rest ->
    chunkRounds k cursor
      (OpSeek (cursor - chunkSize k cursor) ok
       :: OpRead (chunkSize k cursor) ok' :: rest).

(** The sizes of the reads among the calls. *)
Definition readSizes (ops : list io_op) : list Z :=
  flat_map (fun op => match op with OpRead n _ => [n] | OpSeek _ _ => [] end) ops.

(** Lines joined into a stream, each followed by a line feed. *)
Definition joinLines (ls : list bytes) : bytes :=
  List.concat (map (fun l => l ++ [LF]) ls).

Section Observations.
Context `{GoLib}.

(** The trimmed line that the next pass of the [nextLine] loop decodes,
    when it reads one. *)
Definition lineRead (iter : logIterator) : option bytes :=
  match reader iter with
  | None => None
  | Some rd =>
      match readLine rd with
      | ((_, Some io_EOF), _) => None
      | ((line, _), _) => Some (TrimSpace line)
      end
  end.


(** [n] successive passes of the loop, each from the state the previous
    one left (the state survives from one call of [next] to the following
    one), with what each pass did. *)
Fixpoint nextLines (n : nat) (ctx : Context) (iter : logIterator)
  : logIterator * list (control nextValue) :=
  match n with
  | O => (iter, [])
  | S n' =>
      let (iter1, c) := nextLine ctx iter in
      let (iter2, cs) := nextLines n' ctx iter1 in
      (iter2, c :: cs)
  end.

(** The iterator state before pass [k] of such a run. *)
Fixpoint stateAt (k : nat) (ctx : Context) (iter : logIterator) : logIterator :=
  match k with
  | O => iter
  | S k' => stateAt k' ctx (fst (nextLine ctx iter))
  end.

(** The candidates of a directory listing: the entries that [walkFn]
    probes down to a time span, in the order of the listing. *)
Definition candidates (ctx : Context) (filePrefix ext : bytes)
  (files : list DirEntry) : list logFile :=
  flat_map
    (fun info =>
       match probe ctx filePrefix ext info with
       | Probed f b e c => [mkLogFile f b e c]
       | _ => []
       end)
    files.

(** The first of the lines that parses. *)
Fixpoint firstParsable (lines : list bytes) : option LogMessage :=
  match lines with
  | [] => None
  | l :: rest =>
      match parseLogItem l with
      | inl item => Some item
      | inr _ => firstParsable rest
      end
  end.

(** The handles of the entries that [walkFn] opens and probes, as the
    probe leaves them. *)
Definition probedHandles (ctx : Context) (filePrefix ext : bytes)
  (files : list DirEntry) : list osFile :=
  flat_map
    (fun info =>
       match probe ctx filePrefix ext info with
       | Unusable f => [f]
       | Probed f _ _ _ => [f]
       | _ => []
       end)
    files.


End Observations.

(** Forward reading of a whole file: [readLine] until it fails. *)
Fixpoint readAllLines_loop (fuel : nat) (reader : Reader) : list bytes :=
  match fuel with
  | O => []
  | S fuel' =>
      match readLine reader with
      | ((_, Some _), _) => []
      | ((line, None), reader) => line :: readAllLines_loop fuel' reader
      end
  end.

Definition readAllLines (data : bytes) : list bytes :=
  readAllLines_loop (S (List.length data)) (mkReader data None).

(** the final [n] elements of a list *)
Definition lastn {A : Type} (n : nat) (l : list A) : list A :=
  skipn (List.length l - n) l.

(** [lines] without the empty string that [Split_lf] leaves after a
    final line feed *)
Definition dropTrailingEmpty (lines : list bytes) : list bytes :=
  match rev lines with
  | [] :: r => rev r
  | _ => lines
  end.

(** the bytes after the last line feed *)
Definition unterminatedTail (data : bytes) : bytes := last (Split_lf data) [].

Definition startsWithLF (s : bytes) : bool :=
  match s with
  | c :: _ => Ascii.eqb c LF
  | [] => false
  end.

(** The lines of a byte sequence: the pieces ended by a line feed,
    each without one carriage return before it, and the piece after the
    last line feed when it is not empty. *)
Fixpoint fileLines (s : bytes) : list bytes :=
  match s with
  | [] => []
  | c :: r =>
      if Ascii.eqb c LF then [] :: fileLines r
      else if Ascii.eqb c CR && startsWithLF r then fileLines r
      else match fileLines r with
           | l :: ls => (c :: l) :: ls
           | [] => [[c]]
           end
  end.

(** whether the sequence is empty or ends with a line feed *)
Fixpoint terminated (s : bytes) : bool :=
  match s with
  | [] => true
  | c :: r =>
      match r with
      | [] => Ascii.eqb c LF
      | _ => terminated r
      end
  end.

(** The last [n] bytes of [data] are the whole of it or come just after
    a line feed. *)
Definition stopsAtLineFeed (data : bytes) (n : Z) : Prop :=
  n = len data \/ exists x y, data = x ++ LF :: y /\ len y = n.

(** No carriage return is followed by a byte other than a line feed or
    a carriage return. *)
Definition noLoneCR (data : bytes) : Prop :=
  forall x c y, data = x ++ CR :: c :: y -> isNewline c = true.

(** There are no bytes after the last line feed, or [readLine] delivers
    them as a line. *)
Definition tailDelivered (data : bytes) : Prop :=
  unterminatedTail data = []
  \/ fst (readLine (mkReader (unterminatedTail data) None))
     = (unterminatedTail data, None).

(** Two spans that do not meet. *)
Definition disjointSpans (a b : logFile) : Prop :=
  end_ a < begin b \/ end_ b < begin a.

Definition beginsBefore (a b : logFile) : Prop := begin a < begin b.

(** The window test of [walkFn] (line 133), for the files it keeps. *)
Definition inWindow (beginTime endTime : Z) (l : logFile) : bool :=
  negb ((beginTime >? end_ l) || (endTime <? begin l)).

(** What the pruning loop leaves of a list: it drops an element as long
    as the next one begins before [beginTime]. *)
Fixpoint dropBefore (beginTime : Z) (l : list logFile) : list logFile :=
  match l with
  | a :: ((b :: _) as t) =>
      if begin b <? beginTime then dropBefore beginTime t else l
  | _ => l
  end.

(** The name test of [walkFn] (lines 66-80). *)
Definition nameMatches (filePrefix ext : bytes) (info : DirEntry) : bool :=
  let path := de_path info in
  negb (de_isDir info)
  && HasPrefix path filePrefix
  && HasSuffix
       (if HasSuffix path compressSuffix
        then slice 0 (len path - len compressSuffix) path else path)
       ext.

(** The error of the last [os.OpenFile] among the entries that pass the
    name test, starting from [err]. *)
Definition lastOpenError (filePrefix ext : bytes) (files : list DirEntry)
  (err : option error) : option error :=
  fold_left
    (fun err info =>
       if nameMatches filePrefix ext info
       then match de_open info with
            | inr e => Some e
            | inl _ => None
            end
       else err)
    files err.

Definition beginsNotAfter (a b : logFile) : Prop := begin a <= begin b.

(** Two iterator states with the same filters and the same file list. *)
Definition sameQuery (a b : logIterator) : Prop :=
  it_begin a = it_begin b /\ it_end a = it_end b
  /\ levelFlag a = levelFlag b /\ patterns a = patterns b
  /\ pending a = pending b.

(** The stream that [updateToNextReader] installs for a file, its
    length, and whether it ends without a read error. *)
Definition streamOf (lf : logFile) : Reader + error :=
  if compressed lf then f_gunzip (file lf) else inl (NewReader (file lf)).

Definition streamLen (lf : logFile) : nat :=
  match streamOf lf with
  | inl rd => List.length (r_src rd)
  | inr _ => O
  end.

Definition cleanStream (lf : logFile) : Prop :=
  match streamOf lf with
  | inl rd => r_err rd = None
  | inr _ => True
  end.

(** A bound on the passes of the [nextLine] loop: a pass for every
    byte still to be read and one for every change of file. *)
Fixpoint workOf (files : list logFile) : nat :=
  match files with
  | [] => O
  | lf :: rest => S (streamLen lf + workOf rest)
  end.

Definition workLeft (iter : logIterator) : nat :=
  match reader iter with
  | Some rd => List.length (r_src rd)
  | None => O
  end + workOf (pending iter).

(** A compressed rotated file, a file that cannot be opened, a file
    whose first line does not parse, and an iterator that filters. *)
Definition ex_gz_entry : DirEntry :=
  mkDirEntry (str "/log/tidb-0.log.gz") false
    (inl (mkFile 2 (str "compressed bytes") (inl (mkReader ex_old1 None)) 0 [] [])).




(** A file with a lone carriage return in its first line, twelve
    entries and a last line without line feed. *)
Definition ex_data_early_cr : bytes :=
  str "a" ++ CR :: str "b" ++ LF :: joinLines (repeat ex_line1 12) ++ ex_line3.

Definition ex_gz_entry1 : DirEntry :=
  mkDirEntry (str "/log/tidb-1.log.gz") false
    (inl (mkFile 7 (str "compressed bytes") (inl (mkReader ex_old2 None)) 0 [] [])).

(** Two compressed rotated files and the live file. *)
Definition ex_dir_gz : list DirEntry :=
  [ ex_gz_entry; ex_gz_entry1; ex_entry "/log/tidb.log" 5 ex_data [] ].

Definition ex_dir_denied : list DirEntry :=
  ex_dir
  ++ [ mkDirEntry (str "/log/tidb_slow.log") false (inr (os_Error 13));
       mkDirEntry (str "/log/other.txt") false (inr (os_Error 2)) ].

Definition ex_data_tail : bytes := ex_line2 ++ LF :: ex_line3 ++ [LF].

Definition ex_iter_filter : logIterator :=
  mkLogIterator 0 MaxInt64 4 [fun m => HasPrefix m (str "[x.go")] 0 None
    [ex_logFile] None.

Definition ex_iter_end : logIterator :=
  mkLogIterator 0 MaxInt64 0 [] 0 (Some (mkReader [] None))
    [ex_logFile] (Some ex_msg3).

Definition ex_iter_broken : logIterator :=
  mkLogIterator 0 MaxInt64 0 [] 0 (Some (mkReader [] (Some (os_Error 5))))
    [ex_logFile] None.


(** * Properties *)

(** ** Severity parsing *)

Lemma bytes_eqb_eq (a b : bytes) : bytes_eqb a b = true <-> a = b.
Proof.
  revert b; induction a as [|x a IH]; intros [|y b]; simpl; split;
    try congruence; try reflexivity.
  - intros E. apply andb_true_iff in E as [E1 E2].
    apply Ascii.eqb_eq in E1. apply IH in E2. congruence.
  - intros E. injection E as -> ->. apply andb_true_iff; split.
    + apply Ascii.eqb_refl.
    + now apply IH.
Qed.

Lemma bytes_eqb_neq (a b : bytes) : a <> b -> bytes_eqb a b = false.
Proof.
  intros N. destruct (bytes_eqb a b) eqn:E; [|reflexivity].
  apply bytes_eqb_eq in E. contradiction.
Qed.

(** C4, as the code has it: the all-lower-case and the all-upper-case
    spelling of each of the six names give its severity; every other
    string, the empty one and the mixed-case spellings included, gives
    [LogLevel_UNKNOWN].  [ParseLogLevel] is a total function, so there is
    no error result. *)
Theorem ParseLogLevel_spellings :
  (forall name lvl, In (name, lvl) levelNames ->
     ParseLogLevel name = lvl /\ ParseLogLevel (ToUpper name) = lvl)
  /\ (forall s,
        ~ (exists name lvl, In (name, lvl) levelNames
                            /\ (s = name \/ s = ToUpper name)) ->
        ParseLogLevel s = LogLevel_UNKNOWN)
  /\ ParseLogLevel [] = LogLevel_UNKNOWN.
Proof.
  split; [|split].
  - intros name lvl Hin. simpl in Hin.
    repeat (destruct Hin as [Hin|Hin];
            [injection Hin as <- <-; split; reflexivity|]).
    contradiction.
  - intros s Hs.
    assert (K : forall name lvl, In (name, lvl) levelNames ->
                bytes_eqb s name = false /\ bytes_eqb s (ToUpper name) = false).
    { intros name lvl Hin; split; apply bytes_eqb_neq; intros ->;
        apply Hs; exists name, lvl; auto. }
    unfold ParseLogLevel.
    destruct (K (str "debug") LogLevel_Debug) as [-> E]; [simpl; auto|].
    change (ToUpper (str "debug")) with (str "DEBUG") in E. rewrite E. clear E.
    destruct (K (str "info") LogLevel_Info) as [-> E]; [simpl; auto|].
    change (ToUpper (str "info")) with (str "INFO") in E. rewrite E. clear E.
    destruct (K (str "warn") LogLevel_Warn) as [-> E]; [simpl; auto|].
    change (ToUpper (str "warn")) with (str "WARN") in E. rewrite E. clear E.
    destruct (K (str "trace") LogLevel_Trace) as [-> E]; [simpl; auto 6|].
    change (ToUpper (str "trace")) with (str "TRACE") in E. rewrite E. clear E.
    destruct (K (str "critical") LogLevel_Critical) as [-> E]; [simpl; auto 7|].
    change (ToUpper (str "critical")) with (str "CRITICAL") in E. rewrite E. clear E.
    destruct (K (str "error") LogLevel_Error) as [-> E]; [simpl; auto 8|].
    change (ToUpper (str "error")) with (str "ERROR") in E. rewrite E. clear E.
    reflexivity.
  - reflexivity.
Qed.

(** C4 as stated fails: "Info" spells info in mixed case, and is parsed
    as [LogLevel_UNKNOWN]. *)
Lemma ParseLogLevel_mixed_case :
  ~ (forall s name lvl, In (name, lvl) levelNames -> ToLower s = name ->
       ParseLogLevel s = lvl).
Proof.
  intros K.
  specialize (K (str "Info") (str "info") LogLevel_Info).
  assert (E : ParseLogLevel (str "Info") = LogLevel_UNKNOWN) by reflexivity.
  rewrite E in K.
  assert (LogLevel_UNKNOWN = LogLevel_Info); [|discriminate].
  apply K; [simpl; auto | reflexivity].
Qed.

(** ** The iterator *)

Section IteratorProperties.
Context `{GoLib}.




Lemma decodeLine_cases (p : option LogMessage) (line : bytes) item pre' :
  decodeLine p line = Some (item, pre') ->
  (parseLogItem line = inl item /\ pre' = Some item)
  \/ (exists e pre, parseLogItem line = inr e /\ p = Some pre /\ pre' = p
        /\ item = {| Time := Time pre; Level := Level pre; Message := line |}).
Proof.
  unfold decodeLine.
  destruct (_ && _); [discriminate|].
  destruct (parseLogItem line) as [it|e].
  - intros E. injection E as <- <-. left. auto.
  - destruct p as [pre|]; [|discriminate].
    intros E. injection E as <- <-. right. exists e, pre. auto.
Qed.

Lemma decodeLine_unparsable (p : option LogMessage) (line : bytes) e :
  parseLogItem line = inr e ->
  decodeLine p line =
    match p with
    | None => None
    | Some pre =>
        Some ({| Time := Time pre; Level := Level pre; Message := line |}, p)
    end.
Proof.
  intros E. unfold decodeLine. rewrite E.
  destruct p; [reflexivity|]. simpl. now destruct (_ <? _).
Qed.

Lemma applyFilters_item iter item v e :
  applyFilters iter item = Return (Some v, e) ->
  v = item /\ it_begin iter <= Time item <= it_end iter.
Proof.
  unfold applyFilters.
  destruct (Time item >? it_end iter) eqn:E1; [discriminate|].
  destruct (Time item <? it_begin iter) eqn:E2; [discriminate|].
  destruct (levelExcluded _ _); [discriminate|].
  destruct (negb _); [discriminate|].
  intros E. injection E as <- _.
  rewrite Z.gtb_ltb in E1. apply Z.ltb_ge in E1. apply Z.ltb_ge in E2.
  split; [reflexivity|lia].
Qed.

Lemma updateToNextReader_frame iter iter' c :
  updateToNextReader iter = (iter', c) ->
  preLog iter' = preLog iter /\ it_begin iter' = it_begin iter
  /\ it_end iter' = it_end iter.
Proof.
  unfold updateToNextReader.
  destruct (fileIndex iter <? 0); [intros E; injection E as <- _; auto|].
  destruct (nth_error _ _) as [lf|]; [|intros E; injection E as <- _; auto].
  destruct (negb (compressed lf)); [intros E; injection E as <- _; auto|].
  destruct (f_gunzip (file lf)); intros E; injection E as <- _; auto.
Qed.

(** What a pass of the loop does: either no entry is made and [preLog]
    stays, or the line read is decoded and the entry goes through the
    filters. *)
Lemma nextLine_cases ctx iter iter' c :
  nextLine ctx iter = (iter', c) ->
  it_begin iter' = it_begin iter /\ it_end iter' = it_end iter
  /\ ((preLog iter' = preLog iter /\ forall v e, c <> Return (Some v, e))
      \/ (exists line item,
            isCtxDone ctx = false /\ lineRead iter = Some line
            /\ decodeLine (preLog iter) line = Some (item, preLog iter')
            /\ c = applyFilters iter' item)).
Proof.
  unfold nextLine, lineRead.
  destruct (isCtxDone ctx).
  { intros E; injection E as <- <-. repeat split. left. split; [reflexivity | intros v e Q; discriminate Q]. }
  destruct (reader iter) as [rd|].
  2:{ intros E; injection E as <- <-. repeat split. left. split; [reflexivity | intros v e Q; discriminate Q]. }
  destruct (readLine rd) as [[raw err] rd'].
  assert (D : forall it, it = set_reader iter (Some rd') ->
    match decodeLine (preLog it) (TrimSpace raw) with
    | Some (item, pre) => (set_preLog it pre, applyFilters (set_preLog it pre) item)
    | None => (it, Continue)
    end = (iter', c) ->
    it_begin iter' = it_begin iter /\ it_end iter' = it_end iter
    /\ ((preLog iter' = preLog iter /\ forall v e, c <> Return (Some v, e))
        \/ (exists line item,
              false = false /\ Some (TrimSpace raw) = Some line
              /\ decodeLine (preLog iter) line = Some (item, preLog iter')
              /\ c = applyFilters iter' item))).
  { intros it -> . simpl.
    destruct (decodeLine (preLog iter) (TrimSpace raw)) as [[item pre]|] eqn:Dl.
    - intros E; injection E as <- <-. repeat split. right.
      exists (TrimSpace raw), item. auto.
    - intros E; injection E as <- <-. repeat split. left. split; [reflexivity | intros v e Q; discriminate Q]. }
  destruct err as [e|]; [destruct e|]; try (apply D; reflexivity).
  cbv zeta.
  destruct (_ >=? _).
  { intros E; injection E as <- <-. repeat split. left. split; [reflexivity | intros v e Q; discriminate Q]. }
  destruct (updateToNextReader _) as [it2 c2] eqn:U.
  apply updateToNextReader_frame in U. simpl in U. destruct U as (U1 & U2 & U3).
  destruct c2 as [|[e|]|]; intros E; injection E as <- <-;
    (repeat split; [assumption..|left; split; [assumption | intros v e' Q; discriminate Q]]).
Qed.

Lemma next_loop_as_next fuel ctx iter rd :
  reader iter = Some rd -> next fuel ctx iter = next_loop fuel ctx iter.
Proof. intros E. unfold next. now rewrite E. Qed.







Lemma nextLines_fst n ctx iter :
  fst (nextLines n ctx iter) = stateAt n ctx iter.
Proof.
  revert iter. induction n as [|n IH]; intros iter; simpl; [reflexivity|].
  destruct (nextLine ctx iter) as [iter1 c]. simpl.
  specialize (IH iter1). destruct (nextLines n ctx iter1). exact IH.
Qed.

(** C10.  A pass of the loop changes [preLog] only by storing the entry
    that the line it read parsed to; over any number of passes in which
    no line read parses, [preLog] stays the same entry and every entry
    returned has its time and severity. *)
Theorem preLog_only_parsed :
  (forall ctx iter,
     preLog (fst (nextLine ctx iter)) = preLog iter
     \/ exists line item,
          lineRead iter = Some line /\ parseLogItem line = inl item
          /\ preLog (fst (nextLine ctx iter)) = Some item)
  /\ (forall n ctx iter pre,
        preLog iter = Some pre ->
        (forall k line, (k < n)%nat ->
           lineRead (stateAt k ctx iter) = Some line ->
           exists e, parseLogItem line = inr e) ->
        preLog (fst (nextLines n ctx iter)) = Some pre
        /\ forall item err,
             In (Return (Some item, err)) (snd (nextLines n ctx iter)) ->
             Time item = Time pre /\ Level item = Level pre).
Proof.
  assert (Step : forall ctx iter iter' c,
            nextLine ctx iter = (iter', c) ->
            (preLog iter' = preLog iter /\ forall v e, c <> Return (Some v, e))
            \/ exists line item,
                 lineRead iter = Some line
                 /\ decodeLine (preLog iter) line = Some (item, preLog iter')
                 /\ forall v e, c = Return (Some v, e) -> v = item).
  { intros ctx iter iter' c N. apply nextLine_cases in N.
    destruct N as (_ & _ & [N|(line & item & _ & L & Dl & A)]); [left; exact N|].
    right. exists line, item. repeat split; try assumption.
    intros v e' Q. rewrite Q in A. symmetry in A.
    now apply applyFilters_item in A. }
  split.
  - intros ctx iter. destruct (nextLine ctx iter) as [iter' c] eqn:N. simpl.
    apply Step in N. destruct N as [[N _]|(line & item & L & Dl & _)]; [now left|].
    apply decodeLine_cases in Dl.
    destruct Dl as [[P Q]|(e & pre & P & Q1 & Q2 & _)].
    + right. exists line, item. auto.
    + left. congruence.
  - induction n as [|n IH]; intros ctx iter pre P U; simpl.
    { split; [assumption|]. intros item err []. }
    destruct (nextLine ctx iter) as [iter1 c] eqn:N.
    assert (Q : preLog iter1 = Some pre
                /\ forall item err, c = Return (Some item, err) ->
                     Time item = Time pre /\ Level item = Level pre).
    { apply Step in N. destruct N as [[N1 N2]|(line & item & L & Dl & A)].
      - split; [congruence|]. intros item err Q. exfalso. now apply (N2 item err).
      - destruct (U 0%nat line) as [e Hp]; [lia|exact L|].
        rewrite (decodeLine_unparsable _ _ _ Hp), P in Dl.
        injection Dl as <- Dp. split; [congruence|].
        intros item err Q. apply A in Q. subst item. auto. }
    destruct Q as [Q1 Q2].
    destruct (IH ctx iter1 pre Q1) as [I1 I2].
    { intros k line Hk L. apply (U (S k) line); [lia|].
      simpl. rewrite N. exact L. }
    destruct (nextLines n ctx iter1) as [iter2 cs]. simpl in *.
    split; [assumption|].
    intros item err [->|Hin]; [eauto|eauto].
Qed.

End IteratorProperties.

(** ** The backward chunk scanner *)

Lemma file_Seek_ops f off :
  exists ok,
    f_ops (fst (file_Seek f off)) = f_ops f ++ [OpSeek off ok]
    /\ (snd (file_Seek f off) = None <-> ok = true).
Proof.
  unfold file_Seek. destruct (next_fault f) as [bad rest].
  destruct (bad || (off <? 0)); simpl.
  - exists false. split; [reflexivity|]. split; discriminate.
  - exists true. split; [reflexivity|]. split; reflexivity.
Qed.

Lemma file_Read_ops f n :
  exists ok,
    f_ops (fst (fst (file_Read f n))) = f_ops f ++ [OpRead n ok]
    /\ (snd (file_Read f n) = None <-> ok = true).
Proof.
  unfold file_Read. destruct (next_fault f) as [bad rest].
  destruct bad; simpl.
  { exists false. split; [reflexivity|]. split; discriminate. }
  destruct (n <=? 0); simpl.
  { exists true. split; [reflexivity|]. split; reflexivity. }
  destruct (firstn _ _); simpl.
  - exists false. split; [reflexivity|]. split; discriminate.
  - exists true. split; [reflexivity|]. split; reflexivity.
Qed.

Lemma chunk_update (k cursor size : Z) :
  1 <= k -> size = Z.min (256 * 2 ^ (k - 1)) maxReadCacheSize ->
  (if cursor <? (if size * 2 >? maxReadCacheSize
                 then maxReadCacheSize else size * 2)
   then cursor
   else (if size * 2 >? maxReadCacheSize then maxReadCacheSize else size * 2))
  = chunkSize k cursor
  /\ (0 < cursor -> chunkSize k cursor < cursor ->
      chunkSize k cursor = Z.min (256 * 2 ^ k) maxReadCacheSize).
Proof.
  intros Hk ->. unfold chunkSize.
  replace (2 ^ k) with (2 * 2 ^ (k - 1))
    by (rewrite <- Z.pow_succ_r by lia; f_equal; lia).
  assert (0 < 2 ^ (k - 1)) by (apply Z.pow_pos_nonneg; lia).
  unfold maxReadCacheSize in *.
  split.
  - destruct (Z.gtb_spec (Z.min (256 * 2 ^ (k - 1)) (1024 * 1024 * 16) * 2)
                (1024 * 1024 * 16));
      match goal with |- (if ?a <? ?b then _ else _) = _ =>
        destruct (Z.ltb_spec a b) end; lia.
  - lia.
Qed.

(** The calls of the loop are chunk rounds, and one of them fails
    exactly when the loop leaves through an I/O error. *)
Lemma readLastLines_loop_ops fuel ctx :
  forall file lines pos cursor size k,
    1 <= k ->
    cursor <= 0 \/ size = Z.min (256 * 2 ^ (k - 1)) maxReadCacheSize ->
    exists ops,
      f_ops (fst (readLastLines_loop fuel ctx file lines pos cursor size))
      = f_ops file ++ ops
      /\ chunkRounds k cursor ops
      /\ (existsb opFailed ops = true
          <-> snd (readLastLines_loop fuel ctx file lines pos cursor size)
              = ScanIOError)
      /\ (0 < cursor -> (0 < fuel)%nat -> ops <> []).
Proof.
  induction fuel as [|fuel IH]; intros file lines pos cursor size k Hk Hs;
    cbn [readLastLines_loop].
  { exists []. rewrite app_nil_r.
    repeat split; try constructor; try discriminate; lia. }
  destruct (Z.leb_spec cursor 0) as [Hle|Hgt].
  { exists []. rewrite app_nil_r.
    repeat split; try constructor; try discriminate; lia. }
  destruct Hs as [Hs|Hs]; [lia|].
  destruct (chunk_update k cursor size Hk Hs) as [-> Hfull].
  destruct (file_Seek_ops file (cursor - chunkSize k cursor)) as (ok1 & O1 & E1).
  destruct (file_Seek file (cursor - chunkSize k cursor)) as [file1 err1].
  simpl in O1, E1.
  destruct err1 as [e1|].
  { exists [OpSeek (cursor - chunkSize k cursor) ok1]. simpl.
    destruct ok1; [destruct E1 as [_ E1]; now specialize (E1 eq_refl)|].
    repeat split; auto; try discriminate. constructor. }
  destruct E1 as [E1 _]. rewrite (E1 eq_refl) in O1. clear E1.
  destruct (file_Read_ops file1 (chunkSize k cursor)) as (ok2 & O2 & E2).
  destruct (file_Read file1 (chunkSize k cursor)) as [[file2 chars] err2].
  simpl in O2, E2.
  destruct err2 as [e2|].
  { exists [OpSeek (cursor - chunkSize k cursor) true;
            OpRead (chunkSize k cursor) ok2]. simpl.
    destruct ok2; [destruct E2 as [_ E2]; now specialize (E2 eq_refl)|].
    rewrite O2, O1, <- app_assoc. repeat split; auto; try discriminate.
    apply rounds_read. constructor. }
  destruct E2 as [E2 _]. rewrite (E2 eq_refl) in O2. clear E2.
  assert (Base : f_ops file2 = f_ops file ++
            [OpSeek (cursor - chunkSize k cursor) true;
             OpRead (chunkSize k cursor) true])
    by (rewrite O2, O1, <- app_assoc; reflexivity).
  destruct (scanBoundary 0 chars (len (chars ++ lines)) pos >? 0).
  { eexists. split; [exact Base|]. split; [apply rounds_read; constructor|].
    simpl. repeat split; discriminate. }
  destruct (isCtxDone ctx).
  { eexists. split; [exact Base|]. split; [apply rounds_read; constructor|].
    simpl. repeat split; discriminate. }
  destruct (IH file2 (chars ++ lines)
              (scanBoundary 0 chars (len (chars ++ lines)) pos)
              (cursor - chunkSize k cursor) (chunkSize k cursor) (k + 1))
    as (ops & O & R & F & _).
  { lia. }
  { assert (chunkSize k cursor <= cursor) by (unfold chunkSize; lia).
    destruct (Z.eq_dec (chunkSize k cursor) cursor); [left; lia|right].
    replace (k + 1 - 1) with k by lia. apply Hfull; lia. }
  exists ([OpSeek (cursor - chunkSize k cursor) true;
           OpRead (chunkSize k cursor) true] ++ ops).
  rewrite O, Base, <- app_assoc. split; [reflexivity|].
  split; [apply rounds_read; exact R|]. simpl.
  split; [exact F|discriminate].
Qed.

Lemma readLastLines_ops ctx file endCursor :
  exists ops,
    f_ops (fst (readLastLines ctx file endCursor)) = f_ops file ++ ops
    /\ chunkRounds 1 endCursor ops
    /\ (0 < endCursor -> ops <> [])
    /\ (existsb opFailed ops = true ->
        snd (readLastLines ctx file endCursor) = ([], 0, ctx_Err ctx)).
Proof.
  destruct (readLastLines_loop_ops (S (Z.to_nat endCursor)) ctx file [] 0
              endCursor 256 1) as (ops & O & R & F & N);
    [lia | right; reflexivity |].
  exists ops. unfold readLastLines.
  destruct (readLastLines_loop _ ctx file [] 0 endCursor 256) as [file' ex].
  simpl in O, F.
  split; [destruct ex; exact O|]. split; [exact R|].
  split; [intros Hc; apply N; lia|].
  intros Hf. apply F in Hf. subst ex. reflexivity.
Qed.

Lemma chunkRounds_first k cursor ops :
  chunkRounds k cursor ops -> ops <> [] ->
  exists ok rest,
    ops = OpSeek (cursor - chunkSize k cursor) ok :: rest
    /\ hd_error (readSizes rest) = hd_error (readSizes ops)
    /\ forall n, hd_error (readSizes ops) = Some n -> n = chunkSize k cursor.
Proof.
  intros R N. destruct R as [k cursor|k cursor ok|k cursor ok ok' rest R].
  - congruence.
  - exists ok, []. repeat split. simpl. discriminate.
  - exists ok, (OpRead (chunkSize k cursor) ok' :: rest).
    repeat split. simpl. congruence.
Qed.

(** C5, as the code has it.  The calls [readLastLines] makes on the
    handle are chunk rounds counted from 1: round [k] seeks back by, and
    reads, [min (min (256 * 2^k) maxReadCacheSize) cursor] bytes, where
    [cursor] is the distance left to offset 0.  The size 256 is doubled
    before the first read, so the first chunk is 512 bytes (or the whole
    distance when that is shorter). *)
Theorem readLastLines_chunks :
  forall ctx file endCursor,
    exists ops,
      f_ops (fst (readLastLines ctx file endCursor)) = f_ops file ++ ops
      /\ chunkRounds 1 endCursor ops
      /\ maxReadCacheSize = 16 * 1024 * 1024
      /\ (0 < endCursor ->
          exists ok rest,
            ops = OpSeek (endCursor - Z.min 512 endCursor) ok :: rest
            /\ forall n, hd_error (readSizes ops) = Some n ->
                 n = Z.min 512 endCursor).
Proof.
  intros ctx file endCursor.
  destruct (readLastLines_ops ctx file endCursor) as (ops & O & R & N & _).
  exists ops. repeat split; try assumption.
  intros Hc.
  destruct (chunkRounds_first _ _ _ R (N Hc)) as (ok & rest & E & _ & Hn).
  assert (C : chunkSize 1 endCursor = Z.min 512 endCursor)
    by (unfold chunkSize, maxReadCacheSize; lia).
  rewrite C in *. exists ok, rest. split; assumption.
Qed.

(** C5 as stated fails: on a file of 1000 bytes without line breaks the
    first chunk read has 512 bytes, not 256, and the second the 488 bytes
    that remain. *)
Lemma first_chunk_is_512 :
  let sizes :=
    readSizes
      (f_ops (fst (readLastLines ctxActive
                     (mkFile 1 (repeat "a"%char 1000) (inr io_EOF) 0 [] [])
                     1000))) in
  sizes = [512; 488] /\ hd_error sizes <> Some 256.
Proof. vm_compute. split; [reflexivity|discriminate]. Qed.

Section ResolverProperties.
Context `{GoLib}.

Lemma ctx_active ctx : ctx_Err ctx = None -> isCtxDone ctx = false.
Proof. destruct ctx; simpl; congruence. Qed.

Lemma readLastValidLog_loop_ops fuel ctx :
  ctx_Err ctx = None ->
  forall file tryLines tried endCursor,
    exists ops,
      f_ops (fst (readLastValidLog_loop fuel ctx file tryLines tried endCursor))
      = f_ops file ++ ops
      /\ (existsb opFailed ops = true ->
          snd (readLastValidLog_loop fuel ctx file tryLines tried endCursor)
          = (None, Some notValidLogFile)).
Proof.
  intros Hc. induction fuel as [|fuel IH]; intros file tryLines tried endCursor;
    cbn [readLastValidLog_loop].
  { exists []. rewrite app_nil_r. split; [reflexivity|discriminate]. }
  destruct (readLastLines_ops ctx file endCursor) as (ops1 & O1 & _ & _ & F1).
  rewrite Hc in F1.
  destruct (readLastLines ctx file endCursor) as [file1 [[lines readBytes] err]].
  simpl in O1, F1.
  destruct (existsb opFailed ops1) eqn:X.
  { specialize (F1 eq_refl). injection F1 as -> -> ->. simpl.
    exists ops1. auto. }
  clear F1.
  destruct err as [e|]; [exists ops1; split; [exact O1|congruence]|].
  destruct (readBytes =? 0); [exists ops1; auto|].
  destruct (lastParsable lines); [exists ops1; split; [exact O1|congruence]|].
  destruct (_ >=? tryLines); [exists ops1; auto|].
  destruct (IH file1 tryLines (tried + Z.of_nat (List.length lines))
              (endCursor - readBytes)) as (ops2 & O2 & F2).
  exists (ops1 ++ ops2). rewrite O2, O1, <- app_assoc.
  split; [reflexivity|].
  rewrite existsb_app, X. exact F2.
Qed.

(** C9.  With a context that is not cancelled, a failing [Seek] or
    [Read] makes [readLastLines] return no lines, zero bytes and a nil
    error; [readLastValidLog] then answers as it does at the start of the
    file ("not a valid log file"), and [walkFn] puts the handle on the
    skip list, keeps the files accepted so far and returns a nil error. *)
Theorem io_failure_skips_file :
  (forall ctx file endCursor ops,
     ctx_Err ctx = None ->
     f_ops (fst (readLastLines ctx file endCursor)) = f_ops file ++ ops ->
     existsb opFailed ops = true ->
     snd (readLastLines ctx file endCursor) = ([], 0, None))
  /\ (forall ctx file tryLines ops,
        ctx_Err ctx = None ->
        f_ops (fst (readLastValidLog ctx file tryLines)) = f_ops file ++ ops ->
        existsb opFailed ops = true ->
        snd (readLastValidLog ctx file tryLines) = (None, Some notValidLogFile))
  /\ (forall ctx beginTime endTime filePrefix ext st info file0 first ops,
        ctx_Err ctx = None ->
        de_isDir info = false ->
        HasPrefix (de_path info) filePrefix = true ->
        HasSuffix (de_path info) compressSuffix = false ->
        HasSuffix (de_path info) ext = true ->
        de_open info = inl file0 ->
        fst (readFirstValidLog ctx (NewReader file0) 10) = (Some first, None) ->
        f_ops (fst (readLastValidLog ctx file0 10)) = f_ops file0 ++ ops ->
        existsb opFailed ops = true ->
        walkFn ctx beginTime endTime filePrefix ext st info
        = (mkResolveState (logFiles st)
             (skipFiles st ++ [fst (readLastValidLog ctx file0 10)]) None,
           None)).
Proof.
  assert (P2 : forall ctx file tryLines ops,
        ctx_Err ctx = None ->
        f_ops (fst (readLastValidLog ctx file tryLines)) = f_ops file ++ ops ->
        existsb opFailed ops = true ->
        snd (readLastValidLog ctx file tryLines) = (None, Some notValidLogFile)).
  { intros ctx file tryLines ops Hc O X. unfold readLastValidLog in *.
    destruct (readLastValidLog_loop_ops (Z.to_nat (Z.max 1 tryLines)) ctx Hc
                file tryLines 0 (file_Size file)) as (ops' & O' & F).
    rewrite O' in O. apply app_inv_head in O. subst ops'. auto. }
  split; [|split; [exact P2|]].
  - intros ctx file endCursor ops Hc O X.
    destruct (readLastLines_ops ctx file endCursor) as (ops' & O' & _ & _ & F).
    rewrite O' in O. apply app_inv_head in O. subst ops'.
    rewrite Hc in F. auto.
  - intros ctx beginTime endTime filePrefix ext st info file0 first ops
      Hc Hd Hp Hz He Ho Hf O X.
    unfold walkFn, probe.
    rewrite Hd, Hp, Hz. simpl. rewrite He, (ctx_active _ Hc), Ho. simpl.
    destruct (readFirstValidLog ctx (NewReader file0) 10) as [r rd].
    simpl in Hf. subst r.
    rewrite (surjective_pairing (readLastValidLog ctx file0 10)).
    rewrite (P2 ctx file0 10 ops Hc O X). reflexivity.
Qed.

(** *** Sorting and pruning *)

Lemma In_insert_by_begin x z l :
  In z (insert_by_begin x l) <-> z = x \/ In z l.
Proof.
  induction l as [|y r IH]; simpl.
  - intuition.
  - destruct (begin y <? begin x); simpl; rewrite ?IH; intuition.
Qed.

Lemma In_sort_Slice z l : In z (sort_Slice l) <-> In z l.
Proof.
  induction l as [|x r IH]; simpl; [reflexivity|].
  rewrite In_insert_by_begin, IH. intuition.
Qed.

Lemma insert_by_begin_sorted x l :
  StronglySorted beginsBefore l ->
  Forall (fun y => begin y <> begin x) l ->
  StronglySorted beginsBefore (insert_by_begin x l).
Proof.
  induction 1 as [|y r S IH F]; intros D; simpl.
  - repeat constructor.
  - inversion D as [|? ? Dy Dr]; subst.
    destruct (Z.ltb_spec (begin y) (begin x)).
    + constructor; [auto|].
      apply Forall_forall. intros z Hz. apply In_insert_by_begin in Hz.
      destruct Hz as [->|Hz]; [assumption|].
      rewrite Forall_forall in F. auto.
    + assert (begin x < begin y) by lia.
      constructor; [constructor; assumption|].
      constructor; [assumption|].
      apply Forall_forall. intros z Hz. rewrite Forall_forall in F.
      specialize (F z Hz). unfold beginsBefore in *. lia.
Qed.

Lemma sort_Slice_sorted l :
  ForallOrdPairs (fun a b => begin a <> begin b) l ->
  StronglySorted beginsBefore (sort_Slice l).
Proof.
  induction 1 as [|x r F P IH]; simpl; [constructor|].
  apply insert_by_begin_sorted; [assumption|].
  apply Forall_forall. intros y Hy. apply (proj1 (In_sort_Slice _ _)) in Hy.
  rewrite Forall_forall in F. specialize (F y Hy). congruence.
Qed.

Lemma insert_by_begin_perm x l : Permutation (insert_by_begin x l) (x :: l).
Proof.
  induction l as [|y r IH]; simpl; [reflexivity|].
  destruct (begin y <? begin x); [|reflexivity].
  rewrite IH. apply perm_swap.
Qed.

Lemma sort_Slice_perm l : Permutation (sort_Slice l) l.
Proof.
  induction l as [|x r IH]; simpl; [reflexivity|].
  rewrite insert_by_begin_perm. now constructor.
Qed.

Lemma sorted_perm_eq l1 : forall l2,
  StronglySorted beginsBefore l1 -> StronglySorted beginsBefore l2 ->
  Permutation l1 l2 -> l1 = l2.
Proof.
  induction l1 as [|a t IH]; intros l2 S1 S2 P.
  - apply Permutation_nil in P. now subst.
  - destruct l2 as [|b u].
    { apply Permutation_sym, Permutation_nil in P. discriminate. }
    inversion S1 as [|? ? S1' F1]; subst.
    inversion S2 as [|? ? S2' F2]; subst.
    rewrite Forall_forall in F1, F2. unfold beginsBefore in F1, F2.
    assert (E : a = b).
    { assert (Ia : In a (b :: u))
        by (eapply Permutation_in; [exact P|now left]).
      assert (Ib : In b (a :: t))
        by (eapply Permutation_in; [symmetry; exact P|now left]).
      destruct Ia as [Ia|Ia]; [congruence|].
      destruct Ib as [Ib|Ib]; [congruence|].
      specialize (F1 b Ib). specialize (F2 a Ia). lia. }
    subst b. f_equal. apply IH; try assumption.
    eapply Permutation_cons_inv. exact P.
Qed.

(** Whatever sorting [sort.Slice] does, on distinct begin times its
    result is that of the insertion sort. *)
Lemma sort_Slice_any_sort l l' :
  ForallOrdPairs (fun a b => begin a <> begin b) l ->
  Permutation l l' -> StronglySorted beginsBefore l' ->
  l' = sort_Slice l.
Proof.
  intros D P S. symmetry. apply sorted_perm_eq.
  - now apply sort_Slice_sorted.
  - exact S.
  - rewrite sort_Slice_perm. exact P.
Qed.

Lemma ForallOrdPairs_filter {A} (R : A -> A -> Prop) (f : A -> bool) l :
  ForallOrdPairs R l -> ForallOrdPairs R (filter f l).
Proof.
  induction 1 as [|x r F P IH]; simpl; [constructor|].
  destruct (f x); [|assumption].
  constructor; [|assumption].
  apply Forall_forall. intros y Hy. apply filter_In in Hy.
  rewrite Forall_forall in F. now apply F.
Qed.

Lemma skipn_length_app {A} (pre l : list A) n :
  n = List.length pre -> skipn n (pre ++ l) = l.
Proof. intros ->. induction pre; simpl; auto. Qed.

Lemma prune_loop_dropBefore beginTime rest :
  forall pre prev i idx skip,
    i = Z.of_nat (List.length pre) + 1 -> idx = i - 1 ->
    skipn (Z.to_nat (fst (prune_loop i prev rest beginTime idx skip)))
      (pre ++ prev :: rest)
    = dropBefore beginTime (prev :: rest).
Proof.
  induction rest as [|f rest IH]; intros pre prev i idx skip Hi Hidx; simpl.
  - subst. apply skipn_length_app. lia.
  - destruct (begin f <? beginTime).
    + specialize (IH (pre ++ [prev]) f (i + 1) i (skip ++ [file prev])).
      rewrite <- app_assoc in IH. simpl in IH. apply IH; [|lia].
      rewrite length_app. simpl. lia.
    + simpl. subst. apply skipn_length_app. lia.
Qed.

Lemma prune_dropBefore l beginTime skip :
  skipn (Z.to_nat (fst (prune l beginTime skip))) l = dropBefore beginTime l.
Proof.
  destruct l as [|f0 rest]; [reflexivity|].
  unfold prune.
  apply (prune_loop_dropBefore beginTime rest [] f0 1 0 skip); reflexivity.
Qed.

Lemma dropBefore_sorted beginTime l :
  StronglySorted beginsBefore l ->
  StronglySorted beginsBefore (dropBefore beginTime l).
Proof.
  induction 1 as [|a t S IH F]; simpl; [constructor|].
  destruct t as [|b t']; [repeat constructor|].
  destruct (begin b <? beginTime); [assumption|].
  constructor; assumption.
Qed.

Lemma dropBefore_In beginTime l :
  StronglySorted beginsBefore l ->
  forall z,
    In z (dropBefore beginTime l)
    <-> In z l
        /\ (beginTime <= begin z
            \/ forall g, In g l -> begin g < beginTime -> begin g <= begin z).
Proof.
  induction 1 as [|a t S IH F]; intros z.
  - simpl. intuition.
  - rewrite Forall_forall in F. unfold beginsBefore in F.
    destruct t as [|b t'].
    + simpl. split; [|tauto].
      intros [->|[]]. split; [auto|]. right. intros g [->|[]] _. lia.
    + cbn [dropBefore]. destruct (Z.ltb_spec (begin b) beginTime) as [Hb|Hb].
      * rewrite IH. split.
        -- intros [Hz Hm]. split; [right; exact Hz|].
           destruct Hm as [Hm|Hm]; [left; exact Hm|right].
           intros g [->|Hg] Hlt; [|auto].
           specialize (F z Hz). lia.
        -- intros [[->|Hz] Hm].
           ++ exfalso. pose proof (F b (or_introl eq_refl)) as Fb.
              destruct Hm as [Hm|Hm]; [lia|].
              specialize (Hm b (or_intror (or_introl eq_refl)) Hb). lia.
           ++ split; [exact Hz|].
              destruct Hm as [Hm|Hm]; [left; exact Hm|right].
              intros g Hg. apply Hm. right. exact Hg.
      * split; [|tauto]. intros Hz. split; [exact Hz|].
        inversion S as [|? ? S' Fb]; subst.
        rewrite Forall_forall in Fb. unfold beginsBefore in Fb.
        destruct Hz as [->|[->|Hz]].
        -- destruct (Z.le_gt_cases beginTime (begin z)); [left; lia|right].
           intros g [->|[->|Hg]] Hlt; [lia|lia|].
           specialize (Fb g Hg). lia.
        -- left. lia.
        -- left. specialize (Fb z Hz). lia.
Qed.

Lemma StronglySorted_NoDup l :
  StronglySorted beginsBefore l -> NoDup l.
Proof.
  induction 1 as [|a t S IH F]; constructor; [|assumption].
  intros Hin. rewrite Forall_forall in F. specialize (F a Hin).
  unfold beginsBefore in F. lia.
Qed.

(** *** The walk over the directory *)

Lemma probe_not_aborted ctx filePrefix ext info err :
  isCtxDone ctx = false -> probe ctx filePrefix ext info <> Aborted err.
Proof.
  intros Hc. unfold probe. rewrite Hc.
  repeat match goal with
         | |- context [match ?x with _ => _ end] => destruct x
         end; discriminate.
Qed.

Lemma walkFn_candidates ctx beginTime endTime filePrefix ext st info :
  isCtxDone ctx = false ->
  exists st',
    walkFn ctx beginTime endTime filePrefix ext st info = (st', None)
    /\ logFiles st'
       = logFiles st
         ++ filter (inWindow beginTime endTime)
              (candidates ctx filePrefix ext [info]).
Proof.
  intros Hc. unfold walkFn, candidates. simpl.
  pose proof (probe_not_aborted ctx filePrefix ext info) as NA.
  destruct (probe ctx filePrefix ext info) as [|e|e| |f|f b e c]; simpl;
    try (eexists; split; [reflexivity|]; simpl; now rewrite app_nil_r).
  - exfalso. now apply (NA e).
  - unfold inWindow. simpl.
    destruct ((beginTime >? e) || (endTime <? b)); simpl;
      eexists; (split; [reflexivity|]); simpl; now rewrite ?app_nil_r.
Qed.

Lemma walk_candidates ctx beginTime endTime filePrefix ext files :
  isCtxDone ctx = false ->
  forall st,
  exists st',
    walk ctx beginTime endTime filePrefix ext st files = (st', None)
    /\ logFiles st'
       = logFiles st
         ++ filter (inWindow beginTime endTime)
              (candidates ctx filePrefix ext files).
Proof.
  intros Hc. induction files as [|info rest IH]; intros st; simpl.
  - exists st. now rewrite app_nil_r.
  - destruct (walkFn_candidates ctx beginTime endTime filePrefix ext st info Hc)
      as (st1 & W & L).
    rewrite W. destruct (IH st1) as (st2 & W2 & L2).
    exists st2. split; [exact W2|].
    rewrite L2, L. unfold candidates. simpl.
    rewrite app_nil_r, filter_app, app_assoc. reflexivity.
Qed.

Lemma resolveFiles_files ctx files logFilePath beginTime endTime :
  isCtxDone ctx = false -> logFilePath <> [] ->
  rr_files (resolveFiles ctx (inl files) logFilePath beginTime endTime)
  = dropBefore beginTime
      (sort_Slice
         (filter (inWindow beginTime endTime)
            (candidates ctx
               (slice 0 (len logFilePath - len (filepath_Ext logFilePath))
                  logFilePath)
               (filepath_Ext logFilePath) files))).
Proof.
  intros Hc Hp. unfold resolveFiles.
  destruct logFilePath as [|c path]; [congruence|].
  destruct (walk_candidates ctx beginTime endTime
              (slice 0 (len (c :: path) - len (filepath_Ext (c :: path)))
                 (c :: path))
              (filepath_Ext (c :: path)) files Hc (mkResolveState [] [] None))
    as (st & W & L).
  rewrite W. simpl in L. rewrite L.
  rewrite <- (prune_dropBefore _ beginTime (skipFiles st)).
  destruct (prune _ beginTime (skipFiles st)) as [idx skip]. reflexivity.
Qed.

(** Spans that are pairwise disjoint, each with its begin not after its
    end, begin at different times. *)
Lemma disjointSpans_distinct_begins (l : list logFile) :
  (forall a, In a l -> begin a <= end_ a) ->
  ForallOrdPairs disjointSpans l ->
  ForallOrdPairs (fun a b => begin a <> begin b) l.
Proof.
  intros Hspan Hd.
  induction Hd as [|a r F P IH]; constructor.
  - apply Forall_forall. intros b Hb. rewrite Forall_forall in F.
    specialize (F b Hb). unfold disjointSpans in F.
    pose proof (Hspan a (or_introl eq_refl)).
    pose proof (Hspan b (or_intror Hb)). lia.
  - apply IH. intros z Hz. apply Hspan. now right.
Qed.

(** C1.  For candidates that begin at different times (as candidates
    with pairwise disjoint spans do, [disjointSpans_distinct_begins];
    the spans themselves may overlap, as those of compressed files
    do), [resolveFiles] returns them sorted by begin time, and a
    candidate is returned exactly when its span meets the window and it
    either begins at or after [beginTime] or has the greatest begin time
    among the candidates in the window that begin before [beginTime]. *)
Theorem resolveFiles_window :
  forall ctx files logFilePath beginTime endTime,
    isCtxDone ctx = false -> logFilePath <> [] ->
    let ext := filepath_Ext logFilePath in
    let filePrefix := slice 0 (len logFilePath - len ext) logFilePath in
    let cands := candidates ctx filePrefix ext files in
    ForallOrdPairs (fun a b => begin a <> begin b) cands ->
    let res :=
      rr_files (resolveFiles ctx (inl files) logFilePath beginTime endTime) in
    StronglySorted beginsBefore res
    /\ NoDup res
    /\ forall l,
         In l res
         <-> In l cands
             /\ beginTime <= end_ l /\ begin l <= endTime
             /\ (beginTime <= begin l
                 \/ forall g, In g cands ->
                      beginTime <= end_ g -> begin g <= endTime ->
                      begin g < beginTime -> begin g <= begin l).
Proof.
  intros ctx files logFilePath beginTime endTime Hc Hp ext filePrefix cands
    Hdist res.
  assert (R : res = dropBefore beginTime
                (sort_Slice (filter (inWindow beginTime endTime) cands)))
    by (apply resolveFiles_files; assumption).
  assert (W : forall l, inWindow beginTime endTime l = true
                        <-> beginTime <= end_ l /\ begin l <= endTime).
  { intros l. unfold inWindow. rewrite negb_true_iff, orb_false_iff.
    rewrite Z.gtb_ltb, !Z.ltb_ge. reflexivity. }
  assert (D : ForallOrdPairs (fun a b => begin a <> begin b)
                (filter (inWindow beginTime endTime) cands))
    by (apply ForallOrdPairs_filter; exact Hdist).
  pose proof (sort_Slice_sorted _ D) as S.
  rewrite R. split; [now apply dropBefore_sorted|].
  split; [now apply StronglySorted_NoDup, dropBefore_sorted|].
  intros l. rewrite (dropBefore_In beginTime _ S).
  rewrite In_sort_Slice, filter_In, W. split.
  - intros [(Hin & Hb & He) Hm]. repeat split; try assumption.
    destruct Hm as [Hm|Hm]; [left; exact Hm|right].
    intros g Hg Hgb Hge. apply Hm.
    apply In_sort_Slice, filter_In. split; [exact Hg|]. apply W. auto.
  - intros (Hin & Hb & He & Hm). split; [auto|].
    destruct Hm as [Hm|Hm]; [left; exact Hm|right].
    intros g Hg. apply (proj1 (In_sort_Slice _ _)) in Hg.
    apply filter_In in Hg. destruct Hg as [Hg Wg]. apply W in Wg.
    apply Hm; tauto.
Qed.

End ResolverProperties.

(** ** Lines read backward and lines read forward *)

Section TailLines.
Context `{GoLib}.

Lemma fileLines_nonempty s : s <> [] -> fileLines s <> [].
Proof.
  induction s as [|c r IH]; [congruence|]. intros _. simpl.
  destruct (Ascii.eqb c LF); [discriminate|].
  destruct (Ascii.eqb c CR && startsWithLF r) eqn:E.
  - apply IH. destruct r; [|discriminate].
    simpl in E. now rewrite andb_false_r in E.
  - destruct (fileLines r); discriminate.
Qed.

Lemma Split_lf_nonempty s : Split_lf s <> [].
Proof.
  destruct s as [|c r]; simpl; [discriminate|].
  destruct (Ascii.eqb c LF); [discriminate|].
  destruct (Split_lf r); discriminate.
Qed.

Lemma terminated_cons c r :
  r <> [] -> terminated (c :: r) = terminated r.
Proof. destruct r; [congruence|reflexivity]. Qed.

(** [Split_lf] after [ReplaceAll_crlf] gives the lines, and one more
    empty string when the text is empty or ends with a line feed. *)
Lemma Split_Replace_lines s :
  Split_lf (ReplaceAll_crlf s)
  = fileLines s ++ (if terminated s then [[]] else []).
Proof.
  induction s as [|c r IH]; [reflexivity|].
  cbn [ReplaceAll_crlf fileLines].
  destruct r as [|d r'].
  - simpl. rewrite andb_false_r. destruct (Ascii.eqb c LF); reflexivity.
  - rewrite terminated_cons by discriminate.
    destruct (Ascii.eqb_spec c LF) as [->|Hc].
    + change (Ascii.eqb LF CR) with false. cbn [andb Split_lf].
      rewrite Ascii.eqb_refl, IH. reflexivity.
    + cbn [startsWithLF].
      destruct (Ascii.eqb c CR && Ascii.eqb d LF) eqn:E.
      * apply andb_true_iff in E as [_ E]. apply Ascii.eqb_eq in E. subst d.
        rewrite <- IH. cbn [ReplaceAll_crlf].
        destruct r'; reflexivity.
      * cbn [Split_lf]. rewrite (proj2 (Ascii.eqb_neq _ _) Hc), IH.
        pose proof (fileLines_nonempty (d :: r') ltac:(discriminate)) as N.
        destruct (fileLines (d :: r')); [congruence|reflexivity].
Qed.

Lemma last_cons_first (c : ascii) (l : bytes) ls d :
  last ((c :: l) :: ls) d <> [] <-> (ls = [] \/ last (l :: ls) d <> []).
Proof.
  destruct ls as [|l' ls]; simpl.
  - split; [auto|discriminate].
  - split; [auto|]. intros [?|?]; [discriminate|assumption].
Qed.

Lemma fileLines_last_open s :
  terminated s = false -> last (fileLines s) [NUL] <> [].
Proof.
  induction s as [|c r IH]; [discriminate|].
  destruct r as [|d r'].
  - cbn [terminated fileLines startsWithLF]. intros ->.
    rewrite andb_false_r. simpl. discriminate.
  - rewrite terminated_cons by discriminate. intros T. specialize (IH T).
    pose proof (fileLines_nonempty (d :: r') ltac:(discriminate)) as N.
    remember (d :: r') as rr eqn:Er. clear Er.
    cbn [fileLines].
    destruct (Ascii.eqb c LF).
    + destruct (fileLines rr); [congruence|exact IH].
    + destruct (Ascii.eqb c CR && startsWithLF rr); [exact IH|].
      destruct (fileLines rr) as [|l ls]; [congruence|].
      apply last_cons_first. destruct ls; [now left|now right].
Qed.

Lemma dropTrailingEmpty_snoc (l : list bytes) :
  dropTrailingEmpty (l ++ [[]]) = l.
Proof.
  unfold dropTrailingEmpty. rewrite rev_app_distr. simpl. apply rev_involutive.
Qed.

Lemma dropTrailingEmpty_open (l : list bytes) :
  last l [NUL] <> [] -> dropTrailingEmpty l = l.
Proof.
  intros N. unfold dropTrailingEmpty.
  destruct (rev l) as [|[|c x] r] eqn:E; try reflexivity.
  exfalso. apply N.
  rewrite <- (rev_involutive l), E. simpl. apply last_last.
Qed.

(** What [readLastLines] makes of its final string, without the
    trailing empty string, is the lines of that string. *)
Lemma dropTrailingEmpty_Split s :
  dropTrailingEmpty (Split_lf (ReplaceAll_crlf s)) = fileLines s.
Proof.
  rewrite Split_Replace_lines. destruct (terminated s) eqn:T.
  - apply dropTrailingEmpty_snoc.
  - rewrite app_nil_r. now apply dropTrailingEmpty_open, fileLines_last_open.
Qed.

Lemma break_lf_some s : forall l rest,
  break_lf s = (l, Some rest) -> s = l ++ LF :: rest /\ ~ In LF l.
Proof.
  induction s as [|c r IH]; intros l rest; simpl; [discriminate|].
  destruct (Ascii.eqb_spec c LF) as [->|Hc].
  - intros E. injection E as <- <-. auto.
  - destruct (break_lf r) as [a b]. intros E. injection E as <- ->.
    destruct (IH a rest eq_refl) as [-> N]. split; [reflexivity|].
    intros [?|?]; [congruence|auto].
Qed.

Lemma break_lf_none s : forall l,
  break_lf s = (l, None) -> l = s /\ ~ In LF s.
Proof.
  induction s as [|c r IH]; intros l; simpl.
  - intros E. injection E as <-. auto.
  - destruct (Ascii.eqb_spec c LF) as [->|Hc]; [discriminate|].
    destruct (break_lf r) as [a b]. intros E. injection E as <- ->.
    destruct (IH a eq_refl) as [-> N]. split; [reflexivity|].
    intros [?|?]; [congruence|auto].
Qed.

Lemma break_lf_app l rest :
  ~ In LF l -> break_lf (l ++ LF :: rest) = (l, Some rest).
Proof.
  induction l as [|c l IH]; simpl; intros N.
  - reflexivity.
  - destruct (Ascii.eqb_spec c LF) as [->|Hc]; [tauto|].
    rewrite IH by tauto. reflexivity.
Qed.

Lemma break_lf_nolf s : ~ In LF s -> break_lf s = (s, None).
Proof.
  induction s as [|c l IH]; simpl; intros N; [reflexivity|].
  destruct (Ascii.eqb_spec c LF) as [->|Hc]; [tauto|].
  rewrite IH by tauto. reflexivity.
Qed.

Lemma ends_with_cr_cons c l : l <> [] -> ends_with_cr (c :: l) = ends_with_cr l.
Proof.
  intros N. unfold ends_with_cr. simpl.
  destruct (rev l) eqn:E; [|reflexivity].
  apply (f_equal (@rev ascii)) in E. rewrite rev_involutive in E. contradiction.
Qed.

Lemma drop_cr_cons c l : l <> [] -> drop_cr (c :: l) = c :: drop_cr l.
Proof.
  intros N. unfold drop_cr. rewrite ends_with_cr_cons by assumption.
  destruct (ends_with_cr l); [|reflexivity].
  destruct l; [congruence|reflexivity].
Qed.

Lemma drop_cr_app u v : v <> [] -> drop_cr (u ++ v) = u ++ drop_cr v.
Proof.
  intros N. induction u as [|c u IH]; [reflexivity|].
  simpl. rewrite drop_cr_cons, IH; [reflexivity|].
  destruct u; simpl; [assumption|discriminate].
Qed.

Lemma drop_cr_open l : ends_with_cr l = false -> drop_cr l = l.
Proof. intros E. unfold drop_cr. now rewrite E. Qed.

Lemma startsWithLF_nolf s : ~ In LF s -> startsWithLF s = false.
Proof.
  destruct s as [|c r]; [reflexivity|]. simpl. intros N.
  destruct (Ascii.eqb_spec c LF); [tauto|reflexivity].
Qed.

Lemma fileLines_break s : forall l rest,
  break_lf s = (l, Some rest) -> fileLines s = drop_cr l :: fileLines rest.
Proof.
  induction s as [|c r IH]; intros l rest; [discriminate|].
  cbn [break_lf fileLines].
  destruct (Ascii.eqb_spec c LF) as [->|Hc].
  - intros E. injection E as <- <-. reflexivity.
  - destruct (break_lf r) as [a b] eqn:B. intros E. injection E as <- ->.
    rewrite (IH a rest eq_refl).
    destruct a as [|d a].
    + apply break_lf_some in B. destruct B as [-> _]. simpl.
      rewrite andb_true_r. unfold drop_cr, ends_with_cr. simpl.
      destruct (Ascii.eqb c CR); reflexivity.
    + apply break_lf_some in B. destruct B as [-> N]. simpl.
      replace (Ascii.eqb d LF) with false
        by (symmetry; apply Ascii.eqb_neq; intros ->; apply N; now left).
      rewrite andb_false_r, (drop_cr_cons c (d :: a)) by discriminate.
      reflexivity.
Qed.

Lemma fileLines_nolf s : ~ In LF s -> s <> [] -> fileLines s = [s].
Proof.
  induction s as [|c r IH]; intros N E; [congruence|]. clear E.
  cbn [fileLines].
  destruct (Ascii.eqb_spec c LF) as [->|Hc]; [exfalso; apply N; now left|].
  rewrite startsWithLF_nolf, andb_false_r by (intros ?; apply N; now right).
  destruct r as [|d r]; [reflexivity|].
  rewrite IH; [reflexivity| |discriminate].
  intros ?; apply N; now right.
Qed.

Lemma startsWithLF_app x y :
  startsWithLF (x ++ LF :: y) = startsWithLF (x ++ [LF]).
Proof. destruct x; reflexivity. Qed.

(** The lines after a line feed are the last lines of the whole. *)
Lemma fileLines_app_LF x y :
  fileLines (x ++ LF :: y) = fileLines (x ++ [LF]) ++ fileLines y.
Proof.
  induction x as [|a x IH]; [reflexivity|].
  cbn [app fileLines]. rewrite startsWithLF_app, IH.
  destruct (Ascii.eqb a LF); [reflexivity|].
  destruct (Ascii.eqb a CR && startsWithLF (x ++ [LF])); [reflexivity|].
  pose proof (fileLines_nonempty (x ++ [LF])) as N.
  destruct (fileLines (x ++ [LF])).
  - exfalso. apply N; [|reflexivity]. destruct x; discriminate.
  - reflexivity.
Qed.

(** A carriage return that is not followed by a line feed stays in
    the line it is read into. *)
Lemma fileLines_lone_cr x c y :
  c <> LF ->
  exists line, In line (fileLines (x ++ CR :: c :: y)) /\ In CR line.
Proof.
  intros Hc. induction x as [|a x (line & L1 & L2)].
  - assert (S : startsWithLF (c :: y) = false)
      by (simpl; now apply Ascii.eqb_neq).
    remember (c :: y) as t eqn:Et. clear Et.
    cbn [app fileLines]. change (Ascii.eqb CR LF) with false.
    rewrite S, andb_false_r.
    destruct (fileLines t) as [|l ls].
    + exists [CR]. simpl. auto.
    + exists (CR :: l). simpl. auto.
  - cbn [app]. remember (x ++ CR :: c :: y) as t eqn:Et. clear Et.
    cbn [fileLines].
    destruct (Ascii.eqb a LF); [exists line; simpl; auto|].
    destruct (Ascii.eqb a CR && startsWithLF t); [exists line; auto|].
    destruct (fileLines t) as [|l ls]; [destruct L1|].
    destruct L1 as [->|L1].
    + exists (a :: line). simpl. auto.
    + exists line. simpl. auto.
Qed.

(** *** [readLine] delivers the lines *)

Lemma bufSize_ge : (2 <= defaultBufSize)%nat.
Proof. unfold defaultBufSize. lia. Qed.

Opaque defaultBufSize.

Lemma ReadLine_short l rest e :
  ~ In LF l -> (List.length l < defaultBufSize)%nat ->
  ReadLine (mkReader (l ++ LF :: rest) e)
  = ((drop_cr l, false, None), mkReader rest e).
Proof.
  intros N L. unfold ReadLine. cbn [r_src r_err].
  rewrite firstn_app.
  rewrite (firstn_all2 (n := defaultBufSize) l) by lia.
  destruct (defaultBufSize - List.length l)%nat as [|k] eqn:K; [lia|].
  cbn [firstn]. rewrite break_lf_app by assumption.
  f_equal. f_equal.
  replace (S (List.length l)) with (List.length l + 1)%nat by lia.
  rewrite skipn_app, skipn_all2 by lia.
  replace (List.length l + 1 - List.length l)%nat with 1%nat by lia.
  reflexivity.
Qed.

Lemma ReadLine_full u v e :
  ~ In LF u -> List.length u = defaultBufSize ->
  ReadLine (mkReader (u ++ v) e)
  = if ends_with_cr u
    then ((removelast u, true, None),
          mkReader (skipn (defaultBufSize - 1) (u ++ v)) e)
    else ((u, true, None), mkReader v e).
Proof.
  intros N L. unfold ReadLine. cbn [r_src r_err].
  rewrite firstn_app, L, Nat.sub_diag, firstn_O, app_nil_r.
  rewrite <- L, firstn_all, break_lf_nolf by assumption.
  rewrite Nat.ltb_irrefl.
  destruct (ends_with_cr u); [reflexivity|].
  rewrite skipn_app, skipn_all, Nat.sub_diag. reflexivity.
Qed.

Lemma ReadLine_tail s e :
  ~ In LF s -> (List.length s < defaultBufSize)%nat ->
  ReadLine (mkReader s e)
  = match s with
    | [] => (([], false, Some (src_err (mkReader s e))), mkReader s e)
    | _ => ((s, false, None), mkReader [] e)
    end.
Proof.
  intros N L. unfold ReadLine. cbn [r_src r_err].
  rewrite firstn_all2 by lia. rewrite break_lf_nolf by assumption.
  apply Nat.ltb_lt in L. rewrite L. reflexivity.
Qed.

Lemma In_firstn_skipn {A} (x : A) n l :
  In x (firstn n l) \/ In x (skipn n l) -> In x l.
Proof.
  intros K. rewrite <- (firstn_skipn n l). apply in_or_app. exact K.
Qed.

Lemma readLine_loop_lf fuel :
  forall acc l rest e,
    ~ In LF l -> (List.length l < fuel)%nat ->
    readLine_loop fuel acc (mkReader (l ++ LF :: rest) e)
    = ((acc ++ drop_cr l, None), mkReader rest e).
Proof.
  pose proof bufSize_ge as B.
  induction fuel as [|fuel IH]; intros acc l rest e N L; [lia|].
  cbn [readLine_loop].
  destruct (Nat.lt_ge_cases (List.length l) defaultBufSize) as [Hs|Hs].
  { rewrite ReadLine_short by assumption. reflexivity. }
  rewrite <- (firstn_skipn defaultBufSize l) at 1.
  rewrite <- app_assoc.
  assert (Lu : List.length (firstn defaultBufSize l) = defaultBufSize)
    by (rewrite length_firstn; lia).
  assert (Nu : ~ In LF (firstn defaultBufSize l))
    by (intros K; apply N; eapply In_firstn_skipn; left; exact K).
  rewrite ReadLine_full by assumption.
  destruct (ends_with_cr (firstn defaultBufSize l)) eqn:E.
  - rewrite app_assoc, firstn_skipn.
    replace (skipn (defaultBufSize - 1) (l ++ LF :: rest))
      with (skipn (defaultBufSize - 1) l ++ LF :: rest).
    2:{ rewrite skipn_app.
        replace (defaultBufSize - 1 - List.length l)%nat with 0%nat by lia.
        reflexivity. }
    assert (X : removelast (firstn defaultBufSize l)
                ++ drop_cr (skipn (defaultBufSize - 1) l) = drop_cr l).
    { replace (removelast (firstn defaultBufSize l))
        with (firstn (defaultBufSize - 1) l).
      2:{ replace defaultBufSize with (S (defaultBufSize - 1)) at 2 by lia.
          rewrite removelast_firstn by lia. reflexivity. }
      rewrite <- drop_cr_app, firstn_skipn; [reflexivity|].
      intros K. apply (f_equal (@List.length ascii)) in K.
      rewrite length_skipn in K. simpl in K. lia. }
    rewrite IH.
    + rewrite <- app_assoc, X. reflexivity.
    + intros K. apply N. eapply In_firstn_skipn. right. exact K.
    + rewrite length_skipn. lia.
  - assert (X : firstn defaultBufSize l ++ drop_cr (skipn defaultBufSize l)
                = drop_cr l).
    { destruct (skipn defaultBufSize l) as [|c t] eqn:K.
      - rewrite <- (firstn_skipn defaultBufSize l) at 2.
        rewrite K. unfold drop_cr at 1. simpl. rewrite !app_nil_r.
        symmetry. now apply drop_cr_open.
      - rewrite <- drop_cr_app by discriminate.
        rewrite <- K, firstn_skipn. reflexivity. }
    rewrite IH.
    + rewrite <- app_assoc, X. reflexivity.
    + intros K. apply N. eapply In_firstn_skipn. right. exact K.
    + rewrite length_skipn. lia.
Qed.

Lemma readLine_lf l rest e :
  ~ In LF l ->
  readLine (mkReader (l ++ LF :: rest) e)
  = ((drop_cr l, None), mkReader rest e).
Proof.
  intros N. unfold readLine. cbn [r_src].
  rewrite readLine_loop_lf; [reflexivity|assumption|].
  rewrite length_app. simpl. lia.
Qed.

Lemma readLine_tail s e :
  ~ In LF s -> (List.length s < defaultBufSize)%nat ->
  readLine (mkReader s e)
  = match s with
    | [] => (([], Some (src_err (mkReader s e))), mkReader s e)
    | _ => ((s, None), mkReader [] e)
    end.
Proof.
  intros N L. unfold readLine. cbn [r_src readLine_loop].
  rewrite ReadLine_tail by assumption.
  destruct s; reflexivity.
Qed.

Lemma Split_lf_break s : forall l rest,
  break_lf s = (l, Some rest) -> Split_lf s = l :: Split_lf rest.
Proof.
  induction s as [|c r IH]; intros l rest; simpl; [discriminate|].
  destruct (Ascii.eqb c LF).
  - intros E. injection E as <- <-. reflexivity.
  - destruct (break_lf r) as [a b]. intros E. injection E as <- ->.
    rewrite (IH a rest eq_refl). reflexivity.
Qed.

Lemma Split_lf_nolf s : ~ In LF s -> Split_lf s = [s].
Proof.
  induction s as [|c r IH]; intros N; simpl; [reflexivity|].
  destruct (Ascii.eqb_spec c LF) as [->|Hc]; [exfalso; apply N; now left|].
  rewrite IH; [reflexivity|]. intros ?; apply N; now right.
Qed.

Lemma unterminatedTail_break s l rest :
  break_lf s = (l, Some rest) -> unterminatedTail s = unterminatedTail rest.
Proof.
  intros B. unfold unterminatedTail. rewrite (Split_lf_break _ _ _ B).
  pose proof (Split_lf_nonempty rest). destruct (Split_lf rest); [congruence|].
  reflexivity.
Qed.

(** Forward reading delivers the lines of the data when the bytes
    after the last line feed fit in the buffer of the reader. *)
Lemma readAllLines_loop_lines fuel :
  forall s,
    (List.length (unterminatedTail s) < defaultBufSize)%nat ->
    (List.length s < fuel)%nat ->
    readAllLines_loop fuel (mkReader s None) = fileLines s.
Proof.
  induction fuel as [|fuel IH]; intros s T L; [lia|].
  cbn [readAllLines_loop].
  destruct (break_lf s) as [l [rest|]] eqn:B.
  - pose proof (fileLines_break _ _ _ B) as F.
    pose proof (unterminatedTail_break _ _ _ B) as U.
    apply break_lf_some in B. destruct B as [-> N].
    rewrite readLine_lf by assumption. rewrite F. f_equal.
    apply IH; [now rewrite <- U|].
    rewrite length_app in L. simpl in L. lia.
  - apply break_lf_none in B. destruct B as [-> N].
    unfold unterminatedTail in T. rewrite Split_lf_nolf in T by assumption.
    simpl in T. rewrite readLine_tail by assumption.
    destruct s as [|c s]; [reflexivity|].
    rewrite fileLines_nolf by (assumption || discriminate). f_equal.
    destruct fuel; [reflexivity|]. cbn [readAllLines_loop].
    rewrite readLine_tail; [reflexivity|auto|pose proof bufSize_ge; simpl; lia].
Qed.

Lemma readAllLines_lines data :
  (List.length (unterminatedTail data) < defaultBufSize)%nat ->
  readAllLines data = fileLines data.
Proof.
  intros T. unfold readAllLines. apply readAllLines_loop_lines; [assumption|lia].
Qed.

(** *** The scan without I/O faults *)

Lemma file_Seek_ok f off :
  f_faults f = [] -> 0 <= off ->
  file_Seek f off
  = (mkFile (f_id f) (f_data f) (f_gunzip f) off []
       (f_ops f ++ [OpSeek off true]), None).
Proof.
  intros F O. unfold file_Seek, next_fault. rewrite F.
  replace (off <? 0) with false by (symmetry; apply Z.ltb_ge; lia).
  reflexivity.
Qed.

Lemma file_Read_ok f n :
  f_faults f = [] -> 0 < n -> 0 <= f_off f ->
  f_off f + n <= len (f_data f) ->
  file_Read f n
  = (mkFile (f_id f) (f_data f) (f_gunzip f) (f_off f + n) []
       (f_ops f ++ [OpRead n true]),
     firstn (Z.to_nat n) (skipn (Z.to_nat (f_off f)) (f_data f)), None).
Proof.
  intros F N O L. unfold file_Read, next_fault. rewrite F.
  replace (n <=? 0) with false by (symmetry; apply Z.leb_gt; lia).
  assert (A : List.length
                (firstn (Z.to_nat n) (skipn (Z.to_nat (f_off f)) (f_data f)))
              = Z.to_nat n).
  { rewrite length_firstn, length_skipn. unfold len in L. lia. }
  destruct (firstn (Z.to_nat n) (skipn (Z.to_nat (f_off f)) (f_data f)))
    as [|c t] eqn:E.
  { simpl in A. lia. }
  cbv zeta. rewrite A, Nat.sub_diag. simpl repeat. rewrite app_nil_r.
  unfold len. rewrite A. do 3 f_equal. lia.
Qed.

Lemma scanBoundary_step i c d r linesLen pos :
  scanBoundary i (c :: d :: r) linesLen pos
  = if i >=? linesLen - 1 then pos
    else if isNewline c && negb (isNewline d) then i + 1
    else scanBoundary (i + 1) (d :: r) linesLen pos.
Proof. reflexivity. Qed.

Lemma scanBoundary_spec chars : forall i linesLen,
  0 <= i ->
  scanBoundary i chars linesLen 0 = 0
  \/ exists pre a b post,
       chars = pre ++ a :: b :: post
       /\ scanBoundary i chars linesLen 0 = i + len pre + 1
       /\ isNewline a = true /\ isNewline b = false.
Proof.
  induction chars as [|c r IH]; intros i linesLen Hi; [now left|].
  destruct r as [|d r']; [now left|].
  rewrite scanBoundary_step.
  destruct (i >=? linesLen - 1); [now left|].
  destruct (isNewline c) eqn:Nc; cbn [andb].
  - destruct (isNewline d) eqn:Nd; cbn [negb].
    + destruct (IH (i + 1) linesLen) as [E|(pre & a & b & post & E1 & E2 & E3)];
        [lia|now left|].
      right. exists (c :: pre), a, b, post.
      split; [now rewrite E1|]. split; [|assumption].
      rewrite E2. unfold len. simpl List.length. lia.
    + right. exists [], c, d, r'.
      repeat split; auto. unfold len. simpl. lia.
  - destruct (IH (i + 1) linesLen) as [E|(pre & a & b & post & E1 & E2 & E3)];
      [lia|now left|].
    right. exists (c :: pre), a, b, post.
    split; [now rewrite E1|]. split; [|assumption].
    rewrite E2. unfold len. simpl List.length. lia.
Qed.

Lemma next_size_bounds size cursor :
  1 <= size -> 0 < cursor ->
  1 <= (if cursor <? (if size * 2 >? maxReadCacheSize
                      then maxReadCacheSize else size * 2)
        then cursor
        else (if size * 2 >? maxReadCacheSize
              then maxReadCacheSize else size * 2)) <= cursor.
Proof.
  intros S C. unfold maxReadCacheSize.
  destruct (Z.gtb_spec (size * 2) (1024 * 1024 * 16));
    match goal with |- _ <= (if ?a <? ?b then _ else _) <= _ =>
      destruct (Z.ltb_spec a b) end; lia.
Qed.

(** Without faults and without cancellation the loop ends with the
    bytes from some offset on, the offset being 0 or just after a line
    break that a byte other than a line break follows. *)
Lemma readLastLines_loop_scan data ctx :
  isCtxDone ctx = false ->
  forall fuel file lines cursor size,
    f_data file = data -> f_faults file = [] ->
    0 <= cursor <= len data ->
    lines = skipn (Z.to_nat cursor) data ->
    1 <= size -> (Z.to_nat cursor <= fuel)%nat ->
    exists file' lines' p,
      readLastLines_loop fuel ctx file lines 0 cursor size
      = (file', ScanDone lines' p)
      /\ ((p = 0 /\ lines' = data)
          \/ exists x a b y,
               data = x ++ a :: b :: y
               /\ isNewline a = true /\ isNewline b = false
               /\ slice_from p lines' = b :: y).
Proof.
  intros Hc. induction fuel as [|fuel IH];
    intros file lines cursor size Hd Hf Hb Hl Hs Hfuel;
    cbn [readLastLines_loop].
  { exists file, lines, 0. split; [reflexivity|]. left. split; [reflexivity|].
    subst lines. replace (Z.to_nat cursor) with 0%nat by lia. reflexivity. }
  destruct (Z.leb_spec cursor 0) as [Hle|Hgt].
  { exists file, lines, 0. split; [reflexivity|]. left. split; [reflexivity|].
    subst lines. replace (Z.to_nat cursor) with 0%nat by lia. reflexivity. }
  pose proof (next_size_bounds size cursor Hs Hgt) as Hsz.
  match goal with
  | |- context [file_Seek file (cursor - ?e)] => remember e as sz eqn:Esz
  end.
  clear Esz.
  rewrite file_Seek_ok by (assumption || lia). cbv iota beta.
  rewrite file_Read_ok; cbn [f_faults f_off f_data];
    try (assumption || reflexivity || lia).
  2:{ rewrite Hd. lia. }
  cbv iota beta. cbn [f_faults f_off f_data f_id f_gunzip f_ops].
  rewrite Hd.
  set (chars := firstn (Z.to_nat sz) (skipn (Z.to_nat (cursor - sz)) data)).
  assert (L' : chars ++ lines = skipn (Z.to_nat (cursor - sz)) data).
  { subst chars lines.
    replace (Z.to_nat cursor) with (Z.to_nat sz + Z.to_nat (cursor - sz))%nat
      by lia.
    rewrite <- skipn_skipn. apply firstn_skipn. }
  destruct (scanBoundary_spec chars 0 (len (chars ++ lines)))
    as [E|(pre & a & b & post & E1 & E2 & Na & Nb)]; [lia| |].
  - rewrite E. cbn [Z.gtb Z.compare]. rewrite Hc.
    apply IH; cbn [f_data f_faults]; try (assumption || reflexivity || lia).
  - rewrite E2.
    replace (0 + len pre + 1 >? 0) with true
      by (symmetry; apply Z.gtb_lt; unfold len; lia).
    eexists _, _, _. split; [reflexivity|]. right.
    exists (firstn (Z.to_nat (cursor - sz)) data ++ pre), a, b, (post ++ lines).
    split; [|split; [assumption|split; [assumption|]]].
    + rewrite <- app_assoc.
      change (pre ++ a :: b :: post ++ lines)
        with (pre ++ (a :: b :: post) ++ lines).
      rewrite (app_assoc pre), <- E1, L'. symmetry. apply firstn_skipn.
    + unfold slice_from. rewrite E1, <- app_assoc.
      change ((a :: b :: post) ++ lines) with ([a] ++ b :: post ++ lines).
      rewrite app_assoc. apply skipn_length_app.
      rewrite length_app. unfold len. simpl. lia.
Qed.

Lemma lastn_app {A} (pre l : list A) : lastn (List.length l) (pre ++ l) = l.
Proof.
  unfold lastn. apply skipn_length_app. rewrite length_app. lia.
Qed.

Lemma lastn_map {A B} (f : A -> B) n l : lastn n (map f l) = map f (lastn n l).
Proof. unfold lastn. now rewrite length_map, skipn_map. Qed.

Lemma lastn_all {A} (l : list A) : lastn (List.length l) l = l.
Proof. unfold lastn. now rewrite Nat.sub_diag. Qed.

Lemma ends_with_cr_absent l : ~ In CR l -> ends_with_cr l = false.
Proof.
  intros N. unfold ends_with_cr. destruct (rev l) as [|c r] eqn:E; [reflexivity|].
  apply Ascii.eqb_neq. intros ->. apply N. apply in_rev. rewrite E. now left.
Qed.

(** *** Forward reading of the bytes after the last line feed *)

Lemma ReadLine_nolf_cases s e :
  ~ In LF s ->
  (exists b err, ReadLine (mkReader s e) = ((b, false, Some err), mkReader s e))
  \/ (exists b, ReadLine (mkReader s e) = ((b, false, None), mkReader [] e))
  \/ (exists b k,
        ReadLine (mkReader s e) = ((b, true, None), mkReader (skipn k s) e)).
Proof.
  intros N.
  destruct (Nat.lt_ge_cases (List.length s) defaultBufSize) as [Hs|Hs].
  - rewrite ReadLine_tail by assumption.
    destruct s; [left|right; left]; eauto.
  - right. right.
    pose proof (ReadLine_full (firstn defaultBufSize s) (skipn defaultBufSize s) e)
      as R.
    rewrite (firstn_skipn defaultBufSize s) in R.
    rewrite R.
    + destruct (ends_with_cr _); eauto.
    + intros K. apply N. eapply In_firstn_skipn. left. exact K.
    + rewrite length_firstn. lia.
Qed.

(** On a source without line feed, a line that [readLine] returns
    leaves nothing of the source. *)
Lemma readLine_loop_nolf_exhausts fuel :
  forall acc s e line r',
    ~ In LF s ->
    readLine_loop fuel acc (mkReader s e) = ((line, None), r') ->
    r' = mkReader [] e.
Proof.
  induction fuel as [|fuel IH]; intros acc s e line r' N; cbn [readLine_loop];
    [discriminate|].
  destruct (ReadLine_nolf_cases s e N)
    as [(b & err & ->)|[(b & ->)|(b & k & ->)]].
  - discriminate.
  - intros E. now injection E.
  - apply IH. intros K. apply N. eapply In_firstn_skipn. right. exact K.
Qed.

Lemma unterminatedTail_nolf s : ~ In LF s -> unterminatedTail s = s.
Proof. intros N. unfold unterminatedTail. now rewrite Split_lf_nolf. Qed.

Lemma tailDelivered_break s l rest :
  break_lf s = (l, Some rest) -> tailDelivered s -> tailDelivered rest.
Proof.
  intros B. unfold tailDelivered.
  now rewrite (unterminatedTail_break _ _ _ B).
Qed.

(** Forward reading delivers the lines of the data when it delivers
    the bytes after the last line feed. *)
Lemma readAllLines_loop_delivered fuel :
  forall s,
    tailDelivered s -> (List.length s < fuel)%nat ->
    readAllLines_loop fuel (mkReader s None) = fileLines s.
Proof.
  induction fuel as [|fuel IH]; intros s T L; [lia|].
  cbn [readAllLines_loop].
  destruct (break_lf s) as [l [rest|]] eqn:B.
  - pose proof (fileLines_break _ _ _ B) as F.
    pose proof (tailDelivered_break _ _ _ B T) as T'.
    apply break_lf_some in B. destruct B as [-> N].
    rewrite readLine_lf by assumption. rewrite F. f_equal.
    apply IH; [assumption|].
    rewrite length_app in L. simpl in L. lia.
  - apply break_lf_none in B. destruct B as [-> N].
    unfold tailDelivered in T. rewrite unterminatedTail_nolf in T by assumption.
    assert (Z0 : readAllLines_loop fuel (mkReader [] None) = []).
    { destruct fuel; [reflexivity|]. cbn [readAllLines_loop].
      rewrite readLine_tail; [reflexivity|auto|pose proof bufSize_ge; simpl; lia]. }
    destruct s as [|c s].
    { rewrite readLine_tail; [reflexivity|auto|pose proof bufSize_ge; simpl; lia]. }
    destruct T as [T|T]; [discriminate|].
    destruct (readLine (mkReader (c :: s) None)) as [[line err] r'] eqn:R.
    cbn [fst] in T. injection T as -> ->.
    unfold readLine in R. apply readLine_loop_nolf_exhausts in R; [|assumption].
    subst r'. rewrite Z0.
    rewrite fileLines_nolf by (assumption || discriminate). reflexivity.
Qed.

Lemma readAllLines_delivered data :
  tailDelivered data -> readAllLines data = fileLines data.
Proof.
  intros T. unfold readAllLines. apply readAllLines_loop_delivered; [assumption|lia].
Qed.

(** A line without line feed and without carriage return whose length
    is no multiple of the buffer is read whole. *)
Lemma readLine_loop_pieces k : forall fuel acc s e,
  ~ In LF s -> ~ In CR s ->
  (k * defaultBufSize < List.length s < S k * defaultBufSize)%nat ->
  (k < fuel)%nat ->
  readLine_loop fuel acc (mkReader s e) = ((acc ++ s, None), mkReader [] e).
Proof.
  pose proof bufSize_ge as B.
  induction k as [|k IH]; intros fuel acc s e NL NC L F;
    (destruct fuel as [|fuel]; [lia|]); cbn [readLine_loop].
  - rewrite ReadLine_tail by (assumption || lia).
    destruct s; [simpl in L; lia|reflexivity].
  - rewrite <- (firstn_skipn defaultBufSize s) at 1.
    assert (Lu : List.length (firstn defaultBufSize s) = defaultBufSize)
      by (rewrite length_firstn; lia).
    rewrite ReadLine_full;
      [|intros K; apply NL; eapply In_firstn_skipn; left; exact K|exact Lu].
    rewrite ends_with_cr_absent
      by (intros K; apply NC; eapply In_firstn_skipn; left; exact K).
    rewrite IH.
    + now rewrite <- app_assoc, firstn_skipn.
    + intros K; apply NL; eapply In_firstn_skipn; right; exact K.
    + intros K; apply NC; eapply In_firstn_skipn; right; exact K.
    + rewrite length_skipn. lia.
    + lia.
Qed.

Lemma tailDelivered_by_length data :
  ~ In CR (unterminatedTail data) ->
  unterminatedTail data = []
  \/ (List.length (unterminatedTail data) mod defaultBufSize <> 0)%nat ->
  tailDelivered data.
Proof.
  intros NC [E|M]; [now left|right].
  pose proof bufSize_ge as B.
  assert (NL : ~ In LF (unterminatedTail data)).
  { unfold unterminatedTail. clear.
    induction data as [|c r IH]; [simpl; tauto|].
    cbn [Split_lf]. destruct (Ascii.eqb_spec c LF) as [->|Hc].
    - pose proof (Split_lf_nonempty r) as Ne.
      destruct (Split_lf r); [congruence|exact IH].
    - pose proof (Split_lf_nonempty r) as Ne.
      destruct (Split_lf r) as [|l ls]; [congruence|].
      destruct ls as [|l' ls]; [|exact IH].
      simpl in *. intros [K|K]; [congruence|tauto]. }
  set (t := unterminatedTail data) in *.
  pose proof (Nat.div_mod_eq (List.length t) defaultBufSize) as D.
  pose proof (Nat.mod_upper_bound (List.length t) defaultBufSize ltac:(lia)) as U.
  unfold readLine. cbn [r_src].
  rewrite (readLine_loop_pieces (List.length t / defaultBufSize));
    try assumption; [reflexivity|nia|].
  assert (List.length t / defaultBufSize <= List.length t)%nat; [|lia].
  apply Nat.Div0.div_le_upper_bound. nia.
Qed.

Lemma app_same_length_tail {A} (x x' s s' : list A) :
  x ++ s = x' ++ s' -> List.length s = List.length s' -> x = x' /\ s = s'.
Proof.
  revert x'. induction x as [|a x IH]; intros [|a' x'] E L; simpl in E.
  - auto.
  - exfalso. subst s. simpl in L. rewrite length_app in L. lia.
  - exfalso. subst s'. simpl in L. rewrite length_app in L. lia.
  - injection E as -> E. destruct (IH x' E L) as [-> ->]. auto.
Qed.

(** C6, as the code has it.  For a file read without fault of [Seek]
    or [Read] and with a context that is not cancelled: when the bytes
    that [readLastLines] takes from the file size down come just after a
    line feed, or are the whole file, and [readLine] delivers the bytes
    after the last line feed, the lines returned, once the empty string
    after the final line feed is dropped, are the last lines of forward
    reading in the same order, so that parsing them gives the last
    entries of parsing the whole file, and there is at least one for a
    file that is not empty.  The first condition holds when no carriage
    return of the file is followed by a byte other than a line feed or a
    carriage return; the second when the bytes after the last line feed
    hold no carriage return and their number is no positive multiple of
    the 4096 bytes of the reader's buffer. *)
Theorem readLastLines_final_lines :
  (forall ctx file lines n err,
     isCtxDone ctx = false -> f_faults file = [] ->
     snd (readLastLines ctx file (file_Size file)) = (lines, n, err) ->
     stopsAtLineFeed (f_data file) n -> tailDelivered (f_data file) ->
     err = None
     /\ dropTrailingEmpty lines
        = lastn (List.length (dropTrailingEmpty lines))
            (readAllLines (f_data file))
     /\ map parseLogItem (dropTrailingEmpty lines)
        = lastn (List.length (dropTrailingEmpty lines))
            (map parseLogItem (readAllLines (f_data file)))
     /\ (f_data file <> [] -> dropTrailingEmpty lines <> []))
  /\ (forall ctx file lines n err,
        isCtxDone ctx = false -> f_faults file = [] ->
        snd (readLastLines ctx file (file_Size file)) = (lines, n, err) ->
        noLoneCR (f_data file) -> stopsAtLineFeed (f_data file) n)
  /\ (forall data,
        ~ In CR (unterminatedTail data) ->
        unterminatedTail data = []
        \/ (List.length (unterminatedTail data) mod defaultBufSize <> 0)%nat ->
        tailDelivered data).
Proof.
  assert (Scan : forall ctx file,
            isCtxDone ctx = false -> f_faults file = [] ->
            exists s,
              snd (readLastLines ctx file (file_Size file))
              = (Split_lf (ReplaceAll_crlf s), len s, None)
              /\ (s = f_data file
                  \/ exists x a b y,
                       f_data file = x ++ a :: b :: y
                       /\ isNewline a = true /\ isNewline b = false
                       /\ s = b :: y)).
  { intros ctx file Hc Hf.
    destruct (readLastLines_loop_scan (f_data file) ctx Hc
                (S (Z.to_nat (file_Size file))) file [] (file_Size file) 256)
      as (file' & lines' & p & E & D);
      try (reflexivity || assumption || lia).
    { unfold file_Size, len. lia. }
    { unfold file_Size, len. rewrite Nat2Z.id, skipn_all. reflexivity. }
    unfold readLastLines. rewrite E. cbn [snd].
    exists (slice_from p lines'). split; [reflexivity|].
    destruct D as [[-> ->]|(x & a & b & y & Ed & Na & Nb & Es)].
    - left. reflexivity.
    - right. exists x, a, b, y. auto. }
  split; [|split].
  - intros ctx file lines n err Hc Hf R St Td.
    destruct (Scan ctx file Hc Hf) as (s & E & D).
    rewrite E in R. injection R as <- <- <-.
    split; [reflexivity|].
    rewrite (readAllLines_delivered _ Td).
    rewrite dropTrailingEmpty_Split.
    assert (G : fileLines s
                = lastn (List.length (fileLines s)) (fileLines (f_data file))
                /\ (f_data file <> [] -> fileLines s <> [])).
    { destruct D as [->|(x & a & b & y & Ed & Na & Nb & ->)].
      - split; [symmetry; apply lastn_all|apply fileLines_nonempty].
      - assert (Ha : a = LF).
        { destruct St as [St|(x' & y' & Ed' & Ly)].
          - exfalso. rewrite Ed in St. unfold len in St.
            rewrite length_app in St. simpl in St. lia.
          - rewrite Ed in Ed'.
            change (x ++ a :: b :: y) with (x ++ [a] ++ b :: y) in Ed'.
            change (x' ++ LF :: y') with (x' ++ [LF] ++ y') in Ed'.
            rewrite !app_assoc in Ed'.
            apply app_same_length_tail in Ed'; [|unfold len in Ly; lia].
            destruct Ed' as [Ed' _]. apply app_inj_tail in Ed'. tauto. }
        subst a. rewrite Ed, fileLines_app_LF. split.
        + symmetry. apply lastn_app.
        + intros _. apply fileLines_nonempty. discriminate. }
    destruct G as [G1 G2].
    split; [exact G1|]. split; [|exact G2].
    rewrite lastn_map. f_equal. exact G1.
  - intros ctx file lines n err Hc Hf R Hcr.
    destruct (Scan ctx file Hc Hf) as (s & E & D).
    rewrite E in R. injection R as <- <- <-.
    destruct D as [->|(x & a & b & y & Ed & Na & Nb & ->)]; [now left|].
    right. exists x, (b :: y). split; [|reflexivity].
    unfold isNewline in Na. apply orb_true_iff in Na.
    destruct Na as [Na|Na]; apply Ascii.eqb_eq in Na; subst a; [exact Ed|].
    exfalso. rewrite (Hcr x b y Ed) in Nb. discriminate.
  - exact tailDelivered_by_length.
Qed.

End TailLines.

Transparent defaultBufSize.

(** ** The window of the iterator, by the lines of the file *)

Section NextWindow.
Context `{GoLib}.









End NextWindow.

(** * Further properties of the code *)

(** ** The log-line parser *)

Section ParserProperties.
Context `{GoLib}.

Lemma IndexByte_absent c s : ~ In c s -> IndexByte c s = -1.
Proof.
  induction s as [|x r IH]; intros N; simpl; [reflexivity|].
  destruct (Ascii.eqb_spec x c) as [->|Hx]; [exfalso; apply N; now left|].
  rewrite IH by (intros ?; apply N; now right). reflexivity.
Qed.

Lemma IndexByte_first c pre rest :
  ~ In c pre -> IndexByte c (pre ++ c :: rest) = len pre.
Proof.
  induction pre as [|x r IH]; intros N; simpl.
  - now rewrite Ascii.eqb_refl.
  - destruct (Ascii.eqb_spec x c) as [->|Hx]; [exfalso; apply N; now left|].
    rewrite IH by (intros ?; apply N; now right).
    unfold len. simpl List.length.
    destruct (Z.ltb_spec (Z.of_nat (List.length r)) 0); lia.
Qed.

Ltac len_solve :=
  unfold len; repeat (rewrite length_app || simpl List.length); lia.

Lemma slice_from_app a b n : n = len a -> slice_from n (a ++ b) = b.
Proof.
  intros ->. unfold slice_from, len. rewrite Nat2Z.id.
  now apply skipn_length_app.
Qed.

Lemma slice_middle a b c lo hi :
  lo = len a -> hi = len a + len b -> slice lo hi (a ++ b ++ c) = b.
Proof.
  intros -> ->. unfold slice, len.
  rewrite Nat2Z.id, (skipn_length_app a (b ++ c)) by reflexivity.
  replace (Z.to_nat _) with (List.length b + 0)%nat by lia.
  rewrite firstn_app_2. simpl. apply app_nil_r.
Qed.

(** X1.  A line made of a bracketed timestamp that [time.Parse] accepts
    and a bracketed level, with no other bracket before either, parses:
    the time is the instant in milliseconds, the level is that of the
    second token ([LogLevel_UNKNOWN] for an unknown name, never an error)
    and the message is the trimmed rest of the line. *)
Theorem parseLogItem_wellformed :
  forall pre ts mid lvl rest t,
    ~ In "["%char pre -> ~ In "]"%char pre -> ~ In "]"%char ts ->
    ~ In "["%char mid -> ~ In "]"%char mid -> ~ In "]"%char lvl ->
    time_Parse TimeStampLayout ts = Some t ->
    parseLogItem
      (pre ++ "["%char :: ts ++ "]"%char :: mid ++ "["%char :: lvl
           ++ "]"%char :: rest)
    = inl {| Time := Z.quot (wrap64 t) 1000000;
             Level := ParseLogLevel lvl;
             Message := TrimSpace rest |}.
Proof.
  intros pre ts mid lvl rest t P1 P2 T2 M1 M2 L2 Ht.
  set (tail := mid ++ "["%char :: lvl ++ "]"%char :: rest).
  set (s := pre ++ "["%char :: ts ++ "]"%char :: tail).
  assert (Lp : 0 <= len pre) by (unfold len; lia).
  assert (Lt : 0 <= len ts) by (unfold len; lia).
  assert (Lm : 0 <= len mid) by (unfold len; lia).
  assert (Ll : 0 <= len lvl) by (unfold len; lia).
  assert (IL : IndexByte "[" s = len pre) by now apply IndexByte_first.
  assert (IR : IndexByte "]" s = len pre + 1 + len ts).
  { subst s.
    replace (pre ++ "["%char :: ts ++ "]"%char :: tail)
      with ((pre ++ "["%char :: ts) ++ "]"%char :: tail)
      by (rewrite <- app_assoc; reflexivity).
    rewrite IndexByte_first; [len_solve|].
    intros K. apply in_app_or in K.
    destruct K as [K|[K|K]]; [tauto|discriminate|tauto]. }
  assert (S1 : slice (len pre + 1) (len pre + 1 + len ts) s = ts).
  { subst s.
    replace (pre ++ "["%char :: ts ++ "]"%char :: tail)
      with ((pre ++ ["["%char]) ++ ts ++ "]"%char :: tail)
      by (rewrite <- app_assoc; reflexivity).
    apply slice_middle; len_solve. }
  assert (S2 : slice_from (len pre + 1 + len ts + 1) s = tail).
  { subst s.
    replace (pre ++ "["%char :: ts ++ "]"%char :: tail)
      with ((pre ++ ("["%char :: ts) ++ ["]"%char]) ++ tail)
      by (rewrite <- !app_assoc; reflexivity).
    apply slice_from_app. len_solve. }
  assert (JL : IndexByte "[" tail = len mid) by now apply IndexByte_first.
  assert (JR : IndexByte "]" tail = len mid + 1 + len lvl).
  { subst tail.
    replace (mid ++ "["%char :: lvl ++ "]"%char :: rest)
      with ((mid ++ "["%char :: lvl) ++ "]"%char :: rest)
      by (rewrite <- app_assoc; reflexivity).
    rewrite IndexByte_first; [len_solve|].
    intros K. apply in_app_or in K.
    destruct K as [K|[K|K]]; [tauto|discriminate|tauto]. }
  assert (S3 : slice (len pre + 1 + len ts + 1 + len mid + 1)
                 (len pre + 1 + len ts + 1 + (len mid + 1 + len lvl)) s = lvl).
  { subst s tail.
    replace (pre ++ "["%char :: ts ++ "]"%char :: mid ++ "["%char :: lvl
                 ++ "]"%char :: rest)
      with ((pre ++ ("["%char :: ts) ++ ("]"%char :: mid) ++ ["["%char])
                ++ lvl ++ "]"%char :: rest)
      by (repeat (rewrite <- app_assoc; simpl); reflexivity).
    apply slice_middle; len_solve. }
  assert (S4 : slice_from
                 (len pre + 1 + len ts + (len mid + 1 + len lvl) + 2) s
               = rest).
  { subst s tail.
    replace (pre ++ "["%char :: ts ++ "]"%char :: mid ++ "["%char :: lvl
                 ++ "]"%char :: rest)
      with ((pre ++ ("["%char :: ts) ++ ("]"%char :: mid)
                      ++ ("["%char :: lvl) ++ ["]"%char]) ++ rest)
      by (repeat (rewrite <- app_assoc; simpl); reflexivity).
    apply slice_from_app. len_solve. }
  unfold parseLogItem. rewrite IL, IR.
  replace (len pre =? -1) with false by (symmetry; apply Z.eqb_neq; lia).
  replace (len pre + 1 + len ts =? -1) with false
    by (symmetry; apply Z.eqb_neq; lia).
  replace (len pre >? len pre + 1 + len ts) with false
    by (symmetry; rewrite Z.gtb_ltb; apply Z.ltb_ge; lia).
  cbn [orb]. rewrite S1. unfold parseTimeStamp. rewrite Ht, S2, JL, JR.
  replace (len mid =? -1) with false by (symmetry; apply Z.eqb_neq; lia).
  replace (len mid + 1 + len lvl =? -1) with false
    by (symmetry; apply Z.eqb_neq; lia).
  replace (len mid >? len mid + 1 + len lvl) with false
    by (symmetry; rewrite Z.gtb_ltb; apply Z.ltb_ge; lia).
  cbn [orb]. rewrite S3, S4. reflexivity.
Qed.

(** X2.  A line without an opening bracket, or without a closing one,
    is rejected with the error that quotes the line, whatever the time
    parser accepts; the empty line is such a line. *)
Theorem parseLogItem_no_bracket :
  forall s,
    ~ In "["%char s \/ ~ In "]"%char s ->
    parseLogItem s = inr (invalidLogString s).
Proof.
  intros s [N|N]; unfold parseLogItem.
  - rewrite (IndexByte_absent _ _ N). reflexivity.
  - rewrite (IndexByte_absent "]" _ N), Z.eqb_refl, orb_true_r. reflexivity.
Qed.

End ParserProperties.

(** ** The probes of the first and of the last entry *)

Section ProbeProperties.
Context `{GoLib}.

Opaque defaultBufSize.

Lemma readLine_empty e :
  readLine (mkReader [] e) = (([], Some (src_err (mkReader [] e))), mkReader [] e).
Proof.
  rewrite readLine_tail; [reflexivity|auto|].
  pose proof bufSize_ge. simpl. lia.
Qed.

(** What [readLine] does on a source that ends cleanly, by the lines of
    the source. *)
Lemma readLine_fileLines s :
  (List.length (unterminatedTail s) < defaultBufSize)%nat ->
  match fileLines s with
  | [] => s = [] /\ readLine (mkReader s None) = (([], Some io_EOF), mkReader s None)
  | l :: ls =>
      exists rest,
        readLine (mkReader s None) = ((l, None), mkReader rest None)
        /\ fileLines rest = ls
        /\ (List.length (unterminatedTail rest) < defaultBufSize)%nat
  end.
Proof.
  intros T.
  destruct (break_lf s) as [l [rest|]] eqn:B.
  - rewrite (fileLines_break _ _ _ B).
    pose proof (unterminatedTail_break _ _ _ B) as U.
    apply break_lf_some in B. destruct B as [-> N].
    exists rest. rewrite readLine_lf by assumption.
    repeat split. now rewrite <- U.
  - apply break_lf_none in B. destruct B as [-> N].
    unfold unterminatedTail in T. rewrite Split_lf_nolf in T by assumption.
    simpl in T.
    destruct s as [|c s]; [split; [reflexivity|apply readLine_empty]|].
    rewrite fileLines_nolf by (assumption || discriminate).
    exists []. rewrite readLine_tail by assumption.
    repeat split. pose proof bufSize_ge. simpl. lia.
Qed.

Lemma readFirstValidLog_loop_S fuel ctx rd tryLines tried :
  readFirstValidLog_loop (S fuel) ctx rd tryLines tried
  = let '((line, err), rd') := readLine rd in
    match err with
    | Some e => ((None, Some e), rd')
    | None =>
        match parseLogItem line with
        | inl item => ((Some item, None), rd')
        | inr _ =>
            if tried + 1 >=? tryLines then ((None, Some notValidLogFile), rd')
            else if isCtxDone ctx then ((None, ctx_Err ctx), rd')
            else readFirstValidLog_loop fuel ctx rd' tryLines (tried + 1)
        end
    end.
Proof. reflexivity. Qed.

Lemma readFirstValidLog_loop_lines ctx tryLines :
  isCtxDone ctx = false ->
  forall fuel s tried,
    (List.length (unterminatedTail s) < defaultBufSize)%nat ->
    Z.of_nat (S fuel) = tryLines - tried ->
    fst (readFirstValidLog_loop (S fuel) ctx (mkReader s None) tryLines tried)
    = match firstParsable (firstn (S fuel) (fileLines s)) with
      | Some item => (Some item, None)
      | None =>
          if (List.length (fileLines s) <? S fuel)%nat
          then (None, Some io_EOF)
          else (None, Some notValidLogFile)
      end.
Proof.
  intros Hc. induction fuel as [|fuel IH]; intros s tried T F;
    rewrite readFirstValidLog_loop_S;
    pose proof (readLine_fileLines s T) as R;
    destruct (fileLines s) as [|l ls].
  - destruct R as [_ ->]. reflexivity.
  - destruct R as (rest & -> & _ & _). cbn [firstn firstParsable].
    destruct (parseLogItem l); [reflexivity|].
    replace (tried + 1 >=? tryLines) with true
      by (symmetry; apply Z.geb_le; lia).
    reflexivity.
  - destruct R as [_ ->]. reflexivity.
  - destruct R as (rest & -> & <- & T'). cbn [firstn firstParsable].
    destruct (parseLogItem l); [reflexivity|].
    replace (tried + 1 >=? tryLines) with false
      by (symmetry; rewrite Z.geb_leb; apply Z.leb_gt; lia).
    rewrite Hc, (IH rest (tried + 1) T') by lia.
    reflexivity.
Qed.

Transparent defaultBufSize.

End ProbeProperties.

(** ** More on the backward scan *)

Section ScanProperties.
Context `{GoLib}.

Lemma readLastLines_loop_S fuel ctx file lines pos cursor size :
  readLastLines_loop (S fuel) ctx file lines pos cursor size
  = if cursor <=? 0 then (file, ScanDone lines pos)
    else
      let sz :=
        if cursor <? (if size * 2 >? maxReadCacheSize
                      then maxReadCacheSize else size * 2)
        then cursor
        else (if size * 2 >? maxReadCacheSize
              then maxReadCacheSize else size * 2) in
      let (file1, err) := file_Seek file (cursor - sz) in
      match err with
      | Some _ => (file1, ScanIOError)
      | None =>
          let '(file2, chars, err) := file_Read file1 sz in
          match err with
          | Some _ => (file2, ScanIOError)
          | None =>
              if scanBoundary 0 chars (len (chars ++ lines)) pos >? 0
              then (file2, ScanDone (chars ++ lines)
                             (scanBoundary 0 chars (len (chars ++ lines)) pos))
              else if isCtxDone ctx then (file2, ScanCancelled)
              else readLastLines_loop fuel ctx file2 (chars ++ lines)
                     (scanBoundary 0 chars (len (chars ++ lines)) pos)
                     (cursor - sz) sz
          end
      end.
Proof. reflexivity. Qed.

Lemma file_Read_len f n f' chars :
  0 < n -> file_Read f n = (f', chars, None) -> len chars = n.
Proof.
  intros Hn. unfold file_Read. destruct (next_fault f) as [bad rest].
  destruct bad; [discriminate|].
  replace (n <=? 0) with false by (symmetry; apply Z.leb_gt; lia).
  assert (L : (List.length
                 (firstn (Z.to_nat n) (skipn (Z.to_nat (f_off f)) (f_data f)))
               <= Z.to_nat n)%nat) by apply firstn_le_length.
  destruct (firstn (Z.to_nat n) (skipn (Z.to_nat (f_off f)) (f_data f)))
    as [|c t]; [discriminate|].
  intros E. injection E as _ <-. unfold len.
  simpl List.length in *. rewrite length_app, repeat_length. lia.
Qed.

Lemma scanBoundary_bound chars i linesLen :
  0 <= i ->
  scanBoundary i chars linesLen 0 = 0
  \/ i < scanBoundary i chars linesLen 0 < i + len chars.
Proof.
  intros Hi.
  destruct (scanBoundary_spec chars i linesLen Hi)
    as [E|(pre & a & b & post & E1 & E2 & _)]; [now left|right].
  rewrite E2, E1. unfold len. rewrite length_app. simpl List.length. lia.
Qed.

(** The text kept by the loop never outgrows the distance walked, and
    after a round the boundary lies inside it. *)
Lemma readLastLines_loop_len ctx total :
  forall fuel file lines cursor size file' lines' p,
    1 <= size -> 0 <= cursor -> len lines + cursor <= total ->
    readLastLines_loop fuel ctx file lines 0 cursor size
    = (file', ScanDone lines' p) ->
    len lines' <= total /\ 0 <= p
    /\ (((cursor <= 0 \/ fuel = 0%nat) /\ lines' = lines /\ p = 0)
        \/ p < len lines').
Proof.
  induction fuel as [|fuel IH];
    intros file lines cursor size file' lines' p Hs Hc Ht.
  { simpl. intros E. injection E as _ <- <-.
    split; [lia|]. split; [lia|]. left. auto. }
  rewrite readLastLines_loop_S.
  destruct (Z.leb_spec cursor 0) as [Hle|Hgt].
  { intros E. injection E as _ <- <-.
    split; [lia|]. split; [lia|]. left. auto. }
  pose proof (next_size_bounds size cursor Hs Hgt) as Hsz.
  cbv zeta.
  match goal with
  | |- context [file_Seek file (cursor - ?e)] => remember e as sz eqn:Esz
  end.
  clear Esz.
  destruct (file_Seek file (cursor - sz)) as [file1 [e1|]]; [discriminate|].
  destruct (file_Read file1 sz) as [[file2 chars] err2] eqn:R.
  destruct err2 as [e2|]; [discriminate|].
  apply file_Read_len in R; [|lia].
  assert (Lc : len (chars ++ lines) = sz + len lines)
    by (unfold len in *; rewrite length_app; lia).
  destruct (scanBoundary_bound chars 0 (len (chars ++ lines)))
    as [E|B]; [lia| |].
  - rewrite E. cbn [Z.gtb Z.compare].
    destruct (isCtxDone ctx); [discriminate|].
    intros L. apply IH in L; try lia.
    destruct L as (L1 & L2 & L3). split; [lia|]. split; [lia|]. right.
    destruct L3 as [(_ & -> & ->)|L3]; unfold len in *; lia.
  - replace (scanBoundary 0 chars (len (chars ++ lines)) 0 >? 0) with true
      by (symmetry; apply Z.gtb_lt; lia).
    intros E. injection E as _ <- <-.
    split; [lia|]. split; [lia|]. right. unfold len in *; lia.
Qed.

(** X5.  From a cursor that is not negative, [readLastLines] reports a
    number of bytes between 0 and the cursor, so that the cursor of
    [readLastValidLog] never passes the start of the file; when the
    cursor is positive and lines are returned, at least one byte is
    reported, so that zero bytes mean the start of the file or a scan
    that gave up. *)
Theorem readLastLines_bytes :
  forall ctx file endCursor lines n err,
    0 <= endCursor ->
    snd (readLastLines ctx file endCursor) = (lines, n, err) ->
    0 <= n <= endCursor /\ (0 < endCursor -> lines <> [] -> 0 < n).
Proof.
  intros ctx file endCursor lines n err He. unfold readLastLines.
  destruct (readLastLines_loop (S (Z.to_nat endCursor)) ctx file [] 0
              endCursor 256) as [file' ex] eqn:L.
  destruct ex as [| |lines' p]; cbn [snd].
  - intros E. injection E as <- <- _. split; [lia|congruence].
  - intros E. injection E as <- <- _. split; [lia|congruence].
  - intros E. injection E as _ <- _.
    apply (readLastLines_loop_len ctx endCursor) in L;
      [|lia|lia|unfold len; simpl; lia].
    destruct L as (L1 & L2 & L3).
    assert (N : len (slice_from p lines') = len lines' - Z.min p (len lines')).
    { unfold slice_from, len. rewrite length_skipn. lia. }
    rewrite N. split; [unfold len in *; lia|].
    intros Hpos _.
    destruct L3 as [([?|?] & _)|L3]; [lia|discriminate|lia].
Qed.

(** X6.  At a cursor of 0 or less the scan does not touch the handle
    and returns one empty line, zero bytes and a nil error, whatever the
    context; [readLastValidLog] on an empty file therefore fails with
    "not a valid log file", also when the token has fired. *)
Theorem readLastLines_at_start :
  (forall ctx file endCursor,
     endCursor <= 0 ->
     readLastLines ctx file endCursor = (file, ([[]], 0, None)))
  /\ (forall ctx file tryLines,
        f_data file = [] ->
        readLastValidLog ctx file tryLines
        = (file, (None, Some notValidLogFile))).
Proof.
  assert (A : forall ctx file endCursor,
            endCursor <= 0 ->
            readLastLines ctx file endCursor = (file, ([[]], 0, None))).
  { intros ctx file endCursor Hc. unfold readLastLines.
    rewrite readLastLines_loop_S.
    replace (endCursor <=? 0) with true by (symmetry; apply Z.leb_le; lia).
    reflexivity. }
  split; [exact A|].
  intros ctx file tryLines Hd. unfold readLastValidLog.
  destruct (Z.to_nat (Z.max 1 tryLines)) as [|fuel] eqn:F; [lia|].
  cbn [readLastValidLog_loop].
  rewrite A by (unfold file_Size; rewrite Hd; unfold len; simpl; lia).
  reflexivity.
Qed.

(** X9.  With a fired token the scan makes at most one round: one
    [Seek] and one [Read]. *)
Theorem readLastLines_cancelled_one_round :
  forall ctx file endCursor,
    isCtxDone ctx = true ->
    exists ops,
      f_ops (fst (readLastLines ctx file endCursor)) = f_ops file ++ ops
      /\ (List.length ops <= 2)%nat.
Proof.
  intros ctx file endCursor Hc.
  assert (L : exists ops,
            f_ops (fst (readLastLines_loop (S (Z.to_nat endCursor)) ctx file
                          [] 0 endCursor 256)) = f_ops file ++ ops
            /\ (List.length ops <= 2)%nat).
  { rewrite readLastLines_loop_S.
    destruct (endCursor <=? 0).
    { exists []. rewrite app_nil_r. split; [reflexivity|simpl; lia]. }
    cbv zeta.
    match goal with
    | |- context [file_Seek file ?o] =>
        destruct (file_Seek_ops file o) as (ok1 & O1 & _);
        destruct (file_Seek file o) as [file1 err1]
    end.
    simpl in O1.
    destruct err1 as [e1|].
    { eexists. split; [exact O1|simpl; lia]. }
    match goal with
    | |- context [file_Read file1 ?n] =>
        destruct (file_Read_ops file1 n) as (ok2 & O2 & _);
        destruct (file_Read file1 n) as [[file2 chars] err2]
    end.
    simpl in O2. rewrite O1, <- app_assoc in O2.
    destruct err2 as [e2|].
    { eexists. split; [exact O2|simpl; lia]. }
    destruct (_ >? 0); [eexists; split; [exact O2|simpl; lia]|].
    rewrite Hc. eexists. split; [exact O2|simpl; lia]. }
  destruct L as (ops & O & Hl). exists ops. split; [|exact Hl].
  unfold readLastLines.
  destruct (readLastLines_loop _ ctx file [] 0 endCursor 256) as [f' ex].
  destruct ex; exact O.
Qed.

End ScanProperties.

Section LastEntry.
Context `{GoLib}.

Opaque defaultBufSize.

(** Without faults and cancellation, the text split by the scan of a
    nonempty file is not empty and its lines end the lines of the file. *)
Lemma readLastLines_suffix ctx file :
  isCtxDone ctx = false -> f_faults file = [] -> f_data file <> [] ->
  Forall (fun line => ~ In CR line) (fileLines (f_data file)) ->
  exists file' finalStr pre,
    readLastLines ctx file (file_Size file)
    = (file', (Split_lf (ReplaceAll_crlf finalStr), len finalStr, None))
    /\ finalStr <> []
    /\ fileLines (f_data file) = pre ++ fileLines finalStr.
Proof.
  intros Hc Hf Hn Hcr.
  set (data := f_data file) in *.
  destruct (readLastLines_loop_scan data ctx Hc (S (Z.to_nat (file_Size file)))
              file [] (file_Size file) 256)
    as (file' & lines' & p & E & D);
    try (reflexivity || assumption || lia).
  { unfold file_Size, len. fold data. lia. }
  { unfold file_Size, len. fold data.
    rewrite Nat2Z.id, skipn_all. reflexivity. }
  unfold readLastLines. rewrite E.
  exists file', (slice_from p lines').
  destruct D as [[-> ->]|(x & a & b & y & Ed & Na & Nb & Es)].
  - exists []. unfold slice_from. simpl skipn. auto.
  - rewrite Es.
    assert (Hb : b <> LF) by (intros ->; discriminate Nb).
    assert (Ha : a = LF).
    { unfold isNewline in Na. apply orb_true_iff in Na.
      destruct Na as [Na|Na]; apply Ascii.eqb_eq in Na; [exact Na|].
      subst a. exfalso.
      destruct (fileLines_lone_cr x b y Hb) as (line & L1 & L2).
      rewrite <- Ed in L1. rewrite Forall_forall in Hcr.
      exact (Hcr line L1 L2). }
    subst a. exists (fileLines (x ++ [LF])).
    split; [reflexivity|]. split; [discriminate|].
    rewrite Ed. apply fileLines_app_LF.
Qed.

Lemma parseLogItem_nil : parseLogItem [] = inr (invalidLogString []).
Proof. reflexivity. Qed.

Lemma lastParsable_found item (ls : list bytes) :
  fold_left
    (fun found line =>
       match found with
       | Some item => Some item
       | None => match parseLogItem line with
                 | inl item => Some item
                 | inr _ => None
                 end
       end) ls (Some item) = Some item.
Proof. induction ls; simpl; auto. Qed.

Lemma lastParsable_last q l item :
  parseLogItem l = inl item ->
  lastParsable (q ++ [l]) = Some item
  /\ lastParsable ((q ++ [l]) ++ [[]]) = Some item.
Proof.
  intros P. unfold lastParsable.
  rewrite !rev_app_distr. simpl. rewrite P.
  split; apply lastParsable_found.
Qed.

(** X7.  For a file read without faults whose lines hold no carriage
    return and whose last line parses, [readLastValidLog] returns the
    entry of that last line, whether or not a line feed ends the file. *)
Theorem readLastValidLog_last_line :
  forall ctx file tryLines pre l item,
    isCtxDone ctx = false -> f_faults file = [] ->
    (List.length (unterminatedTail (f_data file)) < defaultBufSize)%nat ->
    Forall (fun line => ~ In CR line) (readAllLines (f_data file)) ->
    readAllLines (f_data file) = pre ++ [l] ->
    parseLogItem l = inl item ->
    snd (readLastValidLog ctx file tryLines) = (Some item, None).
Proof.
  intros ctx file tryLines pre l item Hc Hf Ht Hcr Hl Hp.
  rewrite (readAllLines_lines _ Ht) in *.
  assert (Hn : f_data file <> []).
  { intros E. rewrite E in Hl. simpl in Hl. destruct pre; discriminate. }
  destruct (readLastLines_suffix ctx file Hc Hf Hn Hcr)
    as (file' & finalStr & pre' & R & Nf & S).
  assert (Q : exists q, fileLines finalStr = q ++ [l]).
  { pose proof (fileLines_nonempty finalStr Nf) as Nl.
    destruct (exists_last Nl) as (q & x & Eq). exists q.
    rewrite Eq, Hl, app_assoc in S. apply app_inj_tail in S.
    destruct S as [_ ->]. exact Eq. }
  destruct Q as (q & Q).
  unfold readLastValidLog.
  destruct (Z.to_nat (Z.max 1 tryLines)) as [|fuel] eqn:F; [lia|].
  cbn [readLastValidLog_loop]. rewrite R.
  replace (len finalStr =? 0) with false.
  2:{ symmetry. apply Z.eqb_neq. unfold len.
      destruct finalStr; [congruence|simpl; lia]. }
  rewrite Split_Replace_lines, Q.
  destruct (lastParsable_last q l item Hp) as [L1 L2].
  destruct (terminated finalStr).
  - rewrite L2. reflexivity.
  - rewrite app_nil_r, L1. reflexivity.
Qed.

Transparent defaultBufSize.

End LastEntry.

(** ** More on the resolver *)

Section ResolverMore.
Context `{GoLib}.

Ltac probe_cases :=
  repeat match goal with
         | |- context [match ?x with _ => _ end] =>
             lazymatch x with
             | context [match _ with _ => _ end] => fail
             | _ => destruct x eqn:?
             end
         end.

Lemma probe_name ctx filePrefix ext info :
  isCtxDone ctx = false ->
  match probe ctx filePrefix ext info with
  | NotCandidate => nameMatches filePrefix ext info = false
  | Aborted _ => False
  | OpenFailed e =>
      nameMatches filePrefix ext info = true /\ de_open info = inr e
  | GzipFailed | Unusable _ | Probed _ _ _ _ =>
      nameMatches filePrefix ext info = true /\ exists f, de_open info = inl f
  end.
Proof.
  intros Hc. unfold probe, nameMatches. rewrite Hc. cbv zeta.
  destruct (de_isDir info); [reflexivity|].
  destruct (HasPrefix (de_path info) filePrefix); [|reflexivity].
  cbn [negb andb].
  destruct (HasSuffix _ ext); [|reflexivity].
  cbn [negb].
  destruct (de_open info) as [f|e]; [|auto].
  assert (K : true = true /\ exists f0 : osFile, @inl osFile error f = inl f0)
    by (split; [reflexivity|now exists f]).
  probe_cases; exact K.
Qed.

Lemma walk_err ctx beginTime endTime filePrefix ext files :
  isCtxDone ctx = false ->
  forall st,
    snd (walk ctx beginTime endTime filePrefix ext st files) = None
    /\ err_ (fst (walk ctx beginTime endTime filePrefix ext st files))
       = lastOpenError filePrefix ext files (err_ st).
Proof.
  intros Hc. induction files as [|info rest IH]; intros st; [now split|].
  cbn [walk lastOpenError fold_left].
  pose proof (probe_name ctx filePrefix ext info Hc) as P.
  unfold walkFn.
  destruct (probe ctx filePrefix ext info) as [|e|e| |f|f b e c].
  - rewrite P. apply IH.
  - destruct P.
  - destruct P as [-> ->]. apply IH.
  - destruct P as [-> [f ->]]. apply IH.
  - destruct P as [-> [f0 ->]]. apply IH.
  - destruct P as [-> [f0 ->]].
    destruct ((beginTime >? e) || (endTime <? b)); apply IH.
Qed.

(** X10.  With a context that is not cancelled, the error that
    [resolveFiles] returns beside its file list is the error of the last
    [os.OpenFile] among the entries that pass the name test: nil if that
    entry opened (or none passed), and its open error otherwise, although
    the entry is only skipped. *)
Theorem resolveFiles_returns_last_open_error :
  forall ctx files logFilePath beginTime endTime,
    isCtxDone ctx = false -> logFilePath <> [] ->
    rr_err (resolveFiles ctx (inl files) logFilePath beginTime endTime)
    = lastOpenError
        (slice 0 (len logFilePath - len (filepath_Ext logFilePath)) logFilePath)
        (filepath_Ext logFilePath) files None.
Proof.
  intros ctx files logFilePath beginTime endTime Hc Hp. unfold resolveFiles.
  destruct logFilePath as [|c path]; [congruence|].
  destruct (walk_err ctx beginTime endTime
              (slice 0 (len (c :: path) - len (filepath_Ext (c :: path)))
                 (c :: path))
              (filepath_Ext (c :: path)) files Hc (mkResolveState [] [] None))
    as [W E].
  destruct (walk _ _ _ _ _ _ files) as [st err]. simpl in W, E. subst err.
  destruct (prune _ beginTime (skipFiles st)) as [idx skip]. exact E.
Qed.

(** X13.  With a fired token [resolveFiles] returns no file and closes
    none; it returns the error of the context when some entry of the
    directory passes the name test, and a nil error when none does. *)
Theorem resolveFiles_cancelled :
  forall ctx files logFilePath beginTime endTime,
    isCtxDone ctx = true -> logFilePath <> [] ->
    resolveFiles ctx (inl files) logFilePath beginTime endTime
    = mkResolveResult []
        (if existsb
              (nameMatches
                 (slice 0 (len logFilePath - len (filepath_Ext logFilePath))
                    logFilePath)
                 (filepath_Ext logFilePath))
              files
         then ctx_Err ctx else None)
        [].
Proof.
  intros ctx files logFilePath beginTime endTime Hc Hp. unfold resolveFiles.
  destruct logFilePath as [|c path]; [congruence|].
  set (prefix := slice 0 _ _). set (ext := filepath_Ext _).
  assert (D : exists e, ctx_Err ctx = Some e)
    by (destruct ctx; simpl in *; [discriminate|eauto|eauto]).
  destruct D as [e De].
  assert (W : walk ctx beginTime endTime prefix ext
                (mkResolveState [] [] None) files
              = (mkResolveState [] [] None,
                 if existsb (nameMatches prefix ext) files
                 then Some e else None)).
  { induction files as [|info rest IH]; [reflexivity|].
    cbn [walk existsb]. unfold walkFn, probe, nameMatches at 1.
    cbv zeta. rewrite Hc.
    destruct (de_isDir info); [exact IH|].
    destruct (HasPrefix (de_path info) prefix); [|exact IH].
    cbn [negb andb].
    destruct (HasSuffix _ ext); [|exact IH].
    cbn [negb orb]. now rewrite De. }
  rewrite W, De.
  destruct (existsb (nameMatches prefix ext) files); reflexivity.
Qed.

(** X14.  A compressed file that is probed gets [math.MaxInt64] as its
    end time whatever it holds, so that [walkFn] keeps it exactly when
    its first entry is not later than the end of the window. *)
Theorem compressed_file_open_ended :
  forall ctx beginTime endTime filePrefix ext st info f b e,
    probe ctx filePrefix ext info = Probed f b e true ->
    beginTime <= MaxInt64 ->
    e = MaxInt64
    /\ logFiles (fst (walkFn ctx beginTime endTime filePrefix ext st info))
       = if endTime <? b then logFiles st
         else logFiles st ++ [mkLogFile f b MaxInt64 true].
Proof.
  intros ctx beginTime endTime filePrefix ext st info f b e P Hb.
  assert (E : e = MaxInt64).
  { revert P. unfold probe. cbv zeta.
    destruct (de_isDir info); [discriminate|].
    destruct (negb _); [discriminate|].
    destruct (HasSuffix (de_path info) compressSuffix) eqn:C.
    - probe_cases; try discriminate;
        intros Q; inversion Q; subst; congruence.
    - probe_cases; try discriminate;
        intros Q; inversion Q. }
  subst e. split; [reflexivity|].
  unfold walkFn. rewrite P.
  replace (beginTime >? MaxInt64) with false
    by (symmetry; rewrite Z.gtb_ltb; apply Z.ltb_ge; lia).
  cbn [orb]. destruct (endTime <? b); reflexivity.
Qed.

Lemma walkFn_handles ctx beginTime endTime filePrefix ext st info :
  isCtxDone ctx = false ->
  snd (walkFn ctx beginTime endTime filePrefix ext st info) = None
  /\ Permutation
       (map file (logFiles (fst (walkFn ctx beginTime endTime filePrefix ext
                                   st info)))
        ++ skipFiles (fst (walkFn ctx beginTime endTime filePrefix ext st info)))
       ((map file (logFiles st) ++ skipFiles st)
        ++ probedHandles ctx filePrefix ext [info]).
Proof.
  intros Hc. unfold walkFn, probedHandles. cbn [flat_map].
  pose proof (probe_not_aborted ctx filePrefix ext info) as NA.
  destruct (probe ctx filePrefix ext info) as [|e|e| |f|f b e c];
    cbn [fst snd logFiles skipFiles]; rewrite ?app_nil_r;
    try (split; reflexivity).
  - exfalso. now apply (NA e).
  - split; [reflexivity|]. now rewrite app_assoc.
  - destruct ((beginTime >? e) || (endTime <? b));
      cbn [fst snd logFiles skipFiles]; (split; [reflexivity|]).
    + now rewrite app_assoc.
    + rewrite map_app. cbn [map file]. rewrite <- !app_assoc.
      apply Permutation_app_head. apply Permutation_app_comm.
Qed.

Lemma walk_handles ctx beginTime endTime filePrefix ext files :
  isCtxDone ctx = false ->
  forall st,
    snd (walk ctx beginTime endTime filePrefix ext st files) = None
    /\ Permutation
         (map file (logFiles (fst (walk ctx beginTime endTime filePrefix ext
                                     st files)))
          ++ skipFiles (fst (walk ctx beginTime endTime filePrefix ext st files)))
         ((map file (logFiles st) ++ skipFiles st)
          ++ probedHandles ctx filePrefix ext files).
Proof.
  intros Hc. induction files as [|info rest IH]; intros st.
  - simpl. rewrite app_nil_r. split; reflexivity.
  - cbn [walk].
    destruct (walkFn_handles ctx beginTime endTime filePrefix ext st info Hc)
      as [W P].
    destruct (walkFn ctx beginTime endTime filePrefix ext st info)
      as [st1 err1]. simpl in W, P. subst err1.
    destruct (IH st1) as [W2 P2]. split; [exact W2|].
    rewrite P2, P. unfold probedHandles. cbn [flat_map].
    rewrite app_nil_r, <- !app_assoc. reflexivity.
Qed.

Lemma prune_loop_skip beginTime rest :
  forall i prev idx skip,
    i = idx + 1 ->
    exists k,
      fst (prune_loop i prev rest beginTime idx skip) = idx + Z.of_nat k
      /\ snd (prune_loop i prev rest beginTime idx skip)
         = skip ++ map file (firstn k (prev :: rest)).
Proof.
  induction rest as [|f rest IH]; intros i prev idx skip Hi; cbn [prune_loop].
  - exists 0%nat. simpl. rewrite app_nil_r. split; [lia|reflexivity].
  - destruct (begin f <? beginTime).
    + destruct (IH (i + 1) f i (skip ++ [file prev]) eq_refl) as (k & E1 & E2).
      exists (S k). rewrite E1, E2. split; [lia|].
      cbn [firstn map]. now rewrite <- app_assoc.
    + exists 0%nat. simpl. rewrite app_nil_r. split; [lia|reflexivity].
Qed.

Lemma prune_skip l beginTime skip :
  exists k,
    fst (prune l beginTime skip) = Z.of_nat k
    /\ snd (prune l beginTime skip) = skip ++ map file (firstn k l).
Proof.
  destruct l as [|f0 rest]; unfold prune.
  - exists 0%nat. simpl. now rewrite app_nil_r.
  - destruct (prune_loop_skip beginTime rest 1 f0 0 skip eq_refl)
      as (k & E1 & E2).
    exists k. rewrite E1, E2. split; [lia|reflexivity].
Qed.

(** X11.  With a context that is not cancelled, every handle that the
    walk opened and probed is either the handle of a returned file or
    among the handles closed on the way out, and is so once: the
    returned and the closed handles together are a permutation of the
    probed ones.  (The handle of a compressed file whose gzip header is
    not read is in neither list.) *)
Theorem resolveFiles_handles :
  forall ctx files logFilePath beginTime endTime,
    isCtxDone ctx = false -> logFilePath <> [] ->
    let r := resolveFiles ctx (inl files) logFilePath beginTime endTime in
    Permutation
      (map file (rr_files r) ++ rr_closed r)
      (probedHandles ctx
         (slice 0 (len logFilePath - len (filepath_Ext logFilePath)) logFilePath)
         (filepath_Ext logFilePath) files).
Proof.
  intros ctx files logFilePath beginTime endTime Hc Hp. unfold resolveFiles.
  destruct logFilePath as [|c path]; [congruence|].
  set (prefix := slice 0 _ _). set (ext := filepath_Ext _).
  destruct (walk_handles ctx beginTime endTime prefix ext files Hc
              (mkResolveState [] [] None)) as [W P].
  destruct (walk _ _ _ _ _ _ files) as [st err]. simpl in W, P. subst err.
  destruct (prune_skip (sort_Slice (logFiles st)) beginTime (skipFiles st))
    as (k & E1 & E2).
  destruct (prune _ beginTime (skipFiles st)) as [idx skip].
  simpl in E1, E2. subst idx skip. cbn [rr_files rr_closed].
  rewrite Nat2Z.id. rewrite <- P.
  rewrite (Permutation_app_comm (skipFiles st)), app_assoc, <- map_app.
  apply Permutation_app_tail. apply Permutation_map.
  rewrite Permutation_app_comm, firstn_skipn. apply sort_Slice_perm.
Qed.

Lemma insert_by_begin_sorted_le x l :
  StronglySorted beginsNotAfter l ->
  StronglySorted beginsNotAfter (insert_by_begin x l).
Proof.
  induction 1 as [|y r S IH F]; simpl.
  - repeat constructor.
  - destruct (Z.ltb_spec (begin y) (begin x)).
    + constructor; [auto|].
      apply Forall_forall. intros z Hz.
      apply (proj1 (In_insert_by_begin _ _ _)) in Hz.
      destruct Hz as [->|Hz]; [unfold beginsNotAfter; lia|].
      rewrite Forall_forall in F. auto.
    + constructor; [constructor; assumption|].
      constructor; [assumption|].
      apply Forall_forall. intros z Hz. rewrite Forall_forall in F.
      specialize (F z Hz). unfold beginsNotAfter in *. lia.
Qed.

Lemma sort_Slice_sorted_le l : StronglySorted beginsNotAfter (sort_Slice l).
Proof.
  induction l as [|x r IH]; simpl; [constructor|].
  now apply insert_by_begin_sorted_le.
Qed.

Lemma dropBefore_suffix beginTime l :
  exists pre, l = pre ++ dropBefore beginTime l.
Proof.
  induction l as [|a t (pre & IH)]; [exists []; reflexivity|].
  destruct t as [|b t']; [exists []; reflexivity|].
  cbn [dropBefore]. destruct (begin b <? beginTime).
  - exists (a :: pre). simpl. f_equal. exact IH.
  - exists []. reflexivity.
Qed.

Lemma StronglySorted_suffix {A} (R : A -> A -> Prop) pre l :
  StronglySorted R (pre ++ l) -> StronglySorted R l.
Proof.
  induction pre as [|a pre IH]; simpl; [auto|].
  intros S. inversion S; subst. auto.
Qed.

Lemma dropBefore_tail beginTime l :
  StronglySorted beginsNotAfter l ->
  Forall (fun z => beginTime <= begin z) (tl (dropBefore beginTime l)).
Proof.
  induction 1 as [|a t S IH F]; [constructor|].
  destruct t as [|b t']; [constructor|].
  cbn [dropBefore]. destruct (Z.ltb_spec (begin b) beginTime); [exact IH|].
  cbn [tl]. inversion S as [|? ? S' Fb]; subst.
  constructor; [lia|].
  apply Forall_forall. intros z Hz. rewrite Forall_forall in Fb.
  specialize (Fb z Hz). unfold beginsNotAfter in Fb. lia.
Qed.

(** X12.  Whatever the spans of the candidates (they may overlap), with
    a context that is not cancelled the files returned are candidates
    whose span meets the window, in the order of their begin times, and
    only the first of them can begin before [beginTime]. *)
Theorem resolveFiles_result_shape :
  forall ctx files logFilePath beginTime endTime,
    isCtxDone ctx = false -> logFilePath <> [] ->
    let res :=
      rr_files (resolveFiles ctx (inl files) logFilePath beginTime endTime) in
    StronglySorted beginsNotAfter res
    /\ Forall (fun l => beginTime <= begin l) (tl res)
    /\ Forall
         (fun l =>
            In l (candidates ctx
                    (slice 0 (len logFilePath - len (filepath_Ext logFilePath))
                       logFilePath)
                    (filepath_Ext logFilePath) files)
            /\ beginTime <= end_ l /\ begin l <= endTime)
         res.
Proof.
  intros ctx files logFilePath beginTime endTime Hc Hp res.
  unfold res. rewrite resolveFiles_files by assumption.
  set (cands := candidates _ _ _ _).
  pose proof (sort_Slice_sorted_le (filter (inWindow beginTime endTime) cands))
    as S.
  destruct (dropBefore_suffix beginTime
              (sort_Slice (filter (inWindow beginTime endTime) cands)))
    as (pre & E).
  split; [|split].
  - rewrite E in S. eapply StronglySorted_suffix. exact S.
  - now apply dropBefore_tail.
  - apply Forall_forall. intros l Hl.
    assert (Hin : In l (sort_Slice (filter (inWindow beginTime endTime) cands)))
      by (rewrite E; apply in_or_app; now right).
    apply (proj1 (In_sort_Slice _ _)) in Hin. apply filter_In in Hin.
    destruct Hin as [Hin W]. split; [exact Hin|].
    unfold inWindow in W. rewrite negb_true_iff, orb_false_iff in W.
    rewrite Z.gtb_ltb, !Z.ltb_ge in W. exact W.
Qed.

End ResolverMore.

(** ** More on the iterator *)

Section IteratorMore.
Context `{GoLib}.

Lemma sameQuery_refl a : sameQuery a a.
Proof. repeat split. Qed.

Lemma sameQuery_trans a b c : sameQuery a b -> sameQuery b c -> sameQuery a c.
Proof.
  unfold sameQuery. intros (A1 & A2 & A3 & A4 & A5) (B1 & B2 & B3 & B4 & B5).
  repeat split; congruence.
Qed.

Lemma updateToNextReader_same iter iter' c :
  updateToNextReader iter = (iter', c) ->
  sameQuery iter iter' /\ fileIndex iter' = fileIndex iter
  /\ preLog iter' = preLog iter.
Proof.
  unfold updateToNextReader.
  destruct (fileIndex iter <? 0);
    [intros E; injection E as <- _; repeat split|].
  destruct (nth_error _ _) as [lf|];
    [|intros E; injection E as <- _; repeat split].
  destruct (negb (compressed lf));
    [intros E; injection E as <- _; repeat split|].
  destruct (f_gunzip (file lf)); intros E; injection E as <- _; repeat split.
Qed.

(** What a pass leaves alone, and what it returns an entry for. *)
Lemma nextLine_frame ctx iter iter' c :
  nextLine ctx iter = (iter', c) ->
  sameQuery iter iter' /\ fileIndex iter <= fileIndex iter'
  /\ forall item err,
       c = Return (Some item, err) ->
       applyFilters iter item = Return (Some item, err).
Proof.
  unfold nextLine.
  destruct (isCtxDone ctx).
  { intros E; injection E as <- <-.
    split; [apply sameQuery_refl|]. split; [lia|]. discriminate. }
  destruct (reader iter) as [rd|].
  2:{ intros E; injection E as <- <-.
      split; [apply sameQuery_refl|]. split; [lia|]. discriminate. }
  destruct (readLine rd) as [[raw err] rd'].
  assert (D :
    match decodeLine (preLog (set_reader iter (Some rd'))) (TrimSpace raw) with
    | Some (item, pre) =>
        (set_preLog (set_reader iter (Some rd')) pre,
         applyFilters (set_preLog (set_reader iter (Some rd')) pre) item)
    | None => (set_reader iter (Some rd'), Continue)
    end = (iter', c) ->
    sameQuery iter iter' /\ fileIndex iter <= fileIndex iter'
    /\ forall item err,
         c = Return (Some item, err) ->
         applyFilters iter item = Return (Some item, err)).
  { destruct (decodeLine _ _) as [[it pre]|].
    - intros E; injection E as <- <-.
      split; [repeat split|]. split; [simpl; lia|].
      intros item e Q. pose proof Q as Q'.
      apply applyFilters_item in Q'. destruct Q' as [-> _]. exact Q.
    - intros E; injection E as <- <-.
      split; [repeat split|]. split; [simpl; lia|]. discriminate. }
  destruct err as [e|]; [destruct e|]; try exact D.
  cbv zeta. destruct (_ >=? _).
  { intros E; injection E as <- <-.
    split; [repeat split|]. split; [simpl; lia|]. discriminate. }
  destruct (updateToNextReader _) as [it2 c2] eqn:U.
  apply updateToNextReader_same in U. destruct U as (U1 & U2 & _).
  simpl in U2.
  assert (S : sameQuery iter it2)
    by (eapply sameQuery_trans; [|exact U1]; repeat split).
  destruct c2 as [|[e|]|]; intros E; injection E as <- <-;
    (split; [exact S|]; split; [lia|]; discriminate).
Qed.

Lemma applyFilters_same a b item :
  sameQuery a b -> applyFilters a item = applyFilters b item.
Proof.
  intros (A1 & A2 & A3 & A4 & _). unfold applyFilters.
  now rewrite A1, A2, A3, A4.
Qed.

Lemma next_loop_frame fuel ctx :
  forall iter iter' r,
    next_loop fuel ctx iter = (iter', r) ->
    sameQuery iter iter' /\ fileIndex iter <= fileIndex iter'
    /\ forall item err,
         r = Returns (Some item, err) ->
         applyFilters iter item = Return (Some item, err).
Proof.
  induction fuel as [|fuel IH]; intros iter iter' r; simpl.
  { intros E; injection E as <- <-.
    split; [apply sameQuery_refl|]. split; [lia|]. discriminate. }
  destruct (nextLine ctx iter) as [iter1 c] eqn:N.
  apply nextLine_frame in N. destruct N as (S & F & A).
  destruct c as [|v|].
  - intros E. apply IH in E. destruct E as (S' & F' & A').
    split; [eapply sameQuery_trans; eassumption|]. split; [lia|].
    intros item err Q. rewrite (applyFilters_same _ _ _ S). now apply A'.
  - intros E; injection E as <- <-. split; [exact S|]. split; [exact F|].
    intros item err Q. injection Q as ->. now apply A.
  - intros E; injection E as <- <-. split; [exact S|]. split; [exact F|].
    discriminate.
Qed.

Lemma next_frame fuel ctx iter iter' r :
  next fuel ctx iter = (iter', r) ->
  sameQuery iter iter' /\ fileIndex iter <= fileIndex iter'
  /\ forall item err,
       r = Returns (Some item, err) ->
       applyFilters iter item = Return (Some item, err).
Proof.
  unfold next. destruct (reader iter) as [rd|]; [apply next_loop_frame|].
  destruct (pending iter) eqn:P.
  { intros E; injection E as <- <-.
    split; [apply sameQuery_refl|]. split; [lia|]. discriminate. }
  destruct (updateToNextReader iter) as [it1 c] eqn:U.
  apply updateToNextReader_same in U. destruct U as (S & F & _).
  destruct c as [|[e|]|]; try (intros E; injection E as <- <-;
    (split; [exact S|]; split; [lia|]; discriminate)).
  intros E. apply next_loop_frame in E. destruct E as (S' & F' & A').
  split; [eapply sameQuery_trans; eassumption|]. split; [lia|].
  intros item err Q. rewrite (applyFilters_same _ _ _ S). now apply A'.
Qed.

(** X15.  A call of [next] never changes the window, the severity
    mask, the patterns or the file list of the iterator, and never moves
    the file index back. *)
Theorem next_keeps_query :
  forall fuel ctx iter,
    let iter' := fst (next fuel ctx iter) in
    it_begin iter' = it_begin iter /\ it_end iter' = it_end iter
    /\ levelFlag iter' = levelFlag iter /\ patterns iter' = patterns iter
    /\ pending iter' = pending iter
    /\ fileIndex iter <= fileIndex iter'.
Proof.
  intros fuel ctx iter iter'. subst iter'.
  destruct (next fuel ctx iter) as [iter' r] eqn:N.
  apply next_frame in N. destruct N as ((A1 & A2 & A3 & A4 & A5) & F & _).
  simpl. repeat split; auto.
Qed.

(** X16.  Every entry that [next] returns comes with a nil error,
    matches every pattern of the iterator and is not excluded by its
    severity mask. *)
Theorem next_entry_passes_filters :
  forall fuel ctx iter iter' item err,
    next fuel ctx iter = (iter', Returns (Some item, err)) ->
    err = None
    /\ forallb (fun p => p (Message item)) (patterns iter) = true
    /\ levelExcluded (levelFlag iter) item = false.
Proof.
  intros fuel ctx iter iter' item err N.
  apply next_frame in N. destruct N as (_ & _ & A).
  specialize (A item err eq_refl). revert A. unfold applyFilters.
  destruct (Time item >? it_end iter); [discriminate|].
  destruct (Time item <? it_begin iter); [discriminate|].
  destruct (levelExcluded (levelFlag iter) item); [discriminate|].
  destruct (forallb _ _); [|discriminate].
  intros E. injection E as <-. auto.
Qed.

(** X17.  Once the reader of the last file is at its end, every call
    returns [io.EOF] and leaves the iterator in such a state: the end of
    the stream by exhaustion is final. *)
Theorem next_exhausted_stays :
  forall fuel ctx iter,
    isCtxDone ctx = false ->
    reader iter = Some (mkReader [] None) ->
    Z.of_nat (List.length (pending iter)) <= fileIndex iter + 1 ->
    let '(iter', r) := next (S fuel) ctx iter in
    r = Returns (None, Some io_EOF)
    /\ reader iter' = Some (mkReader [] None)
    /\ Z.of_nat (List.length (pending iter')) <= fileIndex iter' + 1.
Proof.
  intros fuel ctx iter Hc R L.
  rewrite (next_loop_as_next _ _ _ _ R). cbn [next_loop].
  unfold nextLine. rewrite Hc, R, readLine_empty. cbn [src_err r_err].
  cbv zeta. cbn [set_fileIndex set_reader fileIndex pending].
  replace (fileIndex iter + 1 >=? Z.of_nat (List.length (pending iter)))
    with true by (symmetry; apply Z.geb_le; lia).
  simpl. repeat split. lia.
Qed.

(** X18.  A read error other than [io.EOF] is never returned by
    [next].  When it persists and the trimmed empty line is empty, the
    loop does not end as long as no entry has been parsed, and after an
    entry has been parsed each pass makes a continuation entry with an
    empty message. *)
Theorem next_hides_read_error :
  forall ctx iter e,
    isCtxDone ctx = false ->
    reader iter = Some (mkReader [] (Some e)) -> e <> io_EOF ->
    TrimSpace [] = [] ->
    match preLog iter with
    | None => forall fuel, next fuel ctx iter = (iter, Diverges)
    | Some pre =>
        nextLine ctx iter
        = (iter,
           applyFilters iter
             {| Time := Time pre; Level := Level pre; Message := [] |})
    end.
Proof.
  intros ctx iter e Hc R He Ht.
  assert (N : nextLine ctx iter
              = match decodeLine (preLog iter) [] with
                | Some (item, pre) =>
                    (set_preLog iter pre, applyFilters iter item)
                | None => (iter, Continue)
                end).
  { unfold nextLine. rewrite Hc, R, readLine_empty. cbn [src_err r_err].
    rewrite Ht.
    assert (I : set_reader iter (Some (mkReader [] (Some e))) = iter)
      by (destruct iter; simpl in R; subst; reflexivity).
    rewrite I.
    destruct e; try congruence;
      destruct (decodeLine (preLog iter) []) as [[it pre]|]; reflexivity. }
  destruct (preLog iter) as [pre|] eqn:P.
  - rewrite N. unfold decodeLine. cbn [andb]. rewrite parseLogItem_nil.
    f_equal. destruct iter; simpl in P; subst; reflexivity.
  - assert (D : decodeLine None [] = None) by reflexivity.
    rewrite D in N.
    intros fuel. rewrite (next_loop_as_next _ _ _ _ R).
    induction fuel as [|fuel IH]; [reflexivity|].
    cbn [next_loop]. rewrite N. exact IH.
Qed.

End IteratorMore.

(** ** [next] returns *)

Section NextReturns.
Context `{GoLib}.

Opaque defaultBufSize.

Lemma break_lf_window_nonempty s l rest :
  break_lf s = (l, Some rest) -> (List.length l < List.length s)%nat.
Proof.
  intros B. apply break_lf_some in B. destruct B as [-> _].
  rewrite length_app. simpl. lia.
Qed.

Lemma ReadLine_progress r b p err r' :
  ReadLine r = ((b, p, err), r') ->
  r_err r' = r_err r
  /\ (List.length (r_src r') <= List.length (r_src r))%nat
  /\ (err = None -> (List.length (r_src r') < List.length (r_src r))%nat)
  /\ (forall e, err = Some e -> e = src_err r).
Proof.
  pose proof bufSize_ge as B2.
  unfold ReadLine.
  pose proof (firstn_le_length defaultBufSize (r_src r)) as W1.
  assert (W2 : (List.length (firstn defaultBufSize (r_src r))
                <= List.length (r_src r))%nat)
    by (rewrite length_firstn; lia).
  destruct (break_lf (firstn defaultBufSize (r_src r))) as [l [rest|]] eqn:B.
  - apply break_lf_window_nonempty in B.
    remember (S (List.length l)) as k eqn:Ek.
    intros E. injection E as <- <- <- <-. cbn [r_src r_err].
    rewrite length_skipn. repeat split; try lia. discriminate.
  - apply break_lf_none in B. destruct B as [-> _].
    destruct (Nat.ltb_spec (List.length (firstn defaultBufSize (r_src r)))
                defaultBufSize) as [Hs|Hs].
    + destruct (firstn defaultBufSize (r_src r)) as [|c t] eqn:F.
      * intros E. injection E as <- <- <- <-.
        repeat split; try lia; [discriminate|congruence].
      * intros E. injection E as <- <- <- <-. cbn [r_src r_err].
        simpl in W2. repeat split; try (simpl; lia). discriminate.
    + destruct (ends_with_cr _); intros E; injection E as <- <- <- <-;
        cbn [r_src r_err]; rewrite length_skipn;
        repeat split; try lia; discriminate.
Qed.

Lemma readLine_loop_progress fuel :
  forall acc r line err r',
    readLine_loop fuel acc r = ((line, err), r') ->
    r_err r' = r_err r
    /\ (List.length (r_src r') <= List.length (r_src r))%nat
    /\ (err = None -> (List.length (r_src r') < List.length (r_src r))%nat)
    /\ (forall e, err = Some e -> e = io_EOF \/ e = src_err r).
Proof.
  induction fuel as [|fuel IH]; intros acc r line err r'; cbn [readLine_loop].
  { intros E. injection E as <- <- <-.
    repeat split; try lia; [discriminate|]. intros e Q. left. congruence. }
  destruct (ReadLine r) as [[[b p] e1] r1] eqn:R.
  apply ReadLine_progress in R. destruct R as (R1 & R2 & R3 & R4).
  destruct e1 as [e|].
  { intros E. injection E as <- <- <-.
    split; [assumption|]. split; [assumption|]. split; [discriminate|].
    intros e' Q. right. apply R4. congruence. }
  specialize (R3 eq_refl).
  destruct p.
  - intros E. apply IH in E. destruct E as (E1 & E2 & E3 & E4).
    split; [congruence|]. split; [lia|]. split; [intros; lia|].
    intros e Q. destruct (E4 e Q) as [?|Q2]; [now left|right].
    rewrite Q2. unfold src_err. now rewrite R1.
  - intros E. injection E as <- <- <-.
    repeat split; try assumption; try lia; discriminate.
Qed.

Lemma readLine_progress r line err r' :
  r_err r = None ->
  readLine r = ((line, err), r') ->
  r_err r' = None
  /\ (List.length (r_src r') <= List.length (r_src r))%nat
  /\ (err = None -> (List.length (r_src r') < List.length (r_src r))%nat)
  /\ (forall e, err = Some e -> e = io_EOF).
Proof.
  intros C E. unfold readLine in E. apply readLine_loop_progress in E.
  destruct E as (E1 & E2 & E3 & E4).
  split; [congruence|]. split; [exact E2|]. split; [exact E3|].
  intros e Q. destruct (E4 e Q) as [?|Q2]; [assumption|].
  rewrite Q2. unfold src_err. now rewrite C.
Qed.

Lemma skipn_nth_error {A} (l : list A) n x :
  nth_error l n = Some x -> skipn n l = x :: skipn (S n) l.
Proof.
  revert n. induction l as [|a l IH]; intros [|n]; simpl; try discriminate.
  - intros E. injection E as ->. reflexivity.
  - apply IH.
Qed.

Lemma workOf_skipn_le files n : (workOf (skipn n files) <= workOf files)%nat.
Proof.
  revert n. induction files as [|lf r IH]; intros [|n]; simpl; try lia.
  specialize (IH n). lia.
Qed.

Lemma next_loop_returns ctx fuel :
  forall iter rd,
    reader iter = Some rd -> r_err rd = None -> 0 <= fileIndex iter ->
    Forall cleanStream (pending iter) ->
    (List.length (r_src rd)
     + workOf (skipn (Z.to_nat (fileIndex iter + 1)) (pending iter))
     < fuel)%nat ->
    exists iter' v, next_loop fuel ctx iter = (iter', Returns v).
Proof.
  induction fuel as [|fuel IH]; intros iter rd R C I F M; [lia|].
  cbn [next_loop]. unfold nextLine.
  destruct (isCtxDone ctx); [eauto|].
  rewrite R.
  destruct (readLine rd) as [[raw err] rd'] eqn:L.
  apply (readLine_progress _ _ _ _ C) in L.
  destruct L as (L1 & L2 & L3 & L4).
  assert (D :
    err <> Some io_EOF ->
    exists iter' v,
      match
        match decodeLine (preLog (set_reader iter (Some rd'))) (TrimSpace raw) with
        | Some (item, pre) =>
            (set_preLog (set_reader iter (Some rd')) pre,
             applyFilters (set_preLog (set_reader iter (Some rd')) pre) item)
        | None => (set_reader iter (Some rd'), Continue)
        end
      with
      | (iter0, Continue) => next_loop fuel ctx iter0
      | (iter0, Return v0) => (iter0, Returns v0)
      | (iter0, Panic) => (iter0, Panics)
      end = (iter', Returns v)).
  { intros Ne.
    assert (Lt : (List.length (r_src rd') < List.length (r_src rd))%nat).
    { apply L3. destruct err as [e|]; [|reflexivity].
      specialize (L4 e eq_refl). congruence. }
    destruct (decodeLine _ _) as [[item pre]|].
    - destruct (applyFilters _ item) as [|v|] eqn:A.
      + apply (IH _ rd'); try (reflexivity || assumption). simpl. lia.
      + eauto.
      + exfalso. revert A. unfold applyFilters.
        repeat match goal with
               | |- context [if ?b then _ else _] => destruct b
               end; discriminate.
    - apply (IH _ rd'); try (reflexivity || assumption). simpl. lia. }
  destruct err as [e|]; [|apply D; discriminate].
  rewrite (L4 e eq_refl). cbv zeta.
  cbn [set_fileIndex set_reader fileIndex pending].
  destruct (Z.geb_spec (fileIndex iter + 1)
              (Z.of_nat (List.length (pending iter)))) as [Hge|Hlt]; [eauto|].
  unfold updateToNextReader.
  cbn [set_fileIndex set_reader fileIndex pending].
  replace (fileIndex iter + 1 <? 0) with false
    by (symmetry; apply Z.ltb_ge; lia).
  destruct (nth_error (pending iter) (Z.to_nat (fileIndex iter + 1)))
    as [lf|] eqn:Nth.
  2:{ apply nth_error_None in Nth. lia. }
  pose proof (skipn_nth_error _ _ _ Nth) as Sk.
  assert (Cl : cleanStream lf).
  { rewrite Forall_forall in F. apply F. eapply nth_error_In. exact Nth. }
  unfold cleanStream in Cl.
  assert (Wl : (S (streamLen lf
                   + workOf (skipn (S (Z.to_nat (fileIndex iter + 1)))
                               (pending iter)))
                <= workOf (skipn (Z.to_nat (fileIndex iter + 1))
                             (pending iter)))%nat)
    by (rewrite Sk; simpl; lia).
  unfold streamLen in Wl. unfold streamOf in Cl, Wl.
  destruct (compressed lf); cbn [negb].
  - destruct (f_gunzip (file lf)) as [gr|ge]; cbv beta iota zeta; [|eauto].
    apply (IH _ gr); try (reflexivity || assumption);
      cbn [set_fileIndex set_reader fileIndex pending].
    + lia.
    + replace (Z.to_nat (fileIndex iter + 1 + 1))
        with (S (Z.to_nat (fileIndex iter + 1))) by lia.
      lia.
  - cbv beta iota zeta. apply (IH _ (NewReader (file lf)));
      try (reflexivity || assumption);
      cbn [set_fileIndex set_reader fileIndex pending].
    + lia.
    + replace (Z.to_nat (fileIndex iter + 1 + 1))
        with (S (Z.to_nat (fileIndex iter + 1))) by lia.
      lia.
Qed.

(** X19.  When no stream of the file list ends with a read error,
    [next] returns: a value comes back within one pass for every byte
    still to be read plus one for every file, whatever the context, the
    filters and the lines are. *)
Theorem next_returns :
  forall ctx iter fuel,
    0 <= fileIndex iter ->
    (reader iter = None -> fileIndex iter = 0) ->
    (forall rd, reader iter = Some rd -> r_err rd = None) ->
    Forall cleanStream (pending iter) ->
    (workLeft iter < fuel)%nat ->
    exists iter' v, next fuel ctx iter = (iter', Returns v).
Proof.
  intros ctx iter fuel I I0 C F M. unfold workLeft in M. unfold next.
  destruct (reader iter) as [rd|] eqn:R.
  - apply (next_loop_returns ctx fuel iter rd R (C rd eq_refl) I F).
    pose proof (workOf_skipn_le (pending iter) (Z.to_nat (fileIndex iter + 1))).
    lia.
  - destruct (pending iter) as [|lf rest] eqn:P; [eauto|].
    unfold updateToNextReader. rewrite (I0 eq_refl), P. cbn [Z.ltb Z.compare].
    cbn [Z.to_nat nth_error].
    assert (Cl : cleanStream lf) by (inversion F; assumption).
    unfold cleanStream, streamOf in Cl.
    simpl in M. unfold streamLen, streamOf in M.
    destruct (compressed lf); cbn [negb].
    + destruct (f_gunzip (file lf)) as [gr|ge]; cbv beta iota zeta; [|eauto].
      apply (next_loop_returns ctx fuel _ gr);
        try (reflexivity || assumption);
      cbn [set_fileIndex set_reader fileIndex pending].
      * rewrite P. exact F.
      * rewrite P, (I0 eq_refl). unfold NewReader in *. simpl in *. lia.
    + cbv beta iota zeta.
      apply (next_loop_returns ctx fuel _ (NewReader (file lf)));
        try (reflexivity || assumption);
      cbn [set_fileIndex set_reader fileIndex pending].
      * rewrite P. exact F.
      * rewrite P, (I0 eq_refl). unfold NewReader in *. simpl in *. lia.
Qed.

Transparent defaultBufSize.

End NextReturns.

(** ** The first entry, by the lines that [readLine] delivers *)

Section FirstEntry.
Context `{GoLib}.

Lemma readFirstValidLog_loop_read ctx tryLines :
  isCtxDone ctx = false ->
  forall fuel r tried F,
    r_err r = None -> (List.length (r_src r) < F)%nat ->
    0 <= tried -> Z.of_nat (S fuel) = Z.max 1 tryLines - tried ->
    fst (readFirstValidLog_loop (S fuel) ctx r tryLines tried)
    = match firstParsable (firstn (S fuel) (readAllLines_loop F r)) with
      | Some item => (Some item, None)
      | None =>
          if (List.length (readAllLines_loop F r) <? S fuel)%nat
          then (None, Some io_EOF)
          else (None, Some notValidLogFile)
      end.
Proof.
  intros Hc. induction fuel as [|fuel IH]; intros r tried F C L T E;
    rewrite readFirstValidLog_loop_S;
    (destruct F as [|F]; [lia|]); cbn [readAllLines_loop];
    destruct (readLine r) as [[line err] r'] eqn:R;
    destruct (readLine_progress r line err r' C R) as (C' & _ & Lt & Eof);
    (destruct err as [e|]; [rewrite (Eof e eq_refl); reflexivity|]);
    specialize (Lt eq_refl); cbn [firstn firstParsable];
    (destruct (parseLogItem line); [reflexivity|]).
  - replace (tried + 1 >=? tryLines) with true
      by (symmetry; apply Z.geb_le; lia).
    reflexivity.
  - replace (tried + 1 >=? tryLines) with false
      by (symmetry; rewrite Z.geb_leb; apply Z.leb_gt; lia).
    rewrite Hc, (IH r' (tried + 1) F) by (assumption || lia).
    reflexivity.
Qed.

(** X3.  With a context that is not cancelled, on a stream that ends
    without read error, [readFirstValidLog] gives the entry of the first
    line that parses among the first [max 1 tryLines] lines that
    [readLine] delivers; when none of them parses it fails with [io.EOF]
    if [readLine] delivers fewer lines than that and with "not a valid
    log file" otherwise, so that an entry after these lines is never
    found. *)
Theorem readFirstValidLog_first_lines :
  forall ctx data tryLines,
    isCtxDone ctx = false ->
    let n := Z.to_nat (Z.max 1 tryLines) in
    fst (readFirstValidLog ctx (mkReader data None) tryLines)
    = match firstParsable (firstn n (readAllLines data)) with
      | Some item => (Some item, None)
      | None =>
          if (List.length (readAllLines data) <? n)%nat
          then (None, Some io_EOF)
          else (None, Some notValidLogFile)
      end.
Proof.
  intros ctx data tryLines Hc n. unfold readFirstValidLog, readAllLines.
  fold n. destruct n as [|k] eqn:En; [lia|].
  apply readFirstValidLog_loop_read;
    try assumption; try reflexivity; try (simpl; lia).
Qed.

(** X4.  Cancellation is polled only after a line has failed to parse
    and when more lines may be tried: with a fired token, on a stream
    that ends without read error, the probe still returns the entry of a
    first line that parses, and [io.EOF] when [readLine] delivers no
    line; when the first line does not parse it returns "not a valid
    log file" if [tryLines] is at most 1 and the error of the context
    otherwise. *)
Theorem readFirstValidLog_cancelled :
  forall ctx data tryLines,
    isCtxDone ctx = true ->
    fst (readFirstValidLog ctx (mkReader data None) tryLines)
    = match readAllLines data with
      | [] => (None, Some io_EOF)
      | l :: _ =>
          match parseLogItem l with
          | inl item => (Some item, None)
          | inr _ =>
              if tryLines <=? 1 then (None, Some notValidLogFile)
              else (None, ctx_Err ctx)
          end
      end.
Proof.
  intros ctx data tryLines Hc. unfold readFirstValidLog, readAllLines.
  destruct (Z.to_nat (Z.max 1 tryLines)) as [|k] eqn:En; [lia|].
  rewrite readFirstValidLog_loop_S. cbn [readAllLines_loop].
  destruct (readLine (mkReader data None)) as [[line err] r'] eqn:R.
  destruct (readLine_progress (mkReader data None) line err r' eq_refl R)
    as (_ & _ & _ & Eof).
  destruct err as [e|]; [rewrite (Eof e eq_refl); reflexivity|].
  destruct (parseLogItem line); [reflexivity|].
  rewrite Z.geb_leb, Hc. change (0 + 1) with 1.
  destruct (tryLines <=? 1); reflexivity.
Qed.

End FirstEntry.

(** ** Reading forward, names and instants *)

Section ForwardAndNames.
Context `{GoLib}.

Lemma Split_lf_app_LF x y :
  Split_lf (x ++ LF :: y) = Split_lf x ++ Split_lf y.
Proof.
  induction x as [|c x IH]; [reflexivity|].
  cbn [app Split_lf]. rewrite IH.
  destruct (Ascii.eqb c LF); [reflexivity|].
  pose proof (Split_lf_nonempty x).
  destruct (Split_lf x); [congruence|reflexivity].
Qed.

Lemma unterminatedTail_terminated x : unterminatedTail (x ++ [LF]) = [].
Proof. unfold unterminatedTail. rewrite Split_lf_app_LF. apply last_last. Qed.

Lemma terminated_snoc x a : terminated (x ++ [a]) = Ascii.eqb a LF.
Proof.
  induction x as [|c x IH]; [reflexivity|].
  cbn [app]. rewrite terminated_cons; [exact IH|].
  destruct x; discriminate.
Qed.

Lemma fileLines_rejoin x :
  ~ In CR x ->
  List.concat (map (fun l => l ++ [LF]) (fileLines (x ++ [LF]))) = x ++ [LF].
Proof.
  induction x as [|c x IH]; intros N; [reflexivity|].
  assert (N' : ~ In CR x) by (intros ?; apply N; now right).
  specialize (IH N').
  pose proof (fileLines_nonempty (x ++ [LF])) as Ne.
  cbn [app]. remember (x ++ [LF]) as t eqn:Et.
  cbn [fileLines].
  destruct (Ascii.eqb c LF) eqn:E1.
  - apply Ascii.eqb_eq in E1. subst c. cbn [map List.concat app]. now rewrite IH.
  - replace (Ascii.eqb c CR) with false
      by (symmetry; apply Ascii.eqb_neq; intros ->; apply N; now left).
    cbn [andb].
    destruct (fileLines t) as [|l ls].
    + exfalso. apply Ne; [|reflexivity]. subst t. destruct x; discriminate.
    + cbn [map List.concat app] in *. now rewrite <- IH.
Qed.

(** X20.  For data that is empty or ends with a line feed and holds
    no carriage return, forward reading loses nothing: the lines read,
    each followed by a line feed, are the data again. *)
Theorem readAllLines_rejoin :
  forall data,
    terminated data = true -> ~ In CR data ->
    List.concat (map (fun l => l ++ [LF]) (readAllLines data)) = data.
Proof.
  intros data T N.
  destruct data as [|c d] using rev_ind.
  - reflexivity.
  - clear IHd. rewrite terminated_snoc in T. apply Ascii.eqb_eq in T. subst c.
    rewrite readAllLines_lines.
    + apply fileLines_rejoin. intros K. apply N. apply in_or_app. now left.
    + rewrite unterminatedTail_terminated. simpl.
      unfold defaultBufSize. lia.
Qed.

Lemma HasPrefix_app a b : HasPrefix (a ++ b) a = true.
Proof.
  induction a as [|c a IH]; simpl; [now destruct b|].
  now rewrite Ascii.eqb_refl.
Qed.

Lemma HasSuffix_app a b : HasSuffix (a ++ b) b = true.
Proof. unfold HasSuffix. rewrite rev_app_distr. apply HasPrefix_app. Qed.

Lemma slice_prefix a b : slice 0 (len (a ++ b) - len b) (a ++ b) = a.
Proof.
  unfold slice, len. rewrite length_app. simpl skipn.
  replace (Z.to_nat _) with (List.length a + 0)%nat by lia.
  rewrite firstn_app_2. simpl. apply app_nil_r.
Qed.

Lemma ext_scan_suffix r : forall acc,
  exists k, ext_scan r acc = [] \/ ext_scan r acc = rev (firstn k r) ++ acc.
Proof.
  induction r as [|c r IH]; intros acc; simpl.
  - exists 0%nat. now left.
  - destruct (Ascii.eqb c "/"); [exists 0%nat; now left|].
    destruct (Ascii.eqb c ".").
    + exists 1%nat. right. reflexivity.
    + destruct (IH (c :: acc)) as (k & [E|E]).
      * exists 0%nat. now left.
      * exists (S k). right. rewrite E. simpl. now rewrite <- app_assoc.
Qed.

Lemma filepath_Ext_suffix p : exists pre, p = pre ++ filepath_Ext p.
Proof.
  unfold filepath_Ext.
  destruct (ext_scan_suffix (rev p) []) as (k & [E|E]); rewrite E.
  - exists p. now rewrite app_nil_r.
  - exists (rev (skipn k (rev p))). rewrite app_nil_r, <- rev_app_distr.
    now rewrite firstn_skipn, rev_involutive.
Qed.

(** X21.  The prefix and the extension that [resolveFiles] takes from
    the log path make up the path.  The name test of [walkFn] lets
    through every file whose path is the prefix, any text and the
    extension, provided that this path does not itself end with ".gz",
    and every such path followed by ".gz".  The proviso is needed: when
    the extension is ".gz", the file at the path made of the prefix and
    the extension passes only if the prefix ends with ".gz" too. *)
Theorem name_test_accepts :
  (forall p,
     slice 0 (len p - len (filepath_Ext p)) p ++ filepath_Ext p = p)
  /\ (forall filePrefix ext mid info,
        de_isDir info = false ->
        (de_path info = filePrefix ++ mid ++ ext
         /\ HasSuffix (de_path info) compressSuffix = false)
        \/ de_path info = (filePrefix ++ mid ++ ext) ++ compressSuffix ->
        nameMatches filePrefix ext info = true)
  /\ (forall filePrefix info,
        de_isDir info = false ->
        de_path info = filePrefix ++ compressSuffix ->
        nameMatches filePrefix compressSuffix info
        = HasSuffix filePrefix compressSuffix).
Proof.
  split; [|split].
  - intros p. destruct (filepath_Ext_suffix p) as (pre & E).
    remember (filepath_Ext p) as e eqn:Ee. clear Ee. subst p.
    now rewrite slice_prefix.
  - intros filePrefix ext mid info Hd Hp. unfold nameMatches. rewrite Hd.
    cbv zeta. cbn [negb andb].
    destruct Hp as [[E C]|E].
    + rewrite C, E, HasPrefix_app, app_assoc, HasSuffix_app. reflexivity.
    + rewrite E, HasSuffix_app, slice_prefix.
      rewrite <- app_assoc, HasPrefix_app, (app_assoc filePrefix), HasSuffix_app.
      reflexivity.
  - intros filePrefix info Hd E. unfold nameMatches. rewrite Hd.
    cbv zeta. cbn [negb andb].
    rewrite E, HasSuffix_app, slice_prefix, HasPrefix_app. reflexivity.
Qed.

(** X22.  For an instant that fits the 64-bit count of nanoseconds,
    [parseTimeStamp] is the instant in milliseconds rounded toward zero
    (so an instant before 1970 is rounded up); a string that
    [time.Parse] rejects gives an error. *)
Theorem parseTimeStamp_millis :
  forall s,
    match time_Parse TimeStampLayout s with
    | None => parseTimeStamp s = inr time_ParseError
    | Some t =>
        - 2 ^ 63 <= t < 2 ^ 63 ->
        exists ms,
          parseTimeStamp s = inl ms
          /\ (0 <= t -> ms * 1000000 <= t < (ms + 1) * 1000000)
          /\ (t <= 0 -> (ms - 1) * 1000000 < t <= ms * 1000000)
    end.
Proof.
  intros s. unfold parseTimeStamp.
  destruct (time_Parse TimeStampLayout s) as [t|]; [|reflexivity].
  intros R.
  assert (W : wrap64 t = t).
  { unfold wrap64. rewrite Z.mod_small by lia. lia. }
  rewrite W. exists (Z.quot t 1000000). split; [reflexivity|].
  pose proof (Z.quot_rem' t 1000000) as Q.
  split; intros S.
  - pose proof (Z.rem_bound_pos t 1000000 S ltac:(lia)). lia.
  - pose proof (Z.rem_bound_pos (- t) 1000000 ltac:(lia) ltac:(lia)) as B.
    rewrite Z.rem_opp_l' in B. lia.
Qed.

End ForwardAndNames.

(** ** A last line that fills the buffer *)

Section FullBuffer.
Context `{GoLib}.

Lemma readLine_loop_full k : forall fuel acc s e,
  ~ In LF s -> ~ In CR s ->
  List.length s = (k * defaultBufSize)%nat -> (k < fuel)%nat ->
  readLine_loop fuel acc (mkReader s e)
  = (([], Some (src_err (mkReader s e))), mkReader [] e).
Proof.
  pose proof bufSize_ge as B.
  induction k as [|k IH]; intros fuel acc s e NL NC L F;
    (destruct fuel as [|fuel]; [lia|]); cbn [readLine_loop].
  - destruct s; [|discriminate].
    rewrite ReadLine_tail by (simpl; auto; lia). reflexivity.
  - rewrite <- (firstn_skipn defaultBufSize s) at 1.
    assert (Lu : List.length (firstn defaultBufSize s) = defaultBufSize)
      by (rewrite length_firstn; lia).
    rewrite ReadLine_full;
      [|intros K; apply NL; eapply In_firstn_skipn; left; exact K|exact Lu].
    rewrite ends_with_cr_absent
      by (intros K; apply NC; eapply In_firstn_skipn; left; exact K).
    rewrite IH; [reflexivity| | | |lia].
    + intros K; apply NL; eapply In_firstn_skipn; right; exact K.
    + intros K; apply NC; eapply In_firstn_skipn; right; exact K.
    + rewrite length_skipn. lia.
Qed.

(** X8.  A last line without line feed and without carriage return
    whose length is a positive multiple of the 4096 bytes of the buffer
    is lost: [readLine] consumes it and returns the error that ends
    the stream ([io.EOF] at the end of a file) instead of the line. *)
Theorem readLine_full_buffer_lost :
  forall k s e,
    ~ In LF s -> ~ In CR s ->
    List.length s = (S k * defaultBufSize)%nat ->
    readLine (mkReader s e)
    = (([], Some (src_err (mkReader s e))), mkReader [] e).
Proof.
  intros k s e NL NC L. unfold readLine. cbn [r_src].
  apply (readLine_loop_full (S k)); try assumption.
  pose proof bufSize_ge. nia.
Qed.

End FullBuffer.

(** * Runs on the concrete files *)

#[local] Existing Instance refLib.

Lemma notIn_check (c : ascii) (l : bytes) :
  existsb (Ascii.eqb c) l = false -> ~ In c l.
Proof.
  intros E K.
  assert (X : existsb (Ascii.eqb c) l = true).
  { apply existsb_exists. exists c. split; [exact K|apply Ascii.eqb_refl]. }
  congruence.
Qed.

Lemma ParseLogLevel_spellings_run :
  ParseLogLevel (str "warn") = LogLevel_Warn
  /\ ParseLogLevel (ToUpper (str "warn")) = LogLevel_Warn.
Proof.
  apply (proj1 ParseLogLevel_spellings). simpl. auto.
Defined.

(** The example of the three lines: the entry, its continuation, the
    next entry, then the end of the stream. *)
Example next_three_lines :
  let it0 := ex_iter 1566814753011 1566814754000 [ex_logFile] in
  let '(it1, r1) := next 5 ctxActive it0 in
  let '(it2, r2) := next 5 ctxActive it1 in
  let '(it3, r3) := next 5 ctxActive it2 in
  let '(it4, r4) := next 5 ctxActive it3 in
  [r1; r2; r3; r4]
  = [Returns (Some ex_msg1, None); Returns (Some ex_cont, None);
     Returns (Some ex_msg3, None); Returns (None, Some io_EOF)].
Proof. vm_compute. reflexivity. Qed.





Lemma preLog_only_parsed_run :
  preLog (fst (nextLines 1 ctxActive (ex_iter1 0 1566814754000))) = Some ex_msg1
  /\ forall item err,
       In (Return (Some item, err))
          (snd (nextLines 1 ctxActive (ex_iter1 0 1566814754000))) ->
       Time item = Time ex_msg1 /\ Level item = Level ex_msg1.
Proof.
  apply (proj2 (@preLog_only_parsed refLib) 1%nat ctxActive
           (ex_iter1 0 1566814754000) ex_msg1).
  - reflexivity.
  - intros k line Hk. destruct k as [|k]; [|lia].
    intros E. exists (invalidLogString ex_line2).
    vm_compute in E. injection E as <-. vm_compute. reflexivity.
Defined.

Lemma noCR_check (ls : list bytes) :
  forallb (fun line => negb (existsb (Ascii.eqb CR) line)) ls = true ->
  Forall (fun line => ~ In CR line) ls.
Proof.
  intros E. apply Forall_forall. intros line Hl Hc.
  rewrite forallb_forall in E. specialize (E line Hl).
  apply negb_true_iff in E.
  assert (X : existsb (Ascii.eqb CR) line = true).
  { apply existsb_exists. exists CR. split; [exact Hc|apply Ascii.eqb_refl]. }
  congruence.
Qed.

Lemma readLastLines_final_lines_run :
  let f := ex_file 9 ex_data_early_cr [] in
  let lines := fst (fst (snd (readLastLines ctxActive f (file_Size f)))) in
  snd (snd (readLastLines ctxActive f (file_Size f))) = None
  /\ dropTrailingEmpty lines
     = lastn (List.length (dropTrailingEmpty lines))
         (readAllLines ex_data_early_cr)
  /\ map parseLogItem (dropTrailingEmpty lines)
     = lastn (List.length (dropTrailingEmpty lines))
         (map parseLogItem (readAllLines ex_data_early_cr))
  /\ (ex_data_early_cr <> [] -> dropTrailingEmpty lines <> []).
Proof.
  apply (proj1 (@readLastLines_final_lines refLib) ctxActive
           (ex_file 9 ex_data_early_cr []) _ 492).
  - reflexivity.
  - reflexivity.
  - vm_compute. reflexivity.
  - right. exists (firstn 223 ex_data_early_cr), (skipn 224 ex_data_early_cr).
    split; vm_compute; reflexivity.
  - right. vm_compute. reflexivity.
Defined.

(** The file of the run has a lone carriage return, in a part that the
    scan does not reach, and the same holds for a last line of 5000
    bytes without line feed. *)
Example tail_lines_early_carriage_return :
  ~ noLoneCR ex_data_early_cr
  /\ tailDelivered (ex_line1 ++ LF :: repeat "x"%char 5000)
  /\ (defaultBufSize <= List.length (unterminatedTail
                          (ex_line1 ++ LF :: repeat "x"%char 5000)))%nat.
Proof.
  split; [|split].
  - intros K.
    specialize (K (str "a") "b"%char
                  (LF :: joinLines (repeat ex_line1 12) ++ ex_line3) eq_refl).
    discriminate K.
  - right. vm_compute. reflexivity.
  - apply Nat.leb_le. vm_compute. reflexivity.
Qed.

(** C6 as stated fails: every line of the file parses, but the lines
    returned end with the empty string left by the final line feed, which
    does not parse, so that their parses are no final part of the parses
    of the whole file. *)
Lemma tail_lines_end_with_empty_string :
  (forall line, In line (readAllLines ex_data2) ->
     exists item, parseLogItem line = inl item)
  /\ ~ (exists n,
          map parseLogItem
            (fst (fst (snd (readLastLines ctxActive (ex_file 5 ex_data2 [])
                              (file_Size (ex_file 5 ex_data2 []))))))
          = lastn n (map parseLogItem (readAllLines ex_data2))).
Proof.
  assert (F : map parseLogItem (readAllLines ex_data2)
              = [inl ex_msg1; inl ex_msg3]) by (vm_compute; reflexivity).
  assert (B : map parseLogItem
                (fst (fst (snd (readLastLines ctxActive (ex_file 5 ex_data2 [])
                                  (file_Size (ex_file 5 ex_data2 []))))))
              = [inl ex_msg3; inr (invalidLogString [])])
    by (vm_compute; reflexivity).
  split.
  - assert (E : readAllLines ex_data2 = [ex_line1; ex_line3])
      by (vm_compute; reflexivity).
    rewrite E. intros line [<-|[<-|[]]]; eexists; vm_compute; reflexivity.
  - rewrite F, B. intros [n E].
    destruct n as [|[|[|n]]]; discriminate E.
Qed.

(** The two further conditions of the theorem are needed as well. *)
Example tail_lines_lone_carriage_return :
  readAllLines ex_data_cr = [ex_line_cr]
  /\ dropTrailingEmpty
       (fst (fst (snd (readLastLines ctxActive (ex_file 5 ex_data_cr [])
                         (file_Size (ex_file 5 ex_data_cr []))))))
     = [str "b"].
Proof. split; vm_compute; reflexivity. Qed.

Example tail_lines_full_buffer :
  readAllLines ex_data_long = [ex_line1]
  /\ dropTrailingEmpty
       (fst (fst (snd (readLastLines ctxActive (ex_file 5 ex_data_long [])
                         (file_Size (ex_file 5 ex_data_long []))))))
     = [repeat "x"%char defaultBufSize].
Proof. split; vm_compute; reflexivity. Qed.

Lemma io_failure_skips_file_run :
  walkFn ctxActive 0 MaxInt64 (str "/log/tidb") (str ".log")
    (mkResolveState [] [] None) (ex_entry "/log/tidb.log" 5 ex_data [true])
  = (mkResolveState []
       [fst (readLastValidLog ctxActive (ex_file 5 ex_data [true]) 10)] None,
     None).
Proof.
  apply (proj2 (proj2 (@io_failure_skips_file refLib)) ctxActive 0 MaxInt64
           (str "/log/tidb") (str ".log") (mkResolveState [] [] None)
           (ex_entry "/log/tidb.log" 5 ex_data [true])
           (ex_file 5 ex_data [true]) ex_msg1 [OpSeek 0 false]);
    vm_compute; reflexivity.
Defined.

Example resolveFiles_run :
  let r := resolveFiles ctxActive (inl ex_dir) ex_path
             1566814200000 1566814754000 in
  map f_id (map file (rr_files r)) = [4; 5]
  /\ map begin (rr_files r) = [1566813600000; 1566814753011]
  /\ rr_err r = None
  /\ map f_id (rr_closed r) = [3].
Proof. vm_compute. repeat split; reflexivity. Qed.

(** Two compressed rotated files and the live file: both compressed
    files begin before the window and reach into it, and the pruning
    closes the older one. *)
Example resolveFiles_prunes :
  let r := resolveFiles ctxActive (inl ex_dir_gz) ex_path
             1566814200000 1566814754000 in
  map f_id (map file (rr_files r)) = [7; 5]
  /\ map begin (rr_files r) = [1566813600000; 1566814753011]
  /\ map end_ (rr_files r) = [MaxInt64; 1566814754000]
  /\ rr_err r = None
  /\ map f_id (rr_closed r) = [2].
Proof. vm_compute. repeat split; reflexivity. Qed.

Lemma resolveFiles_window_run :
  let cands :=
    candidates ctxActive
      (slice 0 (len ex_path - len (filepath_Ext ex_path)) ex_path)
      (filepath_Ext ex_path) ex_dir_gz in
  let res :=
    rr_files (resolveFiles ctxActive (inl ex_dir_gz) ex_path
                1566814200000 1566814754000) in
  StronglySorted beginsBefore res
  /\ NoDup res
  /\ forall l,
       In l res
       <-> In l cands
           /\ 1566814200000 <= end_ l /\ begin l <= 1566814754000
           /\ (1566814200000 <= begin l
               \/ forall g, In g cands ->
                    1566814200000 <= end_ g -> begin g <= 1566814754000 ->
                    begin g < 1566814200000 -> begin g <= begin l).
Proof.
  apply (@resolveFiles_window refLib ctxActive ex_dir_gz ex_path
           1566814200000 1566814754000).
  - reflexivity.
  - discriminate.
  - match goal with
    | |- ForallOrdPairs _ ?c => let v := eval vm_compute in c in change c with v
    end.
    repeat constructor; vm_compute; discriminate.
Defined.


(** ** Runs of the further properties *)

Lemma parseLogItem_wellformed_run :
  parseLogItem ex_line1 = inl ex_msg1.
Proof.
  apply (@parseLogItem_wellformed refLib [] (str "2019/08/26 06:19:13.011 -04:00")
           [" "%char] (str "INFO") (str " [x.go:1] hello") 1566814753011000000);
    try (apply notIn_check; vm_compute; reflexivity).
  vm_compute. reflexivity.
Defined.

Lemma parseLogItem_no_bracket_run :
  parseLogItem ex_line2 = inr (invalidLogString ex_line2).
Proof.
  apply (@parseLogItem_no_bracket refLib ex_line2).
  left. apply notIn_check. vm_compute. reflexivity.
Defined.

Lemma readFirstValidLog_first_lines_run :
  fst (readFirstValidLog ctxActive (mkReader ex_data_tail None) 10)
  = (Some ex_msg3, None).
Proof.
  apply (@readFirstValidLog_first_lines refLib ctxActive ex_data_tail 10).
  reflexivity.
Defined.

Lemma readFirstValidLog_cancelled_run :
  fst (readFirstValidLog ctxCanceled (mkReader ex_data_tail None) 10)
  = (None, Some context_Canceled).
Proof.
  apply (@readFirstValidLog_cancelled refLib ctxCanceled ex_data_tail 10).
  reflexivity.
Defined.

Lemma readLastLines_bytes_run :
  let r := snd (readLastLines ctxActive (ex_file 5 ex_data2 [])
                  (file_Size (ex_file 5 ex_data2 []))) in
  0 <= snd (fst r) <= file_Size (ex_file 5 ex_data2 [])
  /\ (0 < file_Size (ex_file 5 ex_data2 []) -> fst (fst r) <> [] ->
      0 < snd (fst r)).
Proof.
  apply (readLastLines_bytes ctxActive (ex_file 5 ex_data2 [])
           (file_Size (ex_file 5 ex_data2 [])) _ _
           (snd (snd (readLastLines ctxActive (ex_file 5 ex_data2 [])
                        (file_Size (ex_file 5 ex_data2 [])))))).
  - vm_compute. discriminate.
  - vm_compute. reflexivity.
Defined.

Lemma readLastLines_at_start_run :
  readLastLines ctxActive (ex_file 5 ex_data []) 0
  = (ex_file 5 ex_data [], ([[]], 0, None)).
Proof.
  apply (proj1 (@readLastLines_at_start refLib)). lia.
Defined.

Lemma readLastValidLog_last_line_run :
  snd (readLastValidLog ctxActive (ex_file 5 ex_data2 []) 10)
  = (Some ex_msg3, None).
Proof.
  apply (@readLastValidLog_last_line refLib ctxActive (ex_file 5 ex_data2 []) 10
           [ex_line1] ex_line3 ex_msg3).
  - reflexivity.
  - reflexivity.
  - apply Nat.ltb_lt. vm_compute. reflexivity.
  - apply noCR_check. vm_compute. reflexivity.
  - vm_compute. reflexivity.
  - vm_compute. reflexivity.
Defined.

Lemma readLine_full_buffer_lost_run :
  readLine (mkReader (repeat "x"%char defaultBufSize) None)
  = (([], Some io_EOF), mkReader [] None).
Proof.
  apply (readLine_full_buffer_lost 0%nat (repeat "x"%char defaultBufSize) None).
  - apply notIn_check. vm_compute. reflexivity.
  - apply notIn_check. vm_compute. reflexivity.
  - vm_compute. reflexivity.
Defined.

Lemma readLastLines_cancelled_one_round_run :
  exists ops,
    f_ops (fst (readLastLines ctxCanceled (ex_file 5 ex_data [])
                  (file_Size (ex_file 5 ex_data []))))
    = f_ops (ex_file 5 ex_data []) ++ ops
    /\ (List.length ops <= 2)%nat.
Proof.
  apply (readLastLines_cancelled_one_round ctxCanceled). reflexivity.
Defined.

Lemma resolveFiles_returns_last_open_error_run :
  rr_err (resolveFiles ctxActive (inl ex_dir_denied) ex_path 0 MaxInt64)
  = Some (os_Error 13).
Proof.
  apply (@resolveFiles_returns_last_open_error refLib ctxActive ex_dir_denied
           ex_path 0 MaxInt64).
  - reflexivity.
  - discriminate.
Defined.

Lemma resolveFiles_handles_run :
  let r := resolveFiles ctxActive (inl ex_dir) ex_path
             1566814200000 1566814754000 in
  Permutation
    (map file (rr_files r) ++ rr_closed r)
    (probedHandles ctxActive
       (slice 0 (len ex_path - len (filepath_Ext ex_path)) ex_path)
       (filepath_Ext ex_path) ex_dir).
Proof.
  apply (@resolveFiles_handles refLib ctxActive ex_dir ex_path
           1566814200000 1566814754000).
  - reflexivity.
  - discriminate.
Defined.

Lemma resolveFiles_result_shape_run :
  let res :=
    rr_files (resolveFiles ctxActive (inl ex_dir) ex_path
                1566814200000 1566814754000) in
  StronglySorted beginsNotAfter res
  /\ Forall (fun l => 1566814200000 <= begin l) (tl res)
  /\ Forall
       (fun l =>
          In l (candidates ctxActive
                  (slice 0 (len ex_path - len (filepath_Ext ex_path)) ex_path)
                  (filepath_Ext ex_path) ex_dir)
          /\ 1566814200000 <= end_ l /\ begin l <= 1566814754000)
       res.
Proof.
  apply (@resolveFiles_result_shape refLib ctxActive ex_dir ex_path
           1566814200000 1566814754000).
  - reflexivity.
  - discriminate.
Defined.

Lemma resolveFiles_cancelled_run :
  resolveFiles ctxCanceled (inl ex_dir) ex_path 0 MaxInt64
  = mkResolveResult [] (Some context_Canceled) [].
Proof.
  apply (@resolveFiles_cancelled refLib ctxCanceled ex_dir ex_path 0 MaxInt64).
  - reflexivity.
  - discriminate.
Defined.

Lemma compressed_file_open_ended_run :
  exists f b,
    probe ctxActive (str "/log/tidb") (str ".log") ex_gz_entry
    = Probed f b MaxInt64 true
    /\ logFiles (fst (walkFn ctxActive 0 MaxInt64 (str "/log/tidb") (str ".log")
                        (mkResolveState [] [] None) ex_gz_entry))
       = [mkLogFile f b MaxInt64 true].
Proof.
  eexists. eexists. split; [vm_compute; reflexivity|].
  apply (proj2 (@compressed_file_open_ended refLib ctxActive 0 MaxInt64
                  (str "/log/tidb") (str ".log") (mkResolveState [] [] None)
                  ex_gz_entry _ _ MaxInt64 ltac:(vm_compute; reflexivity)
                  ltac:(vm_compute; discriminate))).
Defined.

Lemma next_entry_passes_filters_run :
  @None error = None
  /\ forallb (fun p => p (Message ex_msg1)) (patterns ex_iter_filter) = true
  /\ levelExcluded (levelFlag ex_iter_filter) ex_msg1 = false.
Proof.
  apply (@next_entry_passes_filters refLib 5%nat ctxActive ex_iter_filter
           (fst (next 5 ctxActive ex_iter_filter)) ex_msg1 None).
  vm_compute. reflexivity.
Defined.

Lemma next_exhausted_stays_run :
  let '(iter', r) := next 1 ctxActive ex_iter_end in
  r = Returns (None, Some io_EOF)
  /\ reader iter' = Some (mkReader [] None)
  /\ Z.of_nat (List.length (pending iter')) <= fileIndex iter' + 1.
Proof.
  apply (@next_exhausted_stays refLib 0%nat ctxActive ex_iter_end).
  - reflexivity.
  - reflexivity.
  - simpl. lia.
Defined.

Lemma next_hides_read_error_run :
  next 1000 ctxActive ex_iter_broken = (ex_iter_broken, Diverges).
Proof.
  refine (@next_hides_read_error refLib ctxActive ex_iter_broken (os_Error 5)
            _ _ _ _ 1000%nat).
  - reflexivity.
  - reflexivity.
  - discriminate.
  - reflexivity.
Defined.

Lemma next_returns_run :
  exists iter' v, next 200 ctxActive ex_iter_filter = (iter', Returns v).
Proof.
  apply (@next_returns refLib ctxActive ex_iter_filter 200%nat).
  - simpl. lia.
  - reflexivity.
  - discriminate.
  - repeat constructor.
  - apply Nat.ltb_lt. vm_compute. reflexivity.
Defined.

Lemma readAllLines_rejoin_run :
  List.concat (map (fun l => l ++ [LF]) (readAllLines ex_data)) = ex_data.
Proof.
  apply (readAllLines_rejoin ex_data).
  - vm_compute. reflexivity.
  - apply notIn_check. vm_compute. reflexivity.
Defined.

Lemma name_test_accepts_run :
  nameMatches (str "/log/tidb") (str ".log") ex_gz_entry = true
  /\ nameMatches (str "/log/tidb") (str ".log")
       (ex_entry "/log/tidb-1.log" 3 ex_old1 []) = true
  /\ nameMatches (str "/log/tidb") compressSuffix
       (ex_entry "/log/tidb.gz" 5 ex_data []) = false.
Proof.
  split; [|split].
  - apply (proj1 (proj2 name_test_accepts) (str "/log/tidb") (str ".log")
             (str "-0") ex_gz_entry).
    + reflexivity.
    + right. reflexivity.
  - apply (proj1 (proj2 name_test_accepts) (str "/log/tidb") (str ".log")
             (str "-1") (ex_entry "/log/tidb-1.log" 3 ex_old1 [])).
    + reflexivity.
    + left. split; reflexivity.
  - apply (proj2 (proj2 name_test_accepts) (str "/log/tidb")
             (ex_entry "/log/tidb.gz" 5 ex_data [])); reflexivity.
Defined.

Lemma parseTimeStamp_millis_run :
  exists ms,
    parseTimeStamp (str "2019/08/26 06:19:13.011 -04:00") = inl ms
    /\ (0 <= 1566814753011000000 ->
        ms * 1000000 <= 1566814753011000000 < (ms + 1) * 1000000)
    /\ (1566814753011000000 <= 0 ->
        (ms - 1) * 1000000 < 1566814753011000000 <= ms * 1000000).
Proof.
  refine (@parseTimeStamp_millis refLib (str "2019/08/26 06:19:13.011 -04:00") _).
  vm_compute. split; [discriminate|reflexivity].
Defined.

(** ** The window of the iterator on a concrete file *)



